(** * TinyEcs: a shallow embedding of tinyecs.h and tinyecs_bevy.h

    The storage core ([Module Tecs]) and the scheduling layer
    ([Module Tbevy]) are transcribed function by function from the C
    sources.  C integers are [Z] (with the wrap-around written out where
    the type is unsigned and can overflow), heap objects live in finite
    maps keyed by their address, and the arrays of the C structures are
    finite maps from index to element together with the C [count] field.

    Three outcomes of a C call are told apart: normal return, a fault
    (null or dangling dereference, out-of-bounds access, failed
    assertion) and a loop that never exits. *)

From stdpp Require Import gmap list strings sorting.
From Stdlib Require Import ZArith Lia.

Local Open Scope Z_scope.

(** ** Outcomes of a call *)

Inductive outcome (A : Type) : Type :=
  | Done (a : A)
  | Fault
  | Hang.
Arguments Done {A} a.
Arguments Fault {A}.
Arguments Hang {A}.

Definition outcome_bind {A B} (f : A → outcome B) (m : outcome A) : outcome B :=
  match m with
  | Done a => f a
  | Fault => Fault
  | Hang => Hang
  end.

#[global] Instance outcome_mbind : MBind outcome := @outcome_bind.
#[global] Instance outcome_mret : MRet outcome := @Done.

(** A pointer that must not be null. *)
Definition deref {A} (o : option A) : outcome A :=
  match o with
  | Some a => Done a
  | None => Fault
  end.

Definition is_done {A} (m : outcome A) : bool :=
  match m with Done _ => true | _ => false end.

(** ** Raw memory

    A block obtained from malloc or calloc is a finite map from byte
    offset to byte.  An offset that was never written reads as 0 (which
    is what calloc guarantees; for malloc the C value is indeterminate
    and nothing below depends on it). *)

Definition mem_read (m : gmap Z Z) (off : Z) : Z := default 0 (m !! off).

Fixpoint mem_write (m : gmap Z Z) (off : Z) (data : list Z) : gmap Z Z :=
  match data with
  | [] => m
  | b :: rest => mem_write (<[off := b]> m) (off + 1) rest
  end.

Definition mem_load (m : gmap Z Z) (off : Z) (n : Z) : list Z :=
  (λ i, mem_read m (off + i)) <$> seqZ 0 n.

(** memcpy(dst + off, src, size): reading past the end of the source
    object is a fault. *)
Definition memcpy (m : gmap Z Z) (off : Z) (src : list Z) (size : Z)
  : outcome (gmap Z Z) :=
  if bool_decide (0 ≤ size ∧ size ≤ Z.of_nat (length src))
  then Done (mem_write m off (take (Z.to_nat size) src))
  else Fault.

(** Little-endian layout of an unsigned integer on [n] bytes. *)
Fixpoint le_bytes (n : nat) (x : Z) : list Z :=
  match n with
  | O => []
  | S n' => (x `mod` 256) :: le_bytes n' (x `div` 256)
  end.

Fixpoint le_value (bs : list Z) : Z :=
  match bs with
  | [] => 0
  | b :: rest => b + 256 * le_value rest
  end.

Module Tecs.

(** ** Configuration (tinyecs.h, "Configuration") *)

Definition TECS_CHUNK_SIZE : Z := 4096.
Definition TECS_MAX_COMPONENTS : Z := 1024.
Definition TECS_MAX_QUERY_TERMS : Z := 16.
Definition TECS_INITIAL_ARCHETYPES : Z := 32.
Definition TECS_INITIAL_CHUNKS : Z := 4.

(** ** Entity handles *)

Definition tecs_entity_t := Z.
Definition tecs_component_id_t := Z.
Definition tecs_tick_t := Z.

Definition TECS_ENTITY_INDEX (e : Z) : Z := Z.land e 0xFFFFFFFF.
Definition TECS_ENTITY_GENERATION (e : Z) : Z := Z.land (Z.shiftr e 32) 0xFFFF.
Definition TECS_ENTITY_MAKE (idx gen : Z) : Z := Z.lor idx (Z.shiftl gen 32).
Definition TECS_ENTITY_NULL : Z := 0.

Definition wrap16 (x : Z) : Z := x `mod` 65536.
Definition wrap32 (x : Z) : Z := x `mod` 4294967296.
Definition wrap64 (x : Z) : Z := x `mod` 18446744073709551616.

(** ** Entity sparse set *)

(** [tecs_entity_record_t]; [rec_archetype] is the address of the owning
    archetype, [None] for NULL. *)
Record tecs_entity_record_t := mk_record {
  rec_archetype : option Z;
  rec_chunk_index : Z;
  rec_row : Z
}.

(** [tecs_entity_sparse_set_t].  [sparse] and [generations] come from
    calloc and are grown with zero fill, so an absent key reads as 0.
    [dense] comes from malloc: an absent key is an uninitialised slot.
    [recycled] with its count is a stack, newest index first.  The
    capacities of [dense] and [recycled] only drive realloc and are left
    out. *)
Record tecs_entity_sparse_set_t := mk_sparse_set {
  sparse : gmap Z Z;
  sparse_capacity : Z;
  dense : gmap Z tecs_entity_record_t;
  dense_count : Z;
  recycled : list Z;
  generations : gmap Z Z;
  generation_capacity : Z
}.

Definition tecs_sparse_set_init : tecs_entity_sparse_set_t :=
  {| sparse := ∅; sparse_capacity := 1024;
     dense := ∅; dense_count := 0;
     recycled := [];
     generations := ∅; generation_capacity := 1024 |}.

(** The doubling loop [while (index >= new_capacity) new_capacity *= 2]. *)
Fixpoint grow_capacity (fuel : nat) (cap index : Z) : Z :=
  match fuel with
  | O => cap
  | S fuel' => if bool_decide (index >= cap) then grow_capacity fuel' (cap * 2) index
               else cap
  end.

Definition tecs_sparse_set_ensure_capacity (set : tecs_entity_sparse_set_t)
    (index : Z) : tecs_entity_sparse_set_t :=
  let sc := if bool_decide (index >= sparse_capacity set)
            then grow_capacity 64 (sparse_capacity set * 2) index
            else sparse_capacity set in
  let gc := if bool_decide (index >= generation_capacity set)
            then grow_capacity 64 (generation_capacity set * 2) index
            else generation_capacity set in
  {| sparse := sparse set; sparse_capacity := sc;
     dense := dense set; dense_count := dense_count set;
     recycled := recycled set;
     generations := generations set; generation_capacity := gc |}.

Definition tecs_sparse_set_create (set : tecs_entity_sparse_set_t)
    : tecs_entity_sparse_set_t * tecs_entity_t :=
  (* Try to reuse recycled entity *)
  let '(index, generation, set1) :=
    match recycled set with
    | index :: rest =>
        let generation := wrap16 (mem_read (generations set) index + 1) in
        (index, generation,
         {| sparse := sparse set; sparse_capacity := sparse_capacity set;
            dense := dense set; dense_count := dense_count set;
            recycled := rest;
            generations := <[index := generation]> (generations set);
            generation_capacity := generation_capacity set |})
    | [] => (wrap32 (dense_count set), 0, set)
    end in
  let set2 := tecs_sparse_set_ensure_capacity set1 index in
  let fresh := {| rec_archetype := None; rec_chunk_index := -1; rec_row := -1 |} in
  ({| sparse := <[index := dense_count set2]> (sparse set2);
      sparse_capacity := sparse_capacity set2;
      dense := <[dense_count set2 := fresh]> (dense set2);
      dense_count := dense_count set2 + 1;
      recycled := recycled set2;
      generations := generations set2;
      generation_capacity := generation_capacity set2 |},
   TECS_ENTITY_MAKE index generation).

(** The result is the position of the record inside [dense] (the C
    function returns [&set->dense[dense_index]]), [None] for NULL. *)
Definition tecs_sparse_set_get (set : tecs_entity_sparse_set_t)
    (entity : tecs_entity_t) : option Z :=
  let index := TECS_ENTITY_INDEX entity in
  let generation := TECS_ENTITY_GENERATION entity in
  if bool_decide (index >= sparse_capacity set) then None
  else if bool_decide (mem_read (generations set) index ≠ generation) then None
  else
    let dense_index := mem_read (sparse set) index in
    if bool_decide (dense_index >= wrap32 (dense_count set)) then None
    else Some dense_index.

Definition tecs_sparse_set_remove (set : tecs_entity_sparse_set_t)
    (entity : tecs_entity_t) : outcome tecs_entity_sparse_set_t :=
  let index := TECS_ENTITY_INDEX entity in
  if bool_decide (index >= sparse_capacity set) then Done set
  else
    let dense_index := mem_read (sparse set) index in
    if bool_decide (dense_index >= wrap32 (dense_count set)) then Done set
    else
      (* Swap with last element in dense array; the sparse slot of the
         entity that owned the last record is left as it was. *)
      dense1 ←
        (if bool_decide (dense_index < wrap32 (dense_count set - 1))
         then last ← deref (dense set !! (dense_count set - 1));
              Done (<[dense_index := last]> (dense set))
         else Done (dense set));
      Done {| sparse := sparse set; sparse_capacity := sparse_capacity set;
              dense := dense1; dense_count := dense_count set - 1;
              recycled := index :: recycled set;
              generations := generations set;
              generation_capacity := generation_capacity set |}.

(** ** Component and edge hash maps

    [tecs_component_map_t] and [tecs_edge_map_t] are open-addressing
    tables with linear probing, a capacity fixed at creation and no
    deletion.  Such a table behaves as a finite map as long as a free
    slot is left.  Once every slot holds some other key, the probe loop
    of the setters ([while (occupied && key != component_id)]) has no
    exit, while the getters stop after one full turn. *)

Record tecs_component_map_t := mk_component_map {
  cm_entries : gmap Z Z;
  cm_capacity : Z
}.

Definition tecs_component_map_init (capacity : Z) : tecs_component_map_t :=
  {| cm_entries := ∅; cm_capacity := capacity |}.

Definition tecs_component_map_get (map : tecs_component_map_t)
    (component_id : Z) : Z :=
  if bool_decide (cm_capacity map = 0) then -1
  else default (-1) (cm_entries map !! component_id).

Definition tecs_component_map_set (map : tecs_component_map_t)
    (component_id value : Z) : outcome tecs_component_map_t :=
  if bool_decide (cm_capacity map = 0) then Done map
  else if bool_decide (is_Some (cm_entries map !! component_id)
                       ∨ Z.of_nat (size (cm_entries map)) < cm_capacity map)
  then Done {| cm_entries := <[component_id := value]> (cm_entries map);
               cm_capacity := cm_capacity map |}
  else Hang.

Record tecs_edge_map_t := mk_edge_map {
  em_entries : gmap Z Z;
  em_capacity : Z
}.

Definition tecs_edge_map_init (capacity : Z) : tecs_edge_map_t :=
  {| em_entries := ∅; em_capacity := capacity |}.

Definition tecs_edge_map_get (map : tecs_edge_map_t) (component_id : Z)
    : option Z :=
  if bool_decide (em_capacity map = 0) then None
  else em_entries map !! component_id.

Definition tecs_edge_map_set (map : tecs_edge_map_t)
    (component_id target : Z) : outcome tecs_edge_map_t :=
  if bool_decide (em_capacity map = 0) then Done map
  else if bool_decide (is_Some (em_entries map !! component_id)
                       ∨ Z.of_nat (size (em_entries map)) < em_capacity map)
  then Done {| em_entries := <[component_id := target]> (em_entries map);
               em_capacity := em_capacity map |}
  else Hang.

(** ** Columns, chunks, archetypes *)

Record tecs_component_info_t := mk_info {
  ci_id : Z;
  ci_size : Z;          (* Size in bytes (0 for tags) *)
  ci_column_index : Z
}.

(** [tecs_column_t] over the default native provider: [col_storage] is
    the block returned by [tecs_native_alloc_chunk] and [col_alloc] its
    size in bytes.  Components are registered here through
    [tecs_register_component], which passes a NULL provider, so every
    column is served by [tecs_default_storage]. *)
Record tecs_column_t := mk_column {
  col_storage : gmap Z Z;
  col_alloc : Z;
  col_changed_ticks : gmap Z Z;
  col_added_ticks : gmap Z Z
}.

(** [tecs_chunk_t]; [capacity] is always [TECS_CHUNK_SIZE]. *)
Record tecs_chunk_t := mk_chunk {
  chunk_entities : gmap Z Z;
  chunk_columns : list tecs_column_t;
  chunk_count : Z
}.

Record tecs_archetype_edge_t := mk_edge {
  edge_component_id : Z;
  edge_target : Z
}.

(** [struct tecs_archetype_s]; [chunk_count] is the length of
    [arch_chunks], the counts of the three component arrays are the
    lengths of the lists. *)
Record tecs_archetype_t := mk_archetype {
  arch_id : Z;
  arch_components : list tecs_component_info_t;
  arch_data_components : list tecs_component_info_t;
  arch_tags : list tecs_component_info_t;
  arch_chunks : list tecs_chunk_t;
  arch_entity_count : Z;
  arch_add_edges : list tecs_archetype_edge_t;
  arch_remove_edges : list tecs_archetype_edge_t;
  arch_component_map : tecs_component_map_t;
  arch_data_component_map : tecs_component_map_t;
  arch_add_edge_map : tecs_edge_map_t;
  arch_remove_edge_map : tecs_edge_map_t
}.

Definition set_arch_chunks (A : tecs_archetype_t) (chunks : list tecs_chunk_t)
    (entity_count : Z) : tecs_archetype_t :=
  {| arch_id := arch_id A; arch_components := arch_components A;
     arch_data_components := arch_data_components A; arch_tags := arch_tags A;
     arch_chunks := chunks; arch_entity_count := entity_count;
     arch_add_edges := arch_add_edges A; arch_remove_edges := arch_remove_edges A;
     arch_component_map := arch_component_map A;
     arch_data_component_map := arch_data_component_map A;
     arch_add_edge_map := arch_add_edge_map A;
     arch_remove_edge_map := arch_remove_edge_map A |}.

(** ** Hashing and utilities *)

(** The inner loop of the insertion sort of [tecs_hash_component_set]:
    [key] goes after the last element that is not greater. *)
Fixpoint insert_sorted (key : Z) (sorted : list Z) : list Z :=
  match sorted with
  | [] => [key]
  | x :: rest => if bool_decide (x > key) then key :: x :: rest
                 else x :: insert_sorted key rest
  end.

Definition insertion_sort (ids : list Z) : list Z :=
  foldl (λ sorted key, insert_sorted key sorted) [] ids.

(** FNV-1a hash for component ID arrays. *)
Definition tecs_hash_component_set (ids : list Z) : Z :=
  foldl (λ hash id, wrap64 (Z.lxor hash id * 1099511628211))
        14695981039346656037 (insertion_sort ids).

(** qsort with [tecs_compare_component_info]: ascending by id. *)
Fixpoint insert_info (c : tecs_component_info_t)
    (sorted : list tecs_component_info_t) : list tecs_component_info_t :=
  match sorted with
  | [] => [c]
  | x :: rest => if bool_decide (ci_id x > ci_id c) then c :: x :: rest
                 else x :: insert_info c rest
  end.

Definition sort_component_infos (cs : list tecs_component_info_t)
    : list tecs_component_info_t :=
  foldl (λ sorted c, insert_info c sorted) [] cs.

(** A loop over a list whose body can fault or hang. *)
Fixpoint for_each {S A} (xs : list A) (body : S → A → outcome S) (s : S)
    : outcome S :=
  match xs with
  | [] => Done s
  | x :: rest => s' ← body s x; for_each rest body s'
  end.

(** [xs] paired with the indices 0, 1, 2, ... *)
Definition indexed {A} (xs : list A) : list (Z * A) :=
  zip (seqZ 0 (Z.of_nat (length xs))) xs.

(** ** Archetype management *)

Definition with_column_index (c : tecs_component_info_t) (i : Z)
    : tecs_component_info_t :=
  {| ci_id := ci_id c; ci_size := ci_size c; ci_column_index := i |}.

Definition tecs_archetype_new (components : list tecs_component_info_t)
    : outcome tecs_archetype_t :=
  let component_count := Z.of_nat (length components) in
  (* Sort components by ID *)
  let sorted := sort_component_infos components in
  (* Separate data components and tags *)
  let data :=
    (λ '(i, c), with_column_index c i)
      <$> indexed (filter (λ c, ci_size c > 0) sorted) in
  let tags := filter (λ c, ¬ ci_size c > 0) sorted in
  let data_component_count := Z.of_nat (length data) in
  (* Compute archetype hash *)
  let id := tecs_hash_component_set (ci_id <$> components) in
  (* Initialize hash maps for O(1) lookups *)
  let map_capacity :=
    if bool_decide (component_count * 2 < 8) then 8 else component_count * 2 in
  let data_map_capacity :=
    if bool_decide (data_component_count * 2 < 8) then 8
    else data_component_count * 2 in
  (* Populate component map *)
  component_map ←
    for_each (indexed sorted)
      (λ m '(i, c), tecs_component_map_set m (ci_id c) i)
      (tecs_component_map_init map_capacity);
  (* Populate data component map (component_id -> column index) *)
  data_component_map ←
    for_each (indexed data)
      (λ m '(i, c), tecs_component_map_set m (ci_id c) i)
      (tecs_component_map_init data_map_capacity);
  Done {| arch_id := id;
          arch_components := sorted;
          arch_data_components := data;
          arch_tags := tags;
          arch_chunks := [];
          arch_entity_count := 0;
          arch_add_edges := [];
          arch_remove_edges := [];
          arch_component_map := component_map;
          arch_data_component_map := data_component_map;
          arch_add_edge_map := tecs_edge_map_init 16;
          arch_remove_edge_map := tecs_edge_map_init 16 |}.

Definition tecs_chunk_new (data_components : list tecs_component_info_t)
    : tecs_chunk_t :=
  {| chunk_entities := ∅;
     chunk_columns :=
       (λ c, {| col_storage := ∅;
                col_alloc := ci_size c * TECS_CHUNK_SIZE;
                col_changed_ticks := ∅;
                col_added_ticks := ∅ |}) <$> data_components;
     chunk_count := 0 |}.

(** ** The world *)

Record tecs_component_registry_entry_t := mk_registry_entry {
  reg_id : Z;
  reg_name : string;
  reg_size : Z
}.

(** [tecs_archetype_table_entry_t]; the table comes from calloc, so a
    slot that was never written is [{0, NULL}]. *)
Record tecs_archetype_table_entry_t := mk_table_entry {
  te_hash : Z;
  te_archetype : option Z
}.

(** [tecs_children_t]: [ch_entities] with [ch_count] is the array,
    [ch_addr] the address of the array (it is part of the bytes mirrored
    into the Children component). *)
Record tecs_children_t := mk_children {
  ch_addr : Z;
  ch_entities : gmap Z Z;
  ch_count : Z;
  ch_capacity : Z
}.

(** [struct tecs_world_s].  [w_heap] holds the archetype objects by
    address and [w_next_addr] is the next address malloc hands out;
    freeing an archetype removes it from [w_heap], after which its
    address dangles.  [w_entity_children] is the keys/values pair of
    arrays, in array order.  The world-level command buffer has no
    producer in the API and is left out. *)
Record tecs_world_t := mk_world {
  w_entities : tecs_entity_sparse_set_t;
  w_heap : gmap Z tecs_archetype_t;
  w_next_addr : Z;
  w_root_archetype : Z;
  w_archetype_table : gmap Z tecs_archetype_table_entry_t;
  w_archetype_table_size : Z;
  w_archetype_table_capacity : Z;
  w_component_registry : list tecs_component_registry_entry_t;
  w_component_registry_map : tecs_component_map_t;
  w_tick : Z;
  w_structural_change_version : Z;
  w_in_deferred : bool;
  w_entity_children : list (Z * tecs_children_t);
  w_parent_component_id : Z;
  w_children_component_id : Z
}.

Definition set_w_entities (w : tecs_world_t) (es : tecs_entity_sparse_set_t)
    : tecs_world_t :=
  {| w_entities := es; w_heap := w_heap w; w_next_addr := w_next_addr w;
     w_root_archetype := w_root_archetype w;
     w_archetype_table := w_archetype_table w;
     w_archetype_table_size := w_archetype_table_size w;
     w_archetype_table_capacity := w_archetype_table_capacity w;
     w_component_registry := w_component_registry w;
     w_component_registry_map := w_component_registry_map w;
     w_tick := w_tick w;
     w_structural_change_version := w_structural_change_version w;
     w_in_deferred := w_in_deferred w;
     w_entity_children := w_entity_children w;
     w_parent_component_id := w_parent_component_id w;
     w_children_component_id := w_children_component_id w |}.

Definition set_w_heap (w : tecs_world_t) (heap : gmap Z tecs_archetype_t)
    : tecs_world_t :=
  {| w_entities := w_entities w; w_heap := heap; w_next_addr := w_next_addr w;
     w_root_archetype := w_root_archetype w;
     w_archetype_table := w_archetype_table w;
     w_archetype_table_size := w_archetype_table_size w;
     w_archetype_table_capacity := w_archetype_table_capacity w;
     w_component_registry := w_component_registry w;
     w_component_registry_map := w_component_registry_map w;
     w_tick := w_tick w;
     w_structural_change_version := w_structural_change_version w;
     w_in_deferred := w_in_deferred w;
     w_entity_children := w_entity_children w;
     w_parent_component_id := w_parent_component_id w;
     w_children_component_id := w_children_component_id w |}.

Definition set_w_next_addr (w : tecs_world_t) (a : Z) : tecs_world_t :=
  {| w_entities := w_entities w; w_heap := w_heap w; w_next_addr := a;
     w_root_archetype := w_root_archetype w;
     w_archetype_table := w_archetype_table w;
     w_archetype_table_size := w_archetype_table_size w;
     w_archetype_table_capacity := w_archetype_table_capacity w;
     w_component_registry := w_component_registry w;
     w_component_registry_map := w_component_registry_map w;
     w_tick := w_tick w;
     w_structural_change_version := w_structural_change_version w;
     w_in_deferred := w_in_deferred w;
     w_entity_children := w_entity_children w;
     w_parent_component_id := w_parent_component_id w;
     w_children_component_id := w_children_component_id w |}.

Definition set_w_table (w : tecs_world_t)
    (table : gmap Z tecs_archetype_table_entry_t) (size capacity : Z)
    : tecs_world_t :=
  {| w_entities := w_entities w; w_heap := w_heap w;
     w_next_addr := w_next_addr w;
     w_root_archetype := w_root_archetype w;
     w_archetype_table := table;
     w_archetype_table_size := size;
     w_archetype_table_capacity := capacity;
     w_component_registry := w_component_registry w;
     w_component_registry_map := w_component_registry_map w;
     w_tick := w_tick w;
     w_structural_change_version := w_structural_change_version w;
     w_in_deferred := w_in_deferred w;
     w_entity_children := w_entity_children w;
     w_parent_component_id := w_parent_component_id w;
     w_children_component_id := w_children_component_id w |}.

Definition set_w_registry (w : tecs_world_t)
    (registry : list tecs_component_registry_entry_t)
    (map : tecs_component_map_t) : tecs_world_t :=
  {| w_entities := w_entities w; w_heap := w_heap w;
     w_next_addr := w_next_addr w;
     w_root_archetype := w_root_archetype w;
     w_archetype_table := w_archetype_table w;
     w_archetype_table_size := w_archetype_table_size w;
     w_archetype_table_capacity := w_archetype_table_capacity w;
     w_component_registry := registry;
     w_component_registry_map := map;
     w_tick := w_tick w;
     w_structural_change_version := w_structural_change_version w;
     w_in_deferred := w_in_deferred w;
     w_entity_children := w_entity_children w;
     w_parent_component_id := w_parent_component_id w;
     w_children_component_id := w_children_component_id w |}.

Definition set_w_tick (w : tecs_world_t) (tick : Z) : tecs_world_t :=
  {| w_entities := w_entities w; w_heap := w_heap w;
     w_next_addr := w_next_addr w;
     w_root_archetype := w_root_archetype w;
     w_archetype_table := w_archetype_table w;
     w_archetype_table_size := w_archetype_table_size w;
     w_archetype_table_capacity := w_archetype_table_capacity w;
     w_component_registry := w_component_registry w;
     w_component_registry_map := w_component_registry_map w;
     w_tick := tick;
     w_structural_change_version := w_structural_change_version w;
     w_in_deferred := w_in_deferred w;
     w_entity_children := w_entity_children w;
     w_parent_component_id := w_parent_component_id w;
     w_children_component_id := w_children_component_id w |}.

Definition set_w_version (w : tecs_world_t) (version : Z) : tecs_world_t :=
  {| w_entities := w_entities w; w_heap := w_heap w;
     w_next_addr := w_next_addr w;
     w_root_archetype := w_root_archetype w;
     w_archetype_table := w_archetype_table w;
     w_archetype_table_size := w_archetype_table_size w;
     w_archetype_table_capacity := w_archetype_table_capacity w;
     w_component_registry := w_component_registry w;
     w_component_registry_map := w_component_registry_map w;
     w_tick := w_tick w;
     w_structural_change_version := version;
     w_in_deferred := w_in_deferred w;
     w_entity_children := w_entity_children w;
     w_parent_component_id := w_parent_component_id w;
     w_children_component_id := w_children_component_id w |}.

Definition set_w_entity_children (w : tecs_world_t)
    (children : list (Z * tecs_children_t)) : tecs_world_t :=
  {| w_entities := w_entities w; w_heap := w_heap w;
     w_next_addr := w_next_addr w;
     w_root_archetype := w_root_archetype w;
     w_archetype_table := w_archetype_table w;
     w_archetype_table_size := w_archetype_table_size w;
     w_archetype_table_capacity := w_archetype_table_capacity w;
     w_component_registry := w_component_registry w;
     w_component_registry_map := w_component_registry_map w;
     w_tick := w_tick w;
     w_structural_change_version := w_structural_change_version w;
     w_in_deferred := w_in_deferred w;
     w_entity_children := children;
     w_parent_component_id := w_parent_component_id w;
     w_children_component_id := w_children_component_id w |}.

Definition set_w_hierarchy_ids (w : tecs_world_t) (parent_id children_id : Z)
    : tecs_world_t :=
  {| w_entities := w_entities w; w_heap := w_heap w;
     w_next_addr := w_next_addr w;
     w_root_archetype := w_root_archetype w;
     w_archetype_table := w_archetype_table w;
     w_archetype_table_size := w_archetype_table_size w;
     w_archetype_table_capacity := w_archetype_table_capacity w;
     w_component_registry := w_component_registry w;
     w_component_registry_map := w_component_registry_map w;
     w_tick := w_tick w;
     w_structural_change_version := w_structural_change_version w;
     w_in_deferred := w_in_deferred w;
     w_entity_children := w_entity_children w;
     w_parent_component_id := parent_id;
     w_children_component_id := children_id |}.

(** Reading and writing an archetype through its address. *)
Definition get_arch (w : tecs_world_t) (arch : Z) : outcome tecs_archetype_t :=
  deref (w_heap w !! arch).

Definition put_arch (w : tecs_world_t) (arch : Z) (A : tecs_archetype_t)
    : tecs_world_t :=
  set_w_heap w (<[arch := A]> (w_heap w)).

(** Reading and writing an entity record through its address. *)
Definition get_record (w : tecs_world_t) (record : Z)
    : outcome tecs_entity_record_t :=
  deref (dense (w_entities w) !! record).

Definition put_record (w : tecs_world_t) (record : Z)
    (r : tecs_entity_record_t) : tecs_world_t :=
  let es := w_entities w in
  set_w_entities w
    {| sparse := sparse es; sparse_capacity := sparse_capacity es;
       dense := <[record := r]> (dense es); dense_count := dense_count es;
       recycled := recycled es;
       generations := generations es;
       generation_capacity := generation_capacity es |}.

(** ** Default native storage provider *)

Definition tecs_native_get_ptr (index size : Z) : Z := index * size.

(** The bytes [off, off + size) lie inside the block of the column. *)
Definition in_block (col : tecs_column_t) (off size : Z) : bool :=
  bool_decide (0 ≤ off ∧ 0 ≤ size ∧ off + size ≤ col_alloc col).

Definition set_col_storage (col : tecs_column_t) (m : gmap Z Z) : tecs_column_t :=
  {| col_storage := m; col_alloc := col_alloc col;
     col_changed_ticks := col_changed_ticks col;
     col_added_ticks := col_added_ticks col |}.

Definition set_col_ticks (col : tecs_column_t) (changed added : gmap Z Z)
    : tecs_column_t :=
  {| col_storage := col_storage col; col_alloc := col_alloc col;
     col_changed_ticks := changed; col_added_ticks := added |}.

Definition tecs_native_set_data (col : tecs_column_t) (index : Z)
    (data : list Z) (size : Z) : outcome tecs_column_t :=
  let ptr := tecs_native_get_ptr index size in
  if in_block col ptr size
  then m ← memcpy (col_storage col) ptr data size; Done (set_col_storage col m)
  else Fault.

Definition tecs_native_copy_data (src : tecs_column_t) (src_idx : Z)
    (dst : tecs_column_t) (dst_idx : Z) (size : Z) : outcome tecs_column_t :=
  let src_ptr := tecs_native_get_ptr src_idx size in
  let dst_ptr := tecs_native_get_ptr dst_idx size in
  if in_block src src_ptr size && in_block dst dst_ptr size
  then Done (set_col_storage dst
               (mem_write (col_storage dst) dst_ptr
                  (mem_load (col_storage src) src_ptr size)))
  else Fault.

Definition tecs_native_swap_data (col : tecs_column_t) (idx_a idx_b size : Z)
    : outcome tecs_column_t :=
  if bool_decide (idx_a = idx_b) then Done col
  else
    let ptr_a := tecs_native_get_ptr idx_a size in
    let ptr_b := tecs_native_get_ptr idx_b size in
    if in_block col ptr_a size && in_block col ptr_b size
    then
      let swap_temp := mem_load (col_storage col) ptr_a size in
      let m1 := mem_write (col_storage col) ptr_a
                  (mem_load (col_storage col) ptr_b size) in
      Done (set_col_storage col (mem_write m1 ptr_b swap_temp))
    else Fault.

(** A row index that stays inside the per-chunk arrays. *)
Definition row_ok (row : Z) : bool :=
  bool_decide (0 ≤ row < TECS_CHUNK_SIZE).

(** ** Adding and removing rows *)

(** [record] is the [tecs_entity_record_t*] argument: the position of
    the record in [dense], [None] for NULL. *)
Definition tecs_archetype_add_entity (w : tecs_world_t) (arch : Z)
    (entity : tecs_entity_t) (record : option Z) (tick : Z)
    : outcome tecs_world_t :=
  A ← get_arch w arch;
  (* Find or create chunk with space *)
  let '(chunks, chunk_idx) :=
    match list_find (λ c, chunk_count c < TECS_CHUNK_SIZE) (arch_chunks A) with
    | Some (i, _) => (arch_chunks A, Z.of_nat i)
    | None => (arch_chunks A ++ [tecs_chunk_new (arch_data_components A)],
               Z.of_nat (length (arch_chunks A)))
    end in
  chunk ← deref (chunks !! Z.to_nat chunk_idx);
  (* Add entity to chunk *)
  let row := chunk_count chunk in
  if negb (row_ok row) then Fault else
  let chunk' :=
    {| chunk_entities := <[row := entity]> (chunk_entities chunk);
       (* Initialize ticks *)
       chunk_columns :=
         (λ col, set_col_ticks col (<[row := tick]> (col_changed_ticks col))
                                   (<[row := tick]> (col_added_ticks col)))
           <$> chunk_columns chunk;
       chunk_count := row + 1 |} in
  let entity_count := arch_entity_count A + 1 in
  let w1 := put_arch w arch
              (set_arch_chunks A (<[Z.to_nat chunk_idx := chunk']> chunks)
                 entity_count) in
  (* Update entity record *)
  record ← deref record;
  Done (put_record w1 record
          {| rec_archetype := Some arch;
             rec_chunk_index := chunk_idx;
             rec_row := entity_count - 1 |}).  (* Global row index *)

(** The body of the column loop of [tecs_archetype_remove_entity]; the
    native provider has a [swap_data], so the swap branch is the one
    taken. *)
Definition remove_swap_column (row last_row : Z)
    (col : tecs_column_t) (info : tecs_component_info_t)
    : outcome tecs_column_t :=
  col1 ← tecs_native_swap_data col row last_row (ci_size info);
  Done (set_col_ticks col1
          (<[row := mem_read (col_changed_ticks col1) last_row]>
             (col_changed_ticks col1))
          (<[row := mem_read (col_added_ticks col1) last_row]>
             (col_added_ticks col1))).

Fixpoint remove_swap_columns (row last_row : Z) (cols : list tecs_column_t)
    (infos : list tecs_component_info_t) : outcome (list tecs_column_t) :=
  match infos, cols with
  | [], _ => Done cols
  | info :: infos', col :: cols' =>
      col1 ← remove_swap_column row last_row col info;
      rest ← remove_swap_columns row last_row cols' infos';
      Done (col1 :: rest)
  | _ :: _, [] => Fault
  end.

Definition tecs_archetype_remove_entity (w : tecs_world_t) (arch : Z)
    (chunk_idx row : Z) : outcome tecs_world_t :=
  A ← get_arch w arch;
  if bool_decide (chunk_idx < 0) then Fault else
  chunk ← deref (arch_chunks A !! Z.to_nat chunk_idx);
  (* Swap with last entity in chunk *)
  let last_row := chunk_count chunk - 1 in
  chunk1 ←
    (if bool_decide (row ≠ last_row) then
       if row_ok row && row_ok last_row then
         cols ← remove_swap_columns row last_row (chunk_columns chunk)
                  (arch_data_components A);
         Done {| chunk_entities :=
                   <[row := mem_read (chunk_entities chunk) last_row]>
                     (chunk_entities chunk);
                 chunk_columns := cols;
                 chunk_count := chunk_count chunk |}
       else Fault
     else Done chunk);
  let chunk2 :=
    {| chunk_entities := chunk_entities chunk1;
       chunk_columns := chunk_columns chunk1;
       chunk_count := chunk_count chunk1 - 1 |} in
  Done (put_arch w arch
          (set_arch_chunks A (<[Z.to_nat chunk_idx := chunk2]> (arch_chunks A))
             (arch_entity_count A - 1))).

Definition tecs_archetype_find_component (A : tecs_archetype_t)
    (component_id : Z) : Z :=
  tecs_component_map_get (arch_component_map A) component_id.

Definition tecs_archetype_has_component (A : tecs_archetype_t)
    (component_id : Z) : bool :=
  bool_decide (tecs_archetype_find_component A component_id >= 0).

Definition tecs_archetype_add_edge (w : tecs_world_t) (arch : Z)
    (component_id target : Z) (is_add : bool) : outcome tecs_world_t :=
  A ← get_arch w arch;
  let edge := {| edge_component_id := component_id; edge_target := target |} in
  map ← tecs_edge_map_set
           (if is_add then arch_add_edge_map A else arch_remove_edge_map A)
           component_id target;
  Done (put_arch w arch
    {| arch_id := arch_id A; arch_components := arch_components A;
       arch_data_components := arch_data_components A; arch_tags := arch_tags A;
       arch_chunks := arch_chunks A; arch_entity_count := arch_entity_count A;
       arch_add_edges :=
         if is_add then arch_add_edges A ++ [edge] else arch_add_edges A;
       arch_remove_edges :=
         if is_add then arch_remove_edges A else arch_remove_edges A ++ [edge];
       arch_component_map := arch_component_map A;
       arch_data_component_map := arch_data_component_map A;
       arch_add_edge_map := if is_add then map else arch_add_edge_map A;
       arch_remove_edge_map := if is_add then arch_remove_edge_map A else map |}).

Definition tecs_archetype_find_edge (A : tecs_archetype_t)
    (component_id : Z) (is_add : bool) : option Z :=
  tecs_edge_map_get
    (if is_add then arch_add_edge_map A else arch_remove_edge_map A)
    component_id.

(** ** Component registration *)

Definition tecs_register_component (w : tecs_world_t) (name : string)
    (size : Z) : outcome (tecs_world_t * tecs_component_id_t) :=
  let component_count := Z.of_nat (length (w_component_registry w)) in
  let id := component_count + 1 in  (* Start at 1, 0 is reserved *)
  let registry_index := component_count in
  let entry := {| reg_id := id; reg_name := name; reg_size := size |} in
  (* Add to hashmap for O(1) lookup *)
  map ← tecs_component_map_set (w_component_registry_map w) id registry_index;
  Done (set_w_registry w (w_component_registry w ++ [entry]) map, id).

Definition tecs_get_component_id (w : tecs_world_t) (name : string)
    : tecs_component_id_t :=
  match list_find (λ e, reg_name e = name) (w_component_registry w) with
  | Some (_, e) => reg_id e
  | None => 0  (* Component not found *)
  end.

(** ** Archetype hash table *)

Definition table_entry (table : gmap Z tecs_archetype_table_entry_t)
    (index : Z) : tecs_archetype_table_entry_t :=
  default {| te_hash := 0; te_archetype := None |} (table !! index).

(** The do-while of [tecs_world_find_archetype]; it makes at most
    [capacity] turns, which is the fuel it is called with. *)
Fixpoint find_archetype_probe (fuel : nat)
    (table : gmap Z tecs_archetype_table_entry_t) (capacity hash : Z)
    (index start : Z) : option Z :=
  match fuel with
  | O => None
  | S fuel' =>
      match te_archetype (table_entry table index) with
      | None => None  (* Empty slot, archetype doesn't exist *)
      | Some arch =>
          if bool_decide (te_hash (table_entry table index) = hash)
          then Some arch
          else
            let index' := (index + 1) `mod` capacity in
            if bool_decide (index' = start) then None
            else find_archetype_probe fuel' table capacity hash index' start
      end
  end.

Definition tecs_world_find_archetype (w : tecs_world_t) (hash : Z) : option Z :=
  if bool_decide (w_archetype_table_capacity w = 0) then None
  else
    let index := hash `mod` w_archetype_table_capacity w in
    find_archetype_probe (Z.to_nat (w_archetype_table_capacity w))
      (w_archetype_table w) (w_archetype_table_capacity w) hash index index.

(** [while (table[index].archetype != NULL) index = (index + 1) % capacity]:
    the first free slot from [index] on, or no exit when there is none. *)
Fixpoint free_slot_probe (fuel : nat)
    (table : gmap Z tecs_archetype_table_entry_t) (capacity index : Z)
    : outcome Z :=
  match fuel with
  | O => Hang
  | S fuel' =>
      match te_archetype (table_entry table index) with
      | None => Done index
      | Some _ => free_slot_probe fuel' table capacity
                    ((index + 1) `mod` capacity)
      end
  end.

Definition table_insert (table : gmap Z tecs_archetype_table_entry_t)
    (capacity : Z) (entry : tecs_archetype_table_entry_t)
    : outcome (gmap Z tecs_archetype_table_entry_t) :=
  index ← free_slot_probe (Z.to_nat capacity) table capacity
              (te_hash entry `mod` capacity);
  Done (<[index := entry]> table).

Definition tecs_world_add_archetype (w : tecs_world_t) (arch : Z)
    : outcome tecs_world_t :=
  A ← get_arch w arch;
  (* Rehash if load factor exceeds 0.7 *)
  '(table, size, capacity) ←
    (if bool_decide (w_archetype_table_size w
                       >= (w_archetype_table_capacity w * 7) `quot` 10)
     then
       let old_capacity := w_archetype_table_capacity w in
       let new_capacity := old_capacity * 2 in
       (* Rehash all existing entries *)
       for_each (seqZ 0 old_capacity)
         (λ '(table, size, capacity) i,
            match te_archetype (table_entry (w_archetype_table w) i) with
            | Some _ =>
                table' ← table_insert table capacity
                            (table_entry (w_archetype_table w) i);
                Done (table', size + 1, capacity)
            | None => Done (table, size, capacity)
            end)
         (∅, 0, new_capacity)
     else Done (w_archetype_table w, w_archetype_table_size w,
                w_archetype_table_capacity w));
  (* Insert new archetype with linear probing *)
  table' ← table_insert table capacity
              {| te_hash := arch_id A; te_archetype := Some arch |};
  Done (set_w_version (set_w_table w table' (size + 1) capacity)
          (wrap64 (w_structural_change_version w + 1))).

(** ** World management *)

Definition tecs_world_new : outcome tecs_world_t :=
  (* Create root archetype (empty) *)
  root ← tecs_archetype_new [];
  let root_addr := 1 in
  (* Insert root archetype using hash table logic *)
  let index := arch_id root `mod` TECS_INITIAL_ARCHETYPES in
  let w :=
    {| w_entities := tecs_sparse_set_init;
       w_heap := {[ root_addr := root ]};
       w_next_addr := root_addr + 1;
       w_root_archetype := root_addr;
       w_archetype_table :=
         {[ index := {| te_hash := arch_id root;
                        te_archetype := Some root_addr |} ]};
       w_archetype_table_size := 1;
       w_archetype_table_capacity := TECS_INITIAL_ARCHETYPES;
       w_component_registry := [];
       w_component_registry_map := tecs_component_map_init TECS_MAX_COMPONENTS;
       w_tick := 0;
       w_structural_change_version := 0;
       w_in_deferred := false;
       w_entity_children := [];
       w_parent_component_id := 0;
       w_children_component_id := 0 |} in
  (* Auto-register hierarchy components: sizeof(tecs_parent_t) = 8,
     sizeof(tecs_children_t) = 16 *)
  '(w1, parent_id) ← tecs_register_component w "tecs_parent_t" 8;
  '(w2, children_id) ← tecs_register_component w1 "tecs_children_t" 16;
  Done (set_w_hierarchy_ids w2 parent_id children_id).

Definition tecs_world_update (w : tecs_world_t) : tecs_world_t :=
  set_w_tick w (wrap32 (w_tick w + 1)).

Definition tecs_world_tick (w : tecs_world_t) : Z := w_tick w.

Definition tecs_world_entity_count (w : tecs_world_t) : Z :=
  dense_count (w_entities w).

(** The loop over the table of [tecs_world_clear]: every archetype but
    the root is freed and its slot zeroed. *)
Definition clear_slot (root : Z)
    (st : gmap Z tecs_archetype_t * gmap Z tecs_archetype_table_entry_t)
    (i : Z) : gmap Z tecs_archetype_t * gmap Z tecs_archetype_table_entry_t :=
  let '(heap, table) := st in
  match te_archetype (table_entry table i) with
  | Some arch =>
      if bool_decide (arch ≠ root)
      then (delete arch heap,
            <[i := {| te_hash := 0; te_archetype := None |}]> table)
      else st
  | None => st
  end.

Definition tecs_world_clear (w : tecs_world_t) : outcome tecs_world_t :=
  (* Clear all entities and reset to root archetype *)
  let es := w_entities w in
  let es' :=
    {| sparse := sparse es; sparse_capacity := sparse_capacity es;
       dense := dense es; dense_count := 0;
       recycled := [];
       generations := generations es;
       generation_capacity := generation_capacity es |} in
  let w1 := set_w_version (set_w_tick (set_w_entities w es') 0)
              (wrap64 (w_structural_change_version w + 1)) in
  (* Clear all archetypes except root *)
  let '(heap, table) :=
    foldl (clear_slot (w_root_archetype w)) (w_heap w, w_archetype_table w)
      (seqZ 0 (w_archetype_table_capacity w)) in
  let w2 := set_w_table (set_w_heap w1 heap) table 1
              (w_archetype_table_capacity w) in
  (* Clear root archetype chunks *)
  root ← get_arch w2 (w_root_archetype w2);
  Done (put_arch w2 (w_root_archetype w2)
          (set_arch_chunks root
             ((λ c, {| chunk_entities := chunk_entities c;
                       chunk_columns := chunk_columns c;
                       chunk_count := 0 |}) <$> arch_chunks root)
             0)).

(** ** Entity operations *)

Definition tecs_entity_new (w : tecs_world_t)
    : outcome (tecs_world_t * tecs_entity_t) :=
  let '(es, entity) := tecs_sparse_set_create (w_entities w) in
  let w1 := set_w_entities w es in
  let record := tecs_sparse_set_get (w_entities w1) entity in
  (* Add to root archetype *)
  w2 ← tecs_archetype_add_entity w1 (w_root_archetype w1) entity record
          (w_tick w1);
  Done (w2, entity).

Definition tecs_entity_new_with_id (w : tecs_world_t) (id : tecs_entity_t)
    : outcome (tecs_world_t * tecs_entity_t) :=
  tecs_entity_new w.

Definition tecs_entity_delete (w : tecs_world_t) (entity : tecs_entity_t)
    : outcome tecs_world_t :=
  match tecs_sparse_set_get (w_entities w) entity with
  | None => Done w
  | Some record =>
      r ← get_record w record;
      match rec_archetype r with
      | None => Done w
      | Some arch =>
          (* Remove from archetype *)
          w1 ← tecs_archetype_remove_entity w arch (rec_chunk_index r)
                  (Z.rem (rec_row r) TECS_CHUNK_SIZE);
          (* Remove from sparse set *)
          es ← tecs_sparse_set_remove (w_entities w1) entity;
          Done (set_w_entities w1 es)
      end
  end.

Definition tecs_entity_exists (w : tecs_world_t) (entity : tecs_entity_t)
    : bool :=
  bool_decide (tecs_sparse_set_get (w_entities w) entity ≠ None).

(** ** Component operations *)

Definition tecs_world_get_or_create_archetype_with_component
    (w : tecs_world_t) (current : Z) (component_id size : Z)
    : outcome (tecs_world_t * Z) :=
  A ← get_arch w current;
  (* Check graph edge cache *)
  match tecs_archetype_find_edge A component_id true with
  | Some target => Done (w, target)
  | None =>
      (* Build new component set *)
      let new_components :=
        arch_components A ++
          [{| ci_id := component_id; ci_size := size; ci_column_index := -1 |}] in
      (* Compute hash *)
      let hash := tecs_hash_component_set (ci_id <$> new_components) in
      (* Check if archetype exists *)
      '(w1, target) ←
        match tecs_world_find_archetype w hash with
        | Some target => Done (w, target)
        | None =>
            B ← tecs_archetype_new new_components;
            let addr := w_next_addr w in
            w' ← tecs_world_add_archetype
                    (set_w_next_addr (put_arch w addr B) (addr + 1)) addr;
            Done (w', addr)
        end;
      (* Add graph edge *)
      w2 ← tecs_archetype_add_edge w1 current component_id target true;
      w3 ← tecs_archetype_add_edge w2 target component_id current false;
      Done (w3, target)
  end.

Definition tecs_world_get_or_create_archetype_without_component
    (w : tecs_world_t) (current : Z) (component_id : Z)
    : outcome (tecs_world_t * Z) :=
  A ← get_arch w current;
  (* Check graph edge cache *)
  match tecs_archetype_find_edge A component_id false with
  | Some target => Done (w, target)
  | None =>
      (* Build new component set (remove component) *)
      let new_count := Z.of_nat (length (arch_components A)) - 1 in
      if bool_decide (new_count < 0) then Done (w, current) else
      let new_components :=
        filter (λ c, ci_id c ≠ component_id) (arch_components A) in
      if bool_decide (Z.of_nat (length new_components) ≠ new_count)
      then Done (w, current)  (* Component not found *)
      else
        (* Compute hash *)
        let hash :=
          if bool_decide (new_count > 0)
          then tecs_hash_component_set (ci_id <$> new_components) else 0 in
        (* Check if archetype exists (or return root if empty) *)
        '(w1, target) ←
          match (if bool_decide (new_count = 0) then Some (w_root_archetype w)
                 else tecs_world_find_archetype w hash) with
          | Some target => Done (w, target)
          | None =>
              B ← tecs_archetype_new new_components;
              let addr := w_next_addr w in
              w' ← tecs_world_add_archetype
                      (set_w_next_addr (put_arch w addr B) (addr + 1)) addr;
              Done (w', addr)
          end;
        (* Add graph edge *)
        w2 ← tecs_archetype_add_edge w1 current component_id target false;
        w3 ← tecs_archetype_add_edge w2 target component_id current true;
        Done (w3, target)
  end.

(** [arch->chunks[chunk_idx]] and [chunk->columns[column_idx]]. *)
Definition get_chunk (w : tecs_world_t) (arch chunk_idx : Z)
    : outcome tecs_chunk_t :=
  A ← get_arch w arch;
  if bool_decide (chunk_idx < 0) then Fault
  else deref (arch_chunks A !! Z.to_nat chunk_idx).

Definition get_column (chunk : tecs_chunk_t) (column_idx : Z)
    : outcome tecs_column_t :=
  if bool_decide (column_idx < 0) then Fault
  else deref (chunk_columns chunk !! Z.to_nat column_idx).

(** Storing a column back into the chunk it was read from. *)
Definition put_column (w : tecs_world_t) (arch chunk_idx column_idx : Z)
    (col : tecs_column_t) : outcome tecs_world_t :=
  A ← get_arch w arch;
  chunk ← get_chunk w arch chunk_idx;
  let chunk' :=
    {| chunk_entities := chunk_entities chunk;
       chunk_columns := <[Z.to_nat column_idx := col]> (chunk_columns chunk);
       chunk_count := chunk_count chunk |} in
  Done (put_arch w arch
          (set_arch_chunks A (<[Z.to_nat chunk_idx := chunk']> (arch_chunks A))
             (arch_entity_count A))).

(** A chunk is named by its archetype and its index in [chunks]. *)
Definition tecs_copy_component_data (w : tecs_world_t)
    (src_arch src_chunk src_row dst_arch dst_chunk dst_row : Z)
    : outcome tecs_world_t :=
  src_A ← get_arch w src_arch;
  (* Copy matching components from source to destination *)
  for_each (indexed (arch_data_components src_A))
    (λ w '(i, src_info),
       dst_A ← get_arch w dst_arch;
       let dst_column_idx :=
         tecs_component_map_get (arch_data_component_map dst_A) (ci_id src_info) in
       if bool_decide (dst_column_idx < 0) then Done w  (* not in destination *)
       else
         let src_size := ci_size src_info in
         dst_info ← deref (arch_data_components dst_A !! Z.to_nat dst_column_idx);
         (* assert(src_size == dst_size) *)
         if bool_decide (src_size ≠ ci_size dst_info) then Fault else
         sc ← get_chunk w src_arch src_chunk;
         src_column ← get_column sc i;
         dc ← get_chunk w dst_arch dst_chunk;
         dst_column ← get_column dc dst_column_idx;
         col1 ← tecs_native_copy_data src_column src_row dst_column dst_row src_size;
         (* Copy ticks *)
         if negb (row_ok src_row && row_ok dst_row) then Fault else
         put_column w dst_arch dst_chunk dst_column_idx
           (set_col_ticks col1
              (<[dst_row := mem_read (col_changed_ticks src_column) src_row]>
                 (col_changed_ticks col1))
              (<[dst_row := mem_read (col_added_ticks src_column) src_row]>
                 (col_added_ticks col1))))
    w.

Definition tecs_set (w : tecs_world_t) (entity : tecs_entity_t)
    (component_id : Z) (data : list Z) (size : Z) : outcome tecs_world_t :=
  match tecs_sparse_set_get (w_entities w) entity with
  | None => Done w
  | Some record =>
      r ← get_record w record;
      current_arch ← deref (rec_archetype r);
      A ← get_arch w current_arch;
      (* Check if component already exists *)
      let comp_idx := tecs_archetype_find_component A component_id in
      if bool_decide (comp_idx >= 0) then
        (* Update existing component *)
        let column_idx :=
          tecs_component_map_get (arch_data_component_map A) component_id in
        if bool_decide (column_idx < 0) then Done w  (* Tag component *)
        else
          let chunk_idx := rec_chunk_index r in
          let row := Z.rem (rec_row r) TECS_CHUNK_SIZE in
          chunk ← get_chunk w current_arch chunk_idx;
          column ← get_column chunk column_idx;
          column1 ← tecs_native_set_data column row data size;
          if negb (row_ok row) then Fault else
          put_column w current_arch chunk_idx column_idx
            (set_col_ticks column1
               (<[row := w_tick w]> (col_changed_ticks column1))
               (col_added_ticks column1))
      else
        (* Need to add component (archetype transition) *)
        '(w1, new_arch) ←
          tecs_world_get_or_create_archetype_with_component
            w current_arch component_id size;
        if bool_decide (new_arch = current_arch) then Done w1 else
        (* Get old chunk location *)
        let old_chunk_idx := rec_chunk_index r in
        let old_row := Z.rem (rec_row r) TECS_CHUNK_SIZE in
        old_chunk ← get_chunk w1 current_arch old_chunk_idx;
        if negb (row_ok old_row) then Fault else
        let entity_id := mem_read (chunk_entities old_chunk) old_row in
        (* Add to new archetype *)
        w2 ← tecs_archetype_add_entity w1 new_arch entity_id (Some record)
                (w_tick w1);
        (* Copy existing component data *)
        r2 ← get_record w2 record;
        let new_chunk_idx := rec_chunk_index r2 in
        let new_row := Z.rem (rec_row r2) TECS_CHUNK_SIZE in
        w3 ← tecs_copy_component_data w2 current_arch old_chunk_idx old_row
                new_arch new_chunk_idx new_row;
        (* Set new component data *)
        B ← get_arch w3 new_arch;
        let new_column_idx :=
          tecs_component_map_get (arch_data_component_map B) component_id in
        w4 ←
          (if bool_decide (new_column_idx >= 0) then
             new_chunk ← get_chunk w3 new_arch new_chunk_idx;
             new_column ← get_column new_chunk new_column_idx;
             column1 ← tecs_native_set_data new_column new_row data size;
             if negb (row_ok new_row) then Fault else
             put_column w3 new_arch new_chunk_idx new_column_idx
               (set_col_ticks column1
                  (<[new_row := w_tick w3]> (col_changed_ticks column1))
                  (<[new_row := w_tick w3]> (col_added_ticks column1)))
           else Done w3);
        (* Remove from old archetype *)
        tecs_archetype_remove_entity w4 current_arch old_chunk_idx old_row
  end.

(** The [void*] returned by [tecs_get]: a byte offset into the storage
    block of one column of one chunk. *)
Record tecs_ptr := mk_ptr {
  ptr_arch : Z;
  ptr_chunk : Z;
  ptr_column : Z;
  ptr_offset : Z
}.

Definition tecs_get (w : tecs_world_t) (entity : tecs_entity_t)
    (component_id : Z) : outcome (option tecs_ptr) :=
  match tecs_sparse_set_get (w_entities w) entity with
  | None => Done None
  | Some record =>
      r ← get_record w record;
      match rec_archetype r with
      | None => Done None
      | Some arch =>
          A ← get_arch w arch;
          let column_idx :=
            tecs_component_map_get (arch_data_component_map A) component_id in
          if bool_decide (column_idx < 0) then Done None
          else
            let chunk_idx := rec_chunk_index r in
            let row := Z.rem (rec_row r) TECS_CHUNK_SIZE in
            chunk ← get_chunk w arch chunk_idx;
            column ← get_column chunk column_idx;
            info ← deref (arch_data_components A !! Z.to_nat column_idx);
            Done (Some {| ptr_arch := arch; ptr_chunk := chunk_idx;
                          ptr_column := column_idx;
                          ptr_offset :=
                            tecs_native_get_ptr row (ci_size info) |})
      end
  end.

(** Reading [n] bytes through a pointer obtained from [tecs_get]. *)
Definition tecs_load (w : tecs_world_t) (p : tecs_ptr) (n : Z)
    : outcome (list Z) :=
  chunk ← get_chunk w (ptr_arch p) (ptr_chunk p);
  column ← get_column chunk (ptr_column p);
  if in_block column (ptr_offset p) n
  then Done (mem_load (col_storage column) (ptr_offset p) n)
  else Fault.

Definition tecs_has (w : tecs_world_t) (entity : tecs_entity_t)
    (component_id : Z) : outcome bool :=
  match tecs_sparse_set_get (w_entities w) entity with
  | None => Done false
  | Some record =>
      r ← get_record w record;
      match rec_archetype r with
      | None => Done false
      | Some arch =>
          A ← get_arch w arch;
          Done (tecs_archetype_has_component A component_id)
      end
  end.

Definition tecs_unset (w : tecs_world_t) (entity : tecs_entity_t)
    (component_id : Z) : outcome tecs_world_t :=
  match tecs_sparse_set_get (w_entities w) entity with
  | None => Done w
  | Some record =>
      r ← get_record w record;
      match rec_archetype r with
      | None => Done w
      | Some current_arch =>
          A ← get_arch w current_arch;
          if negb (tecs_archetype_has_component A component_id) then Done w else
          (* Get new archetype without component *)
          '(w1, new_arch) ←
            tecs_world_get_or_create_archetype_without_component
              w current_arch component_id;
          if bool_decide (new_arch = current_arch) then Done w1 else
          (* Get old chunk location *)
          let old_chunk_idx := rec_chunk_index r in
          let old_row := Z.rem (rec_row r) TECS_CHUNK_SIZE in
          old_chunk ← get_chunk w1 current_arch old_chunk_idx;
          if negb (row_ok old_row) then Fault else
          let entity_id := mem_read (chunk_entities old_chunk) old_row in
          (* Add to new archetype *)
          w2 ← tecs_archetype_add_entity w1 new_arch entity_id (Some record)
                  (w_tick w1);
          (* Copy remaining component data *)
          r2 ← get_record w2 record;
          let new_chunk_idx := rec_chunk_index r2 in
          let new_row := Z.rem (rec_row r2) TECS_CHUNK_SIZE in
          w3 ← tecs_copy_component_data w2 current_arch old_chunk_idx old_row
                  new_arch new_chunk_idx new_row;
          (* Remove from old archetype *)
          tecs_archetype_remove_entity w3 current_arch old_chunk_idx old_row
      end
  end.

Definition tecs_add_tag (w : tecs_world_t) (entity : tecs_entity_t)
    (tag_id : Z) : outcome tecs_world_t :=
  (* Tags are zero-sized components *)
  tecs_set w entity tag_id [] 0.

Definition tecs_mark_changed (w : tecs_world_t) (entity : tecs_entity_t)
    (component_id : Z) : outcome tecs_world_t :=
  match tecs_sparse_set_get (w_entities w) entity with
  | None => Done w
  | Some record =>
      r ← get_record w record;
      match rec_archetype r with
      | None => Done w
      | Some arch =>
          A ← get_arch w arch;
          let column_idx :=
            tecs_component_map_get (arch_data_component_map A) component_id in
          if bool_decide (column_idx < 0) then Done w
          else
            let chunk_idx := rec_chunk_index r in
            let row := Z.rem (rec_row r) TECS_CHUNK_SIZE in
            chunk ← get_chunk w arch chunk_idx;
            column ← get_column chunk column_idx;
            if negb (row_ok row) then Fault else
            put_column w arch chunk_idx column_idx
              (set_col_ticks column
                 (<[row := w_tick w]> (col_changed_ticks column))
                 (col_added_ticks column))
      end
  end.

(** ** Query operations *)

Inductive tecs_term_type_t :=
  | TECS_TERM_WITH      (* Component must be present *)
  | TECS_TERM_WITHOUT   (* Component must not be present *)
  | TECS_TERM_OPTIONAL  (* Component may or may not be present *)
  | TECS_TERM_CHANGED   (* Component must be present and changed *)
  | TECS_TERM_ADDED.    (* Component must be present and just added *)

Record tecs_query_term_t := mk_term {
  term_type : tecs_term_type_t;
  term_component_id : Z;
  term_data_index : Z
}.

(** [struct tecs_query_s]; the world pointer is passed along with the
    query, and the cached iterator is an iterator like any other. *)
Record tecs_query_t := mk_query {
  q_terms : list tecs_query_term_t;
  q_matched_archetypes : list Z;
  q_last_structural_version : Z;
  q_built : bool
}.

Definition tecs_query_new : tecs_query_t :=
  {| q_terms := []; q_matched_archetypes := [];
     q_last_structural_version := 0; q_built := false |}.

Definition tecs_query_add_term (query : tecs_query_t) (type : tecs_term_type_t)
    (component_id : Z) : tecs_query_t :=
  if bool_decide (Z.of_nat (length (q_terms query)) >= TECS_MAX_QUERY_TERMS)
  then query
  else
    {| q_terms := q_terms query ++
         [{| term_type := type; term_component_id := component_id;
             term_data_index := -1 |}];
       q_matched_archetypes := q_matched_archetypes query;
       q_last_structural_version := q_last_structural_version query;
       q_built := q_built query |}.

Definition tecs_query_with q c := tecs_query_add_term q TECS_TERM_WITH c.
Definition tecs_query_without q c := tecs_query_add_term q TECS_TERM_WITHOUT c.
Definition tecs_query_optional q c := tecs_query_add_term q TECS_TERM_OPTIONAL c.
Definition tecs_query_changed q c := tecs_query_add_term q TECS_TERM_CHANGED c.
Definition tecs_query_added q c := tecs_query_add_term q TECS_TERM_ADDED c.

Definition tecs_archetype_matches_query (A : tecs_archetype_t)
    (query : tecs_query_t) : bool :=
  forallb
    (λ term,
       let has := tecs_archetype_has_component A (term_component_id term) in
       match term_type term with
       | TECS_TERM_WITH | TECS_TERM_CHANGED | TECS_TERM_ADDED => has
       | TECS_TERM_WITHOUT => negb has
       | TECS_TERM_OPTIONAL => true  (* Always matches *)
       end)
    (q_terms query).

Definition tecs_query_build (w : tecs_world_t) (query : tecs_query_t)
    : outcome tecs_query_t :=
  (* Match against all archetypes - iterate through hash table capacity *)
  matched ←
    for_each (seqZ 0 (w_archetype_table_capacity w))
      (λ matched i,
         match te_archetype (table_entry (w_archetype_table w) i) with
         | Some arch =>
             A ← get_arch w arch;
             Done (if tecs_archetype_matches_query A query
                   then matched ++ [arch] else matched)
         | None => Done matched
         end)
      [];
  Done {| q_terms := q_terms query;
          q_matched_archetypes := matched;
          q_last_structural_version := w_structural_change_version w;
          q_built := true |}.

(** ** Query iteration *)

(** [struct tecs_query_iter_s]; the current chunk is named by its
    archetype and index. *)
Record tecs_query_iter_t := mk_iter {
  it_archetype_index : Z;
  it_chunk_index : Z;
  it_current_chunk : option (Z * Z);
  it_current_archetype : option Z
}.

Definition tecs_query_iter_init (w : tecs_world_t) (query : tecs_query_t)
    : outcome (tecs_query_t * tecs_query_iter_t) :=
  (* Rebuild if world structure changed *)
  query' ←
    (if negb (q_built query)
        || bool_decide (q_last_structural_version query
                          ≠ w_structural_change_version w)
     then tecs_query_build w query else Done query);
  Done (query',
        {| it_archetype_index := 0; it_chunk_index := -1;
           it_current_chunk := None; it_current_archetype := None |}).

(** The while loop of [tecs_iter_next]. *)
Fixpoint iter_next_loop (fuel : nat) (w : tecs_world_t) (query : tecs_query_t)
    (iter : tecs_query_iter_t) : outcome (tecs_query_iter_t * bool) :=
  match fuel with
  | O => Hang
  | S fuel' =>
      if bool_decide (it_archetype_index iter
                        < Z.of_nat (length (q_matched_archetypes query)))
      then
        arch ← deref (q_matched_archetypes query
                        !! Z.to_nat (it_archetype_index iter));
        A ← get_arch w arch;
        if bool_decide (it_chunk_index iter < Z.of_nat (length (arch_chunks A)))
        then
          chunk ← get_chunk w arch (it_chunk_index iter);
          let iter1 :=
            {| it_archetype_index := it_archetype_index iter;
               it_chunk_index := it_chunk_index iter;
               it_current_chunk := Some (arch, it_chunk_index iter);
               it_current_archetype := Some arch |} in
          if bool_decide (chunk_count chunk > 0) then Done (iter1, true)
          else iter_next_loop fuel' w query
                 {| it_archetype_index := it_archetype_index iter1;
                    it_chunk_index := it_chunk_index iter1 + 1;
                    it_current_chunk := it_current_chunk iter1;
                    it_current_archetype := it_current_archetype iter1 |}
        else
          (* Move to next archetype *)
          iter_next_loop fuel' w query
            {| it_archetype_index := it_archetype_index iter + 1;
               it_chunk_index := 0;
               it_current_chunk := it_current_chunk iter;
               it_current_archetype := Some arch |}
      else Done (iter, false)
  end.

(** Every turn of the loop moves to another chunk or another archetype,
    so the chunks and archetypes of the world bound the turns. *)
Definition iter_fuel (w : tecs_world_t) (query : tecs_query_t) : nat :=
  S (length (q_matched_archetypes query)
     + foldr (λ arch n,
                match w_heap w !! arch with
                | Some A => (length (arch_chunks A) + n)%nat
                | None => n
                end) O (q_matched_archetypes query)).

Definition tecs_iter_next (w : tecs_world_t) (query : tecs_query_t)
    (iter : tecs_query_iter_t) : outcome (tecs_query_iter_t * bool) :=
  (* Advance to next chunk *)
  iter_next_loop (iter_fuel w query) w query
    {| it_archetype_index := it_archetype_index iter;
       it_chunk_index := it_chunk_index iter + 1;
       it_current_chunk := it_current_chunk iter;
       it_current_archetype := it_current_archetype iter |}.

Definition tecs_iter_count (w : tecs_world_t) (iter : tecs_query_iter_t)
    : outcome Z :=
  match it_current_chunk iter with
  | Some (arch, chunk_idx) =>
      chunk ← get_chunk w arch chunk_idx; Done (chunk_count chunk)
  | None => Done 0
  end.

(** The client loop of the tests and examples:
    [while (tecs_iter_next(iter)) count += tecs_iter_count(iter);] *)
Fixpoint count_rows_loop (fuel : nat) (w : tecs_world_t) (query : tecs_query_t)
    (iter : tecs_query_iter_t) (count : Z) : outcome Z :=
  match fuel with
  | O => Hang
  | S fuel' =>
      '(iter', more) ← tecs_iter_next w query iter;
      if more : bool then
        n ← tecs_iter_count w iter';
        count_rows_loop fuel' w query iter' (count + n)
      else Done count
  end.

Definition count_rows (w : tecs_world_t) (query : tecs_query_t) : outcome Z :=
  '(query', iter) ← tecs_query_iter_init w query;
  count_rows_loop (iter_fuel w query') w query' iter 0.

(** ** Hierarchy operations *)

Definition PARENT_ID (w : tecs_world_t) : Z := w_parent_component_id w.
Definition CHILDREN_ID (w : tecs_world_t) : Z := w_children_component_id w.

(** The bytes of a [tecs_parent_t] (one 64-bit handle) and of a
    [tecs_children_t] (array pointer, count, capacity). *)
Definition parent_bytes (parent : tecs_entity_t) : list Z := le_bytes 8 parent.

Definition children_bytes (c : tecs_children_t) : list Z :=
  le_bytes 8 (ch_addr c) ++ le_bytes 4 (ch_count c) ++ le_bytes 4 (ch_capacity c).

(** Internal: Find children list for an entity in the hashmap *)
Definition tecs_find_children (w : tecs_world_t) (entity : tecs_entity_t)
    : option tecs_children_t :=
  match list_find (λ kv, kv.1 = entity) (w_entity_children w) with
  | Some (_, (_, c)) => Some c
  | None => None
  end.

(** Writing through the [tecs_children_t*] found for [entity]. *)
Definition store_children (w : tecs_world_t) (entity : tecs_entity_t)
    (c : tecs_children_t) : tecs_world_t :=
  match list_find (λ kv, kv.1 = entity) (w_entity_children w) with
  | Some (i, _) =>
      set_w_entity_children w (<[i := (entity, c)]> (w_entity_children w))
  | None => w
  end.

(** Internal: Get or create children list for an entity.  The list
    structure and its array take two fresh addresses. *)
Definition tecs_ensure_children (w : tecs_world_t) (entity : tecs_entity_t)
    : tecs_world_t * tecs_children_t :=
  match tecs_find_children w entity with
  | Some c => (w, c)
  | None =>
      let c := {| ch_addr := w_next_addr w + 1; ch_entities := ∅;
                  ch_count := 0; ch_capacity := 4 |} in
      (set_w_next_addr
         (set_w_entity_children w (w_entity_children w ++ [(entity, c)]))
         (w_next_addr w + 2),
       c)
  end.

(** Internal: Remove children list from hashmap *)
Definition tecs_remove_children_entry (w : tecs_world_t)
    (entity : tecs_entity_t) : tecs_world_t :=
  match list_find (λ kv, kv.1 = entity) (w_entity_children w) with
  | Some (i, _) =>
      (* Swap with last element *)
      let kvs := w_entity_children w in
      let last := (length kvs - 1)%nat in
      let kvs1 :=
        if bool_decide (i ≠ last)
        then match kvs !! last with
             | Some kv => <[i := kv]> kvs
             | None => kvs
             end
        else kvs in
      set_w_entity_children w (take last kvs1)
  | None => w
  end.

(** The position of [child] in the array of [c], if any. *)
Definition child_position (c : tecs_children_t) (child : tecs_entity_t)
    : option Z :=
  match list_find (λ i, mem_read (ch_entities c) i = child)
          (seqZ 0 (ch_count c)) with
  | Some (_, i) => Some i
  | None => None
  end.

(** [entities[i] = entities[--count]] *)
Definition children_swap_remove (c : tecs_children_t) (i : Z)
    : tecs_children_t :=
  let count := ch_count c - 1 in
  {| ch_addr := ch_addr c;
     ch_entities := <[i := mem_read (ch_entities c) count]> (ch_entities c);
     ch_count := count;
     ch_capacity := ch_capacity c |}.

(** The upward walk of [tecs_is_ancestor_of]; [fuel] is what is left of
    [max_depth]. *)
Fixpoint ancestor_walk (fuel : nat) (w : tecs_world_t)
    (ancestor current : tecs_entity_t) : outcome bool :=
  match fuel with
  | O => Done false
  | S fuel' =>
      if bool_decide (current = 0) then Done false else
      parent ← tecs_get w current (PARENT_ID w);
      match parent with
      | None => Done false
      | Some p =>
          bytes ← tecs_load w p 8;
          let current' := le_value bytes in
          if bool_decide (current' = ancestor) then Done true
          else ancestor_walk fuel' w ancestor current'
      end
  end.

Definition max_depth : nat := 256.

Definition tecs_is_ancestor_of (w : tecs_world_t)
    (ancestor descendant : tecs_entity_t) : outcome bool :=
  if negb (tecs_entity_exists w ancestor) || negb (tecs_entity_exists w descendant)
  then Done false
  else ancestor_walk max_depth w ancestor descendant.

Definition tecs_is_descendant_of (w : tecs_world_t)
    (descendant ancestor : tecs_entity_t) : outcome bool :=
  tecs_is_ancestor_of w ancestor descendant.

(** The value behind the pointer returned by [tecs_get(.., PARENT_ID)]. *)
Definition read_parent (w : tecs_world_t) (entity : tecs_entity_t)
    : outcome (option tecs_entity_t) :=
  parent ← tecs_get w entity (PARENT_ID w);
  match parent with
  | None => Done None
  | Some p => bytes ← tecs_load w p 8; Done (Some (le_value bytes))
  end.

Definition tecs_get_parent (w : tecs_world_t) (child : tecs_entity_t)
    : outcome tecs_entity_t :=
  if negb (tecs_entity_exists w child) then Done TECS_ENTITY_NULL
  else parent ← read_parent w child; Done (default 0 parent).

Definition tecs_has_parent (w : tecs_world_t) (child : tecs_entity_t)
    : outcome bool :=
  tecs_has w child (PARENT_ID w).

Definition tecs_get_children (w : tecs_world_t) (parent : tecs_entity_t)
    : option tecs_children_t :=
  if negb (tecs_entity_exists w parent) then None
  else tecs_find_children w parent.

Definition tecs_child_count (w : tecs_world_t) (parent : tecs_entity_t) : Z :=
  match tecs_get_children w parent with
  | Some c => ch_count c
  | None => 0
  end.

(** The block shared by [tecs_add_child] and [tecs_remove_child]: take
    [child] out of the list of [parent], then mirror the list into the
    Children component, or drop list and component when it is empty. *)
Definition detach_from_list (w : tecs_world_t) (parent child : tecs_entity_t)
    : outcome tecs_world_t :=
  match tecs_find_children w parent with
  | None => Done w
  | Some children =>
      match child_position children child with
      | None => Done w
      | Some i =>
          (* Swap with last element *)
          let children' := children_swap_remove children i in
          let w1 := store_children w parent children' in
          (* Mirror to ECS (or unset if empty) *)
          if bool_decide (ch_count children' > 0)
          then tecs_set w1 parent (CHILDREN_ID w1) (children_bytes children') 16
          else tecs_unset (tecs_remove_children_entry w1 parent) parent
                 (CHILDREN_ID w1)
      end
  end.

Definition tecs_add_child (w : tecs_world_t) (parent child : tecs_entity_t)
    : outcome tecs_world_t :=
  if negb (tecs_entity_exists w parent) || negb (tecs_entity_exists w child)
     || bool_decide (parent = child)
  then Done w else
  (* Check for cycles - child cannot be ancestor of parent *)
  cyc ← tecs_is_ancestor_of w child parent;
  if cyc : bool then Done w (* Would create cycle *) else
  (* Get current parent if exists *)
  current_parent ← read_parent w child;
  if bool_decide (current_parent = Some parent)
  then Done w (* Already parented to this entity *) else
  (* Remove from old parent if exists *)
  w1 ← match current_parent with
        | Some old_parent => detach_from_list w old_parent child
        | None => Done w
        end;
  (* Set new Parent component on child *)
  w2 ← tecs_set w1 child (PARENT_ID w1) (parent_bytes parent) 8;
  (* Add child to new parent's Children list *)
  let '(w3, children) := tecs_ensure_children w2 parent in
  (* Ensure capacity *)
  let capacity :=
    if bool_decide (ch_count children >= ch_capacity children)
    then ch_capacity children * 2 else ch_capacity children in
  (* Add child to array *)
  let children' :=
    {| ch_addr := ch_addr children;
       ch_entities := <[ch_count children := child]> (ch_entities children);
       ch_count := ch_count children + 1;
       ch_capacity := capacity |} in
  let w4 := store_children w3 parent children' in
  (* Mirror to ECS component (for queries) *)
  tecs_set w4 parent (CHILDREN_ID w4) (children_bytes children') 16.

Definition tecs_remove_child (w : tecs_world_t) (parent child : tecs_entity_t)
    : outcome tecs_world_t :=
  if negb (tecs_entity_exists w parent) || negb (tecs_entity_exists w child)
  then Done w else
  (* Verify child actually has this parent *)
  parent_comp ← read_parent w child;
  if bool_decide (parent_comp ≠ Some parent)
  then Done w (* Not a child of this parent *) else
  (* Remove Parent component from child *)
  w1 ← tecs_unset w child (PARENT_ID w);
  (* Remove child from parent's Children list *)
  detach_from_list w1 parent child.

Definition tecs_remove_all_children (w : tecs_world_t) (parent : tecs_entity_t)
    : outcome tecs_world_t :=
  if negb (tecs_entity_exists w parent) then Done w else
  match tecs_find_children w parent with
  | None => Done w
  | Some children =>
      if bool_decide (ch_count children = 0) then Done w else
      (* Remove Parent component from all children *)
      w1 ← for_each (seqZ 0 (ch_count children))
              (λ w i, tecs_unset w (mem_read (ch_entities children) i)
                        (PARENT_ID w))
              w;
      (* Free from hashmap and remove ECS component *)
      tecs_unset (tecs_remove_children_entry w1 parent) parent (CHILDREN_ID w1)
  end.

End Tecs.

Module Tbevy.
Import Tecs.

(** ** Enums and constants (tinyecs_bevy.h) *)

Definition TBEVY_MAX_STAGES : Z := 32.

Inductive tbevy_stage_id_t :=
  | TBEVY_STAGE_STARTUP      (* Runs once on first frame *)
  | TBEVY_STAGE_FIRST        (* First regular update stage *)
  | TBEVY_STAGE_PRE_UPDATE   (* Before main update *)
  | TBEVY_STAGE_UPDATE       (* Main gameplay logic *)
  | TBEVY_STAGE_POST_UPDATE  (* After main update *)
  | TBEVY_STAGE_LAST         (* Final stage *)
  | TBEVY_STAGE_CUSTOM.      (* Custom stage marker *)

#[global] Instance tbevy_stage_id_eq_dec : EqDecision tbevy_stage_id_t.
Proof. solve_decision. Defined.

Record tbevy_stage_t := mk_stage {
  stage_id : tbevy_stage_id_t;
  stage_name : string;
  stage_order : Z  (* Execution order (lower = earlier) *)
}.

(** [tbevy_event_channel_t]: the two buffers are byte blocks, grown by
    realloc, holding [count] elements each. *)
Record tbevy_event_channel_t := mk_channel {
  read_buffer : gmap Z Z;
  write_buffer : gmap Z Z;
  read_count : Z;
  read_capacity : Z;
  write_count : Z;
  write_capacity : Z;
  element_size : Z;
  epoch : Z;
  active_tick : Z
}.

(** What a system, a run condition or an event reader can reach through
    its context: the world and the event channels.  [tbevy_hashmap_t]
    is an open-addressing table that doubles at load 0.75; the tables
    modelled here ([event_channels], [stage_systems], [labeled_systems])
    never have a key removed, so each one is the finite map it
    implements.  Resources, observers and state machines take no part in
    what is proved below and are left out. *)
Record tbevy_data := mk_data {
  d_world : tecs_world_t;
  d_event_channels : gmap Z tbevy_event_channel_t
}.

(** [struct tbevy_system_s].  [sys_fn] is the effect on the app data of
    one run of the system function followed by the application of the
    commands it queued ([tbevy_commands_apply]); systems run to
    completion.  [before_systems] and [after_systems] hold the addresses
    of the systems the labels resolved to. *)
Record tbevy_system_t := mk_system {
  sys_fn : tbevy_data → tbevy_data;
  sys_label : string;
  sys_stage : option Z;
  before_systems : list Z;
  after_systems : list Z;
  run_conditions : list (tbevy_data → bool);
  declaration_order : Z;
  visited : bool;
  visiting : bool
}.

(** The calls the scheduler makes, in call order: a system function that
    was run, the buffer swap of [tbevy_app_clear_events] with the world
    tick at that moment, and the tick increment of [tecs_world_update]
    with the tick before and after. *)
Inductive tbevy_effect :=
  | SystemRan (system : Z)
  | EventsSwapped (tick : Z)
  | TickAdvanced (tick_before tick_after : Z).

#[global] Instance tbevy_effect_eq_dec : EqDecision tbevy_effect.
Proof. solve_decision. Defined.

(** [struct tbevy_app_s].  Stages and systems are heap objects named by
    their address; [app_trace] records the calls of the scheduler. *)
Record tbevy_app_t := mk_app {
  app_data : tbevy_data;
  app_stages : list Z;
  app_stage_objs : gmap Z tbevy_stage_t;
  app_stage_systems : gmap Z (list Z);
  app_default_stages : list Z;
  app_systems : gmap Z tbevy_system_t;
  app_all_systems : list Z;
  app_labeled_systems : gmap Z Z;
  app_startup_run : bool;
  app_system_declaration_counter : Z;
  app_next_addr : Z;
  app_trace : list tbevy_effect
}.

Definition set_app_data (app : tbevy_app_t) (d : tbevy_data) : tbevy_app_t :=
  {| app_data := d; app_stages := app_stages app;
     app_stage_objs := app_stage_objs app;
     app_stage_systems := app_stage_systems app;
     app_default_stages := app_default_stages app;
     app_systems := app_systems app; app_all_systems := app_all_systems app;
     app_labeled_systems := app_labeled_systems app;
     app_startup_run := app_startup_run app;
     app_system_declaration_counter := app_system_declaration_counter app;
     app_next_addr := app_next_addr app; app_trace := app_trace app |}.

Definition set_app_systems (app : tbevy_app_t)
    (systems : gmap Z tbevy_system_t) : tbevy_app_t :=
  {| app_data := app_data app; app_stages := app_stages app;
     app_stage_objs := app_stage_objs app;
     app_stage_systems := app_stage_systems app;
     app_default_stages := app_default_stages app;
     app_systems := systems; app_all_systems := app_all_systems app;
     app_labeled_systems := app_labeled_systems app;
     app_startup_run := app_startup_run app;
     app_system_declaration_counter := app_system_declaration_counter app;
     app_next_addr := app_next_addr app; app_trace := app_trace app |}.

Definition set_app_stage_systems (app : tbevy_app_t)
    (stage_systems : gmap Z (list Z)) : tbevy_app_t :=
  {| app_data := app_data app; app_stages := app_stages app;
     app_stage_objs := app_stage_objs app;
     app_stage_systems := stage_systems;
     app_default_stages := app_default_stages app;
     app_systems := app_systems app; app_all_systems := app_all_systems app;
     app_labeled_systems := app_labeled_systems app;
     app_startup_run := app_startup_run app;
     app_system_declaration_counter := app_system_declaration_counter app;
     app_next_addr := app_next_addr app; app_trace := app_trace app |}.

Definition set_app_trace (app : tbevy_app_t) (trace : list tbevy_effect)
    : tbevy_app_t :=
  {| app_data := app_data app; app_stages := app_stages app;
     app_stage_objs := app_stage_objs app;
     app_stage_systems := app_stage_systems app;
     app_default_stages := app_default_stages app;
     app_systems := app_systems app; app_all_systems := app_all_systems app;
     app_labeled_systems := app_labeled_systems app;
     app_startup_run := app_startup_run app;
     app_system_declaration_counter := app_system_declaration_counter app;
     app_next_addr := app_next_addr app; app_trace := trace |}.

Definition set_app_startup_run (app : tbevy_app_t) (b : bool) : tbevy_app_t :=
  {| app_data := app_data app; app_stages := app_stages app;
     app_stage_objs := app_stage_objs app;
     app_stage_systems := app_stage_systems app;
     app_default_stages := app_default_stages app;
     app_systems := app_systems app; app_all_systems := app_all_systems app;
     app_labeled_systems := app_labeled_systems app;
     app_startup_run := b;
     app_system_declaration_counter := app_system_declaration_counter app;
     app_next_addr := app_next_addr app; app_trace := app_trace app |}.

Definition set_d_world (d : tbevy_data) (w : tecs_world_t) : tbevy_data :=
  {| d_world := w; d_event_channels := d_event_channels d |}.

Definition set_d_event_channels (d : tbevy_data)
    (channels : gmap Z tbevy_event_channel_t) : tbevy_data :=
  {| d_world := d_world d; d_event_channels := channels |}.

(** ** Hashing of labels *)

Definition string_codes (str : string) : list Z :=
  (λ c, Z.of_N (Ascii.N_of_ascii c)) <$> String.list_ascii_of_string str.

Definition tbevy_hash_string (str : string) : Z :=
  foldl (λ hash c, wrap64 (Z.shiftl hash 5 + hash + c)) 5381 (string_codes str).

(** ** Stages *)

Definition tbevy_stage_alloc (id : tbevy_stage_id_t) (name : string)
    : tbevy_stage_t :=
  {| stage_id := id; stage_name := name; stage_order := 0 |}.

(** [stage] is the address of an allocated stage object. *)
Definition tbevy_app_add_stage (app : tbevy_app_t) (stage : Z)
    (obj : tbevy_stage_t) : tbevy_app_t :=
  {| app_data := app_data app;
     app_stages := app_stages app ++ [stage];
     app_stage_objs :=
       <[stage := {| stage_id := stage_id obj; stage_name := stage_name obj;
                     stage_order := Z.of_nat (length (app_stages app)) |}]>
         (app_stage_objs app);
     (* Initialize system list for this stage *)
     app_stage_systems := <[stage := []]> (app_stage_systems app);
     app_default_stages := app_default_stages app;
     app_systems := app_systems app; app_all_systems := app_all_systems app;
     app_labeled_systems := app_labeled_systems app;
     app_startup_run := app_startup_run app;
     app_system_declaration_counter := app_system_declaration_counter app;
     app_next_addr := app_next_addr app; app_trace := app_trace app |}.

Definition default_stage_descriptors : list (tbevy_stage_id_t * string) :=
  [ (TBEVY_STAGE_STARTUP, "Startup"); (TBEVY_STAGE_FIRST, "First");
    (TBEVY_STAGE_PRE_UPDATE, "PreUpdate"); (TBEVY_STAGE_UPDATE, "Update");
    (TBEVY_STAGE_POST_UPDATE, "PostUpdate"); (TBEVY_STAGE_LAST, "Last") ].

(** The six default stages get the addresses 1 to 6. *)
Definition tbevy_app_new : outcome tbevy_app_t :=
  world ← tecs_world_new;
  let app :=
    {| app_data := {| d_world := world; d_event_channels := ∅ |};
       app_stages := [];
       app_stage_objs := ∅;
       app_stage_systems := ∅;
       app_default_stages := seqZ 1 6;
       app_systems := ∅;
       app_all_systems := [];
       app_labeled_systems := ∅;
       app_startup_run := false;
       app_system_declaration_counter := 0;
       app_next_addr := 7;
       app_trace := [] |} in
  (* Add and cache default stages *)
  Done (foldl (λ app '(addr, (id, name)),
                 tbevy_app_add_stage app addr (tbevy_stage_alloc id name))
          app (zip (seqZ 1 6) default_stage_descriptors)).

Definition stage_index (id : tbevy_stage_id_t) : nat :=
  match id with
  | TBEVY_STAGE_STARTUP => 0 | TBEVY_STAGE_FIRST => 1
  | TBEVY_STAGE_PRE_UPDATE => 2 | TBEVY_STAGE_UPDATE => 3
  | TBEVY_STAGE_POST_UPDATE => 4 | TBEVY_STAGE_LAST => 5
  | TBEVY_STAGE_CUSTOM => 6
  end.

(** Return cached stage from current app *)
Definition tbevy_stage_default (app : tbevy_app_t) (id : tbevy_stage_id_t)
    : option Z :=
  app_default_stages app !! stage_index id.

(** ** Systems *)

Definition set_sys_flags (sys : tbevy_system_t) (visited' visiting' : bool)
    : tbevy_system_t :=
  {| sys_fn := sys_fn sys; sys_label := sys_label sys;
     sys_stage := sys_stage sys;
     before_systems := before_systems sys;
     after_systems := after_systems sys;
     run_conditions := run_conditions sys;
     declaration_order := declaration_order sys;
     visited := visited'; visiting := visiting' |}.

(** The builder returned by [tbevy_app_add_system] is the address of
    the new system. *)
Definition tbevy_app_add_system (app : tbevy_app_t)
    (fn : tbevy_data → tbevy_data) : tbevy_app_t * Z :=
  let system := app_next_addr app in
  let sys :=
    {| sys_fn := fn; sys_label := ""; sys_stage := None;
       before_systems := []; after_systems := []; run_conditions := [];
       declaration_order := app_system_declaration_counter app;
       visited := false; visiting := false |} in
  ({| app_data := app_data app; app_stages := app_stages app;
      app_stage_objs := app_stage_objs app;
      app_stage_systems := app_stage_systems app;
      app_default_stages := app_default_stages app;
      app_systems := <[system := sys]> (app_systems app);
      app_all_systems := app_all_systems app ++ [system];
      app_labeled_systems := app_labeled_systems app;
      app_startup_run := app_startup_run app;
      app_system_declaration_counter := app_system_declaration_counter app + 1;
      app_next_addr := system + 1; app_trace := app_trace app |},
   system).

(** Writing a field of the system behind a builder. *)
Definition update_system (app : tbevy_app_t) (builder : Z)
    (f : tbevy_system_t → tbevy_system_t) : outcome tbevy_app_t :=
  sys ← deref (app_systems app !! builder);
  Done (set_app_systems app (<[builder := f sys]> (app_systems app))).

Definition tbevy_system_in_stage (app : tbevy_app_t) (builder : Z) (stage : Z)
    : outcome tbevy_app_t :=
  update_system app builder
    (λ sys, {| sys_fn := sys_fn sys; sys_label := sys_label sys;
               sys_stage := Some stage;
               before_systems := before_systems sys;
               after_systems := after_systems sys;
               run_conditions := run_conditions sys;
               declaration_order := declaration_order sys;
               visited := visited sys; visiting := visiting sys |}).

Definition tbevy_system_label (app : tbevy_app_t) (builder : Z) (label : string)
    : outcome tbevy_app_t :=
  app1 ← update_system app builder
    (λ sys, {| sys_fn := sys_fn sys; sys_label := label;
               sys_stage := sys_stage sys;
               before_systems := before_systems sys;
               after_systems := after_systems sys;
               run_conditions := run_conditions sys;
               declaration_order := declaration_order sys;
               visited := visited sys; visiting := visiting sys |});
  let label_hash := tbevy_hash_string label in
  Done {| app_data := app_data app1; app_stages := app_stages app1;
          app_stage_objs := app_stage_objs app1;
          app_stage_systems := app_stage_systems app1;
          app_default_stages := app_default_stages app1;
          app_systems := app_systems app1;
          app_all_systems := app_all_systems app1;
          app_labeled_systems :=
            <[label_hash := builder]> (app_labeled_systems app1);
          app_startup_run := app_startup_run app1;
          app_system_declaration_counter := app_system_declaration_counter app1;
          app_next_addr := app_next_addr app1; app_trace := app_trace app1 |}.

Definition tbevy_system_after (app : tbevy_app_t) (builder : Z) (label : string)
    : outcome tbevy_app_t :=
  let label_hash := tbevy_hash_string label in
  match app_labeled_systems app !! label_hash with
  | Some after_sys =>
      update_system app builder
        (λ sys, {| sys_fn := sys_fn sys; sys_label := sys_label sys;
                   sys_stage := sys_stage sys;
                   before_systems := before_systems sys;
                   after_systems := after_systems sys ++ [after_sys];
                   run_conditions := run_conditions sys;
                   declaration_order := declaration_order sys;
                   visited := visited sys; visiting := visiting sys |})
  | None => Done app
  end.

Definition tbevy_system_before (app : tbevy_app_t) (builder : Z) (label : string)
    : outcome tbevy_app_t :=
  let label_hash := tbevy_hash_string label in
  match app_labeled_systems app !! label_hash with
  | Some before_sys =>
      update_system app builder
        (λ sys, {| sys_fn := sys_fn sys; sys_label := sys_label sys;
                   sys_stage := sys_stage sys;
                   before_systems := before_systems sys ++ [before_sys];
                   after_systems := after_systems sys;
                   run_conditions := run_conditions sys;
                   declaration_order := declaration_order sys;
                   visited := visited sys; visiting := visiting sys |})
  | None => Done app
  end.

Definition tbevy_system_run_if (app : tbevy_app_t) (builder : Z)
    (condition : tbevy_data → bool) : outcome tbevy_app_t :=
  update_system app builder
    (λ sys, {| sys_fn := sys_fn sys; sys_label := sys_label sys;
               sys_stage := sys_stage sys;
               before_systems := before_systems sys;
               after_systems := after_systems sys;
               run_conditions := run_conditions sys ++ [condition];
               declaration_order := declaration_order sys;
               visited := visited sys; visiting := visiting sys |}).

Definition tbevy_system_build (app : tbevy_app_t) (builder : Z)
    : outcome tbevy_app_t :=
  sys ← deref (app_systems app !! builder);
  (* Default to UPDATE stage if not specified *)
  let stage :=
    match sys_stage sys with
    | Some stage => Some stage
    | None =>
        match list_find
                (λ st, stage_id <$> (app_stage_objs app !! st)
                         = Some TBEVY_STAGE_UPDATE)
                (app_stages app) with
        | Some (_, st) => Some st
        | None => None
        end
    end in
  app1 ← update_system app builder
    (λ sys, {| sys_fn := sys_fn sys; sys_label := sys_label sys;
               sys_stage := stage;
               before_systems := before_systems sys;
               after_systems := after_systems sys;
               run_conditions := run_conditions sys;
               declaration_order := declaration_order sys;
               visited := visited sys; visiting := visiting sys |});
  (* Add to stage's system list *)
  match stage with
  | Some st =>
      match app_stage_systems app1 !! st with
      | Some sys_list =>
          Done (set_app_stage_systems app1
                  (<[st := sys_list ++ [builder]]> (app_stage_systems app1)))
      | None => Done app1
      end
  | None => Done app1
  end.

(** ** Topological sort for system ordering *)

(** [tbevy_visit_system]; the state is the heap of systems (for the
    [visited] and [visiting] flags) and the result list.  The recursion
    never re-enters a system that is being visited, so its depth is at
    most the number of systems, which is the fuel it is called with. *)
Fixpoint tbevy_visit_system (fuel : nat)
    (st : gmap Z tbevy_system_t * list Z) (system : Z)
    : outcome (gmap Z tbevy_system_t * list Z) :=
  match fuel with
  | O => Hang
  | S fuel' =>
      sys ← deref (st.1 !! system);
      if visited sys then Done st
      else if visiting sys then
        Done st  (* Circular dependency detected - ignore for now *)
      else
        let st1 := (<[system := set_sys_flags sys (visited sys) true]> st.1,
                    st.2) in
        (* Visit before systems first (in declaration order) *)
        st2 ← for_each (before_systems sys) (tbevy_visit_system fuel') st1;
        sys2 ← deref (st2.1 !! system);
        Done (<[system := set_sys_flags sys2 true false]> st2.1,
              st2.2 ++ [system])
  end.

Definition tbevy_sort_systems (heap : gmap Z tbevy_system_t)
    (systems : list Z) : outcome (gmap Z tbevy_system_t * list Z) :=
  (* Reset visited flags *)
  heap1 ← for_each systems
             (λ heap s, sys ← deref (heap !! s);
                        Done (<[s := set_sys_flags sys false false]> heap))
             heap;
  (* Visit systems in declaration order *)
  for_each systems (tbevy_visit_system (S (size heap1))) (heap1, []).

(** ** Running a stage *)

(** The body of the execution loop of [tbevy_run_stage_systems]: check
    the run conditions (the first that fails ends the check), then run
    the system and apply its commands. *)
Definition run_system (app : tbevy_app_t) (system : Z) : outcome tbevy_app_t :=
  sys ← deref (app_systems app !! system);
  let should_run := forallb (λ cond, cond (app_data app)) (run_conditions sys) in
  if should_run
  then Done (set_app_trace (set_app_data app (sys_fn sys (app_data app)))
               (app_trace app ++ [SystemRan system]))
  else Done app.

Definition tbevy_app_flush_observers (app : tbevy_app_t) : tbevy_app_t := app.

Definition tbevy_run_stage_systems (app : tbevy_app_t) (stage : Z)
    : outcome tbevy_app_t :=
  match app_stage_systems app !! stage with
  | None => Done app
  | Some [] => Done app
  | Some sys_list =>
      (* Sort systems by dependencies *)
      '(heap, sorted) ← tbevy_sort_systems (app_systems app) sys_list;
      let app1 :=
        set_app_stage_systems (set_app_systems app heap)
          (<[stage := sorted]> (app_stage_systems app)) in
      (* Execute systems (single-threaded for now) *)
      app2 ← for_each sorted run_system app1;
      (* Flush observers *)
      Done (tbevy_app_flush_observers app2)
  end.

Definition is_startup (app : tbevy_app_t) (stage : Z) : bool :=
  bool_decide (stage_id <$> (app_stage_objs app !! stage)
                 = Some TBEVY_STAGE_STARTUP).

Definition tbevy_app_run_startup (app : tbevy_app_t) : outcome tbevy_app_t :=
  if app_startup_run app then Done app else
  app1 ←
    match list_find (λ st, is_startup app st = true) (app_stages app) with
    | Some (_, st) => tbevy_run_stage_systems app st
    | None => Done app
    end;
  Done (set_app_startup_run app1 true).

(** ** Events *)

Definition tbevy_app_send_event (app : tbevy_app_t) (event_type_id : Z)
    (event_data : list Z) (event_size : Z) : outcome tbevy_app_t :=
  let channels := d_event_channels (app_data app) in
  let chan :=
    match channels !! event_type_id with
    | Some chan => chan
    | None =>
        {| read_buffer := ∅; write_buffer := ∅;
           read_count := 0; read_capacity := 16;
           write_count := 0; write_capacity := 16;
           element_size := event_size; epoch := 0; active_tick := 0 |}
    end in
  (* Add to write buffer *)
  let capacity :=
    if bool_decide (write_count chan >= write_capacity chan)
    then write_capacity chan * 2 else write_capacity chan in
  buffer ← memcpy (write_buffer chan) (write_count chan * event_size)
              event_data event_size;
  let chan' :=
    {| read_buffer := read_buffer chan; write_buffer := buffer;
       read_count := read_count chan; read_capacity := read_capacity chan;
       write_count := write_count chan + 1; write_capacity := capacity;
       element_size := element_size chan; epoch := epoch chan;
       active_tick := active_tick chan |} in
  Done (set_app_data app
          (set_d_event_channels (app_data app)
             (<[event_type_id := chan']> channels))).

(** The events handed to the callback, in call order: each is the
    [element_size] bytes at the pointer the callback receives. *)
Definition tbevy_app_read_events (app : tbevy_app_t) (event_type_id : Z)
    : list (list Z) :=
  match d_event_channels (app_data app) !! event_type_id with
  | None => []
  | Some chan =>
      (λ i, mem_load (read_buffer chan) (i * element_size chan)
              (element_size chan))
        <$> seqZ 0 (read_count chan)
  end.

(** Swap buffers and clear write buffer *)
Definition swap_channel (chan : tbevy_event_channel_t) : tbevy_event_channel_t :=
  {| read_buffer := write_buffer chan; write_buffer := read_buffer chan;
     read_count := write_count chan; read_capacity := write_capacity chan;
     write_count := 0; write_capacity := read_capacity chan;
     element_size := element_size chan;
     epoch := wrap64 (epoch chan + 1);
     active_tick := active_tick chan |}.

Definition tbevy_app_clear_events (app : tbevy_app_t) : tbevy_app_t :=
  set_app_trace
    (set_app_data app
       (set_d_event_channels (app_data app)
          (swap_channel <$> d_event_channels (app_data app))))
    (app_trace app ++ [EventsSwapped (w_tick (d_world (app_data app)))]).

(** ** One frame *)

Definition tbevy_app_update (app : tbevy_app_t) : outcome tbevy_app_t :=
  (* Run startup if not yet run *)
  app1 ← (if app_startup_run app then Done app else tbevy_app_run_startup app);
  (* Run stages in order (skip Startup) *)
  app2 ← for_each (app_stages app1)
            (λ app stage,
               if is_startup app stage then Done app
               else tbevy_run_stage_systems app stage)
            app1;
  (* Clear events *)
  let app3 := tbevy_app_clear_events app2 in
  (* Increment world tick *)
  let world := d_world (app_data app3) in
  Done (set_app_trace
          (set_app_data app3
             (set_d_world (app_data app3) (tecs_world_update world)))
          (app_trace app3
             ++ [TickAdvanced (w_tick world) (w_tick (tecs_world_update world))])).

End Tbevy.

(** * Scenarios and state predicates used by the theorems *)

Module Scenario.
Import Tecs Tbevy.

(** The postcondition of a call that has to return. *)
Definition returns {A} (m : outcome A) (P : A → Prop) : Prop :=
  match m with
  | Done a => P a
  | Fault | Hang => False
  end.

(** [n] calls of [tecs_entity_new]; the handles in spawn order. *)
Fixpoint spawn_n (n : nat) (w : tecs_world_t)
    : outcome (tecs_world_t * list tecs_entity_t) :=
  match n with
  | O => Done (w, [])
  | S n' =>
      '(w1, e) ← tecs_entity_new w;
      '(w2, es) ← spawn_n n' w1;
      Done (w2, e :: es)
  end.

(** Invariant I2 as a check on a world: every occupied row of every
    chunk of every archetype holds a handle whose record names that
    archetype, chunk and row. *)
Definition row_resolves (w : tecs_world_t) (arch chunk_idx : Z)
    (chunk : tecs_chunk_t) (i : Z) : bool :=
  match tecs_sparse_set_get (w_entities w) (mem_read (chunk_entities chunk) i) with
  | Some record =>
      match dense (w_entities w) !! record with
      | Some r =>
          bool_decide (rec_archetype r = Some arch
                       ∧ rec_chunk_index r = chunk_idx
                       ∧ Z.rem (rec_row r) TECS_CHUNK_SIZE = i)
      | None => false
      end
  | None => false
  end.

Definition I2_holds (w : tecs_world_t) : bool :=
  forallb
    (λ '(arch, A),
       forallb
         (λ '(chunk_idx, chunk),
            forallb (row_resolves w arch chunk_idx chunk)
              (seqZ 0 (chunk_count chunk)))
         (indexed (arch_chunks A)))
    (map_to_list (w_heap w)).

(** The handle stored in a row of a chunk. *)
Definition row_entity (w : tecs_world_t) (arch chunk_idx row : Z)
    : outcome tecs_entity_t :=
  chunk ← get_chunk w arch chunk_idx;
  Done (mem_read (chunk_entities chunk) row).

(** The record a handle resolves to. *)
Definition record_of (w : tecs_world_t) (e : tecs_entity_t)
    : option tecs_entity_record_t :=
  record ← tecs_sparse_set_get (w_entities w) e;
  dense (w_entities w) !! record.

(** Two entities are spawned and the first one is despawned. *)
Definition despawn_first_of_two
    : outcome (tecs_world_t * tecs_entity_t * tecs_entity_t) :=
  w ← tecs_world_new;
  '(w, e0) ← tecs_entity_new w;
  '(w, e1) ← tecs_entity_new w;
  w ← tecs_entity_delete w e0;
  Done (w, e0, e1).

(** Two entities are spawned and the first one gets a component, which
    moves it out of the root archetype. *)
Definition set_first_of_two
    : outcome (tecs_world_t * tecs_entity_t * tecs_entity_t) :=
  w ← tecs_world_new;
  '(w, Position) ← tecs_register_component w "Position" 8;
  '(w, e0) ← tecs_entity_new w;
  '(w, e1) ← tecs_entity_new w;
  w ← tecs_set w e0 Position [1; 2; 3; 4; 5; 6; 7; 8] 8;
  Done (w, e0, e1).

(** Two entities, the second one with a Position; the first one is
    despawned. *)
Definition despawn_beside_position
    : outcome (tecs_world_t * Z * tecs_entity_t * tecs_entity_t) :=
  w ← tecs_world_new;
  '(w, Position) ← tecs_register_component w "Position" 8;
  '(w, e0) ← tecs_entity_new w;
  '(w, e1) ← tecs_entity_new w;
  w ← tecs_set w e1 Position [1; 2; 3; 4; 5; 6; 7; 8] 8;
  w ← tecs_entity_delete w e0;
  Done (w, Position, e0, e1).

(** Spawn, despawn, spawn again (the index is recycled with generation
    1), then clear the world. *)
Definition clear_after_recycling : outcome tecs_world_t :=
  w ← tecs_world_new;
  '(w, e) ← tecs_entity_new w;
  w ← tecs_entity_delete w e;
  '(w, e') ← tecs_entity_new w;
  tecs_world_clear w.

(** The world of the repository's own test_world_clear: ten entities
    with a Position, then clear. *)
Definition clear_after_ten : outcome tecs_world_t :=
  w ← tecs_world_new;
  '(w, Position) ← tecs_register_component w "Position" 8;
  w ← for_each (seqZ 0 10)
         (λ w i, '(w, e) ← tecs_entity_new w;
                 tecs_set w e Position (le_bytes 8 i) 8)
         w;
  tecs_world_clear w.

(** [n] components of 4 bytes are registered. *)
Fixpoint register_n (n : nat) (w : tecs_world_t)
    : outcome (tecs_world_t * list Z) :=
  match n with
  | O => Done (w, [])
  | S n' =>
      '(w1, c) ← tecs_register_component w "Component" 4;
      '(w2, cs) ← register_n n' w1;
      Done (w2, c :: cs)
  end.

(** One fresh entity per component, each given that component. *)
Definition spawn_with (w : tecs_world_t) (c : Z) : outcome tecs_world_t :=
  '(w1, e) ← tecs_entity_new w;
  tecs_set w1 e c [1; 2; 3; 4] 4.

(** Seventeen registered components; sixteen entities hold one of the
    first sixteen each; a seventeenth entity is live in the root
    archetype. *)
Definition sixteen_edges : outcome (tecs_world_t * Z * tecs_entity_t) :=
  w ← tecs_world_new;
  '(w, cs) ← register_n 17 w;
  w ← for_each (take 16 cs) spawn_with w;
  '(w, e) ← tecs_entity_new w;
  Done (w, default 0 (last cs), e).

(** Scenarios S2 and S3, as the repository's tests build them: five
    entities get Position and Velocity, three get Position only. *)
Definition five_and_three : outcome (tecs_world_t * Z * Z) :=
  w ← tecs_world_new;
  '(w, Position) ← tecs_register_component w "Position" 8;
  '(w, Velocity) ← tecs_register_component w "Velocity" 8;
  w ← for_each (seqZ 0 5)
         (λ w i, '(w, e) ← tecs_entity_new w;
                 w ← tecs_set w e Position (le_bytes 8 i) 8;
                 tecs_set w e Velocity (le_bytes 8 (i + 100)) 8)
         w;
  w ← for_each (seqZ 0 3)
         (λ w i, '(w, e) ← tecs_entity_new w;
                 tecs_set w e Position (le_bytes 8 (i + 200)) 8)
         w;
  Done (w, Position, Velocity).

(** The same population built in another order: eight entities are
    spawned first, all get a Position, then the first five a Velocity. *)
Definition five_and_three_batched : outcome (tecs_world_t * Z * Z) :=
  w ← tecs_world_new;
  '(w, Position) ← tecs_register_component w "Position" 8;
  '(w, Velocity) ← tecs_register_component w "Velocity" 8;
  '(w, es) ← spawn_n 8 w;
  w ← for_each es (λ w e, tecs_set w e Position (le_bytes 8 e) 8) w;
  w ← for_each (take 5 es) (λ w e, tecs_set w e Velocity (le_bytes 8 e) 8) w;
  Done (w, Position, Velocity).

Definition query_with_with (a b : Z) : tecs_query_t :=
  tecs_query_with (tecs_query_with tecs_query_new a) b.

Definition query_with_without (a b : Z) : tecs_query_t :=
  tecs_query_without (tecs_query_with tecs_query_new a) b.

(** The entities [es] are linked into one chain, last link first:
    each entity becomes the parent of the one after it. *)
Fixpoint link_chain (es : list tecs_entity_t) (w : tecs_world_t)
    : outcome tecs_world_t :=
  match es with
  | p :: ((c :: _) as rest) => w1 ← link_chain rest w; tecs_add_child w1 p c
  | _ => Done w
  end.

(** A first entity that stays alone (it takes the zero handle), then a
    chain of [n] entities; the result names the top and the bottom of
    the chain. *)
Definition chain (n : nat)
    : outcome (tecs_world_t * tecs_entity_t * tecs_entity_t) :=
  w ← tecs_world_new;
  '(w, _) ← tecs_entity_new w;
  '(w, es) ← spawn_n n w;
  w ← link_chain es w;
  Done (w, default 0 (head es), default 0 (last es)).

(** Following the Parent component [n] times from [e]. *)
Fixpoint nth_parent (n : nat) (w : tecs_world_t) (e : tecs_entity_t)
    : outcome (option tecs_entity_t) :=
  match n with
  | O => Done (Some e)
  | S n' =>
      p ← read_parent w e;
      match p with
      | Some e' => nth_parent n' w e'
      | None => Done None
      end
  end.

(** [y] is reached from [x] by [k] Parent links, none of them read from
    the zero handle. *)
Inductive parent_chain (w : tecs_world_t)
    : nat → tecs_entity_t → tecs_entity_t → Prop :=
  | parent_chain_last x y :
      x ≠ 0 → read_parent w x = Done (Some y) → parent_chain w 1 x y
  | parent_chain_step k x x' y :
      x ≠ 0 → read_parent w x = Done (Some x') →
      parent_chain w k x' y → parent_chain w (S k) x y.

(** The Update stage of an app. *)
Definition update_stage (app : tbevy_app_t) : Z :=
  default 0 (tbevy_stage_default app TBEVY_STAGE_UPDATE).

(** A system that leaves the app data as it is. *)
Definition idle (d : tbevy_data) : tbevy_data := d.

(** System Y is declared in Update with label "y"; system X is declared
    next in Update with before("y"). *)
Definition before_edge : outcome (tbevy_app_t * Z * Z) :=
  app ← tbevy_app_new;
  let '(app, y) := tbevy_app_add_system app idle in
  app ← tbevy_system_in_stage app y (update_stage app);
  app ← tbevy_system_label app y "y";
  app ← tbevy_system_build app y;
  let '(app, x) := tbevy_app_add_system app idle in
  app ← tbevy_system_in_stage app x (update_stage app);
  app ← tbevy_system_before app x "y";
  app ← tbevy_system_build app x;
  Done (app, x, y).

(** System X gets the label "x" and system Y gets after("x"); the
    builder of Y is finished first. *)
Definition after_edge : outcome (tbevy_app_t * Z * Z) :=
  app ← tbevy_app_new;
  let '(app, x) := tbevy_app_add_system app idle in
  app ← tbevy_system_label app x "x";
  let '(app, y) := tbevy_app_add_system app idle in
  app ← tbevy_system_after app y "x";
  app ← tbevy_system_build app y;
  app ← tbevy_system_build app x;
  Done (app, x, y).

(** The systems a trace says were run, in order. *)
Definition systems_run (trace : list tbevy_effect) : list Z :=
  omap (λ eff, match eff with SystemRan s => Some s | _ => None end) trace.


(** An app with one system in Update, declared with a label. *)
Definition one_system_app : outcome tbevy_app_t :=
  app ← tbevy_app_new;
  let '(app, a) := tbevy_app_add_system app idle in
  app ← tbevy_system_in_stage app a (update_stage app);
  app ← tbevy_system_label app a "a";
  tbevy_system_build app a.





(** The events waiting in the write buffer of a channel, oldest first;
    none when the type has no channel yet. *)
Definition pending_events (app : tbevy_app_t) (event_type_id : Z)
    : list (list Z) :=
  match d_event_channels (app_data app) !! event_type_id with
  | None => []
  | Some chan =>
      (λ i, mem_load (write_buffer chan) (i * element_size chan)
              (element_size chan))
        <$> seqZ 0 (write_count chan)
  end.

(** The channel of an event type, if it exists, was created for events
    of [event_size] bytes. *)
Definition channel_sized (app : tbevy_app_t) (event_type_id event_size : Z)
    : Prop :=
  match d_event_channels (app_data app) !! event_type_id with
  | None => True
  | Some chan => element_size chan = event_size ∧ 0 ≤ write_count chan
  end.

End Scenario.

(** * Predicates on the scheduler state used by the proofs *)

Module Sched.
Import Tecs Tbevy Scenario.








End Sched.


(** * The component hash map, slot by slot

    [Module Tecs] treats [tecs_component_map_t] as the finite map it
    implements.  Here the same three functions are transcribed with the
    array of entries and the probe loops as the C code has them, so that
    the finite-map reading can be checked against them. *)

Module Slots.

(** [tecs_component_map_entry_t] *)
Record tecs_component_map_entry_t := mk_entry {
  key : Z;
  value : Z;
  occupied : bool
}.

(** [tecs_component_map_t]: [entries] is the calloc'ed array, which has
    [capacity] elements. *)
Record tecs_component_map_t := mk_map {
  entries : list tecs_component_map_entry_t;
  capacity : Z
}.

Definition tecs_component_map_init (capacity : Z) : tecs_component_map_t :=
  {| entries := replicate (Z.to_nat capacity)
                  {| key := 0; value := 0; occupied := false |};
     capacity := capacity |}.

(** The do-while loop of [tecs_component_map_get].  It makes at most
    [capacity] turns before [index] is back at [start]. *)
Fixpoint get_loop (fuel : nat) (map : tecs_component_map_t)
    (component_id index start : Z) : outcome Z :=
  match fuel with
  | O => Hang
  | S fuel' =>
      e ← deref (entries map !! Z.to_nat index);
      if negb (occupied e) then Done (-1)
      else if bool_decide (key e = component_id) then Done (value e)
      else
        let index' := (index + 1) `mod` capacity map in
        if bool_decide (index' ≠ start)
        then get_loop fuel' map component_id index' start
        else Done (-1)
  end.

Definition tecs_component_map_get (map : tecs_component_map_t)
    (component_id : Z) : outcome Z :=
  if bool_decide (capacity map = 0) then Done (-1)
  else
    let index := component_id `mod` capacity map in
    get_loop (Z.to_nat (capacity map)) map component_id index index.

(** The while loop of [tecs_component_map_set]: the slot at which the
    probe stops.  [Hang] when the fuel runs out. *)
Fixpoint set_probe (fuel : nat) (map : tecs_component_map_t)
    (component_id index : Z) : outcome Z :=
  match fuel with
  | O => Hang
  | S fuel' =>
      e ← deref (entries map !! Z.to_nat index);
      if occupied e && bool_decide (key e ≠ component_id)
      then set_probe fuel' map component_id ((index + 1) `mod` capacity map)
      else Done index
  end.

(** The probe is run with [capacity] turns of fuel: a probe that has not
    stopped by then has seen every slot and stops at none
    ([component_map_set_never_stops] below). *)
Definition tecs_component_map_set (map : tecs_component_map_t)
    (component_id value : Z) : outcome tecs_component_map_t :=
  if bool_decide (capacity map = 0) then Done map
  else
    index ← set_probe (Z.to_nat (capacity map)) map component_id
                (component_id `mod` capacity map);
    Done {| entries :=
              <[Z.to_nat index := {| key := component_id; value := value;
                                     occupied := true |}]> (entries map);
            capacity := capacity map |}.

(** The array has [capacity] elements, and there is at least one. *)
Definition shaped (map : tecs_component_map_t) : Prop :=
  0 < capacity map ∧ Z.of_nat (length (entries map)) = capacity map.

(** The slot reached from the home slot of [component_id] after [j]
    steps of the probe. *)
Definition slot (map : tecs_component_map_t) (component_id : Z) (j : nat) : Z :=
  (component_id `mod` capacity map + Z.of_nat j) `mod` capacity map.

(** The slot holds some other key. *)
Definition blocked (map : tecs_component_map_t) (component_id : Z) (s : Z)
    : Prop :=
  ∃ e, entries map !! Z.to_nat s = Some e
       ∧ occupied e = true ∧ key e ≠ component_id.

(** [component_id] is stored with [v]. *)
Definition stored (map : tecs_component_map_t) (component_id v : Z) : Prop :=
  ∃ s e, entries map !! s = Some e
         ∧ occupied e = true ∧ key e = component_id ∧ value e = v.

(** Every stored key sits at the first slot of its probe path that does
    not hold another key: this is what a table built by
    [tecs_component_map_set] alone looks like. *)
Definition chained (map : tecs_component_map_t) : Prop :=
  shaped map
  ∧ ∀ s e, entries map !! s = Some e → occupied e = true →
      ∃ d : nat, (Z.of_nat d < capacity map)
        ∧ Z.of_nat s = slot map (key e) d
        ∧ ∀ i : nat, (i < d)%nat → blocked map (key e) (slot map (key e) i).

(** The finite map a table stands for. *)
Definition content_of (l : list tecs_component_map_entry_t) : gmap Z Z :=
  foldr (λ e m, if occupied e then <[key e := value e]> m else m) ∅ l.

Definition content (map : tecs_component_map_t) : gmap Z Z :=
  content_of (entries map).

(** No key is held by two occupied entries. *)
Definition keys_unique (l : list tecs_component_map_entry_t) : Prop :=
  ∀ i j ei ej, l !! i = Some ei → l !! j = Some ej →
    occupied ei = true → occupied ej = true → key ei = key ej → i = j.

Definition abstraction (map : tecs_component_map_t) : Tecs.tecs_component_map_t :=
  {| Tecs.cm_entries := content map; Tecs.cm_capacity := capacity map |}.

(** What the C function leaves in [*map], or that it does not return. *)
Definition refines {A B} (R : A → B → Prop) (c : outcome A) (a : outcome B)
    : Prop :=
  match c, a with
  | Done x, Done y => R x y
  | Hang, Hang => True
  | _, _ => False
  end.

End Slots.

(** * Hierarchy queries (tinyecs.h, "Hierarchy Operations") *)

Module Hierarchy.
Import Tecs.

Definition tecs_get_const (w : tecs_world_t) (entity : tecs_entity_t)
    (component_id : Z) : outcome (option tecs_ptr) :=
  tecs_get w entity component_id.

(** The loop of [tecs_get_hierarchy_depth]; [fuel] is what is left of
    [max_depth]. *)
Fixpoint depth_walk (fuel : nat) (w : tecs_world_t) (current : tecs_entity_t)
    (depth : Z) : outcome Z :=
  match fuel with
  | O => Done depth
  | S fuel' =>
      if bool_decide (current = 0) then Done depth else
      parent ← tecs_get_const w current (PARENT_ID w);
      match parent with
      | None => Done depth
      | Some p =>
          bytes ← tecs_load w p 8;
          depth_walk fuel' w (le_value bytes) (depth + 1)
      end
  end.

Definition tecs_get_hierarchy_depth (w : tecs_world_t) (entity : tecs_entity_t)
    : outcome Z :=
  if negb (tecs_entity_exists w entity) then Done 0
  else depth_walk max_depth w entity 0.

(** The loop of [tecs_traverse_ancestors] with a visitor that records
    the entity it is called with and leaves the world alone; [visited]
    are the calls made so far. *)
Fixpoint ancestors_walk (fuel : nat) (w : tecs_world_t)
    (current : tecs_entity_t) (visited : list tecs_entity_t)
    : outcome (list tecs_entity_t) :=
  match fuel with
  | O => Done visited
  | S fuel' =>
      if bool_decide (current = 0) then Done visited else
      parent ← tecs_get_const w current (PARENT_ID w);
      match parent with
      | None => Done visited
      | Some p =>
          bytes ← tecs_load w p 8;
          let current' := le_value bytes in
          ancestors_walk fuel' w current'
            (if bool_decide (current' ≠ 0) then visited ++ [current']
             else visited)
      end
  end.

Definition tecs_traverse_ancestors (w : tecs_world_t) (child : tecs_entity_t)
    : outcome (list tecs_entity_t) :=
  if negb (tecs_entity_exists w child) then Done []
  else ancestors_walk max_depth w child [].

End Hierarchy.

(** * A bound on the turns of the query iterator *)

Module Measure.
Import Tecs.

(** The chunks of an archetype named by its address; none when the
    address dangles. *)
Definition chunks_of (w : tecs_world_t) (arch : Z) : nat :=
  match w_heap w !! arch with
  | Some A => length (arch_chunks A)
  | None => O
  end.

(** The turns the loop of [tecs_iter_next] can still make over the
    archetypes [archs]: one per chunk and one per archetype. *)
Definition turns_left (w : tecs_world_t) (archs : list Z) : nat :=
  foldr (λ arch n, S (chunks_of w arch + n)) O archs.

End Measure.

(** * Proofs *)

Import Tecs Tbevy Scenario Sched.
#[local] Set Warnings "-clear-no-such-hyp".

Lemma bind_Done {A B} (a : A) (f : A → outcome B) : (Done a ≫= f) = f a.
Proof. done. Qed.


(** ** Raw memory *)

Lemma mem_write_lookup_outside (data : list Z) (m : gmap Z Z) (off off' : Z) :
  off' < off ∨ off + Z.of_nat (length data) ≤ off' →
  mem_write m off data !! off' = m !! off'.
Proof.
  revert m off. induction data as [|b data IH]; intros m off H; simpl; [done|].
  rewrite IH by (simpl in H; lia).
  apply lookup_insert_ne. simpl in H. lia.
Qed.

Lemma mem_read_write_inside (data : list Z) (m : gmap Z Z) (off : Z) (i : nat) (b : Z) :
  data !! i = Some b →
  mem_read (mem_write m off data) (off + Z.of_nat i) = b.
Proof.
  revert m off i. induction data as [|x data IH]; intros m off i H; [done|].
  change (mem_write m off (x :: data))
    with (mem_write (<[off := x]> m) (off + 1) data).
  destruct i as [|i].
  - injection H as ->. unfold mem_read.
    replace (off + Z.of_nat 0) with off by lia.
    rewrite mem_write_lookup_outside by lia. by rewrite lookup_insert_eq.
  - replace (off + Z.of_nat (S i)) with ((off + 1) + Z.of_nat i) by lia.
    apply IH. exact H.
Qed.

Lemma mem_load_write_same (data : list Z) (m : gmap Z Z) (off : Z) :
  mem_load (mem_write m off data) off (Z.of_nat (length data)) = data.
Proof.
  unfold mem_load. apply list_eq. intros i.
  rewrite list_lookup_fmap.
  destruct (data !! i) as [b|] eqn:Hi.
  - assert (i < length data)%nat by (by eapply lookup_lt_Some).
    rewrite lookup_seqZ_lt by lia. simpl.
    f_equal. replace (0 + Z.of_nat i) with (Z.of_nat i) by lia.
    by apply mem_read_write_inside.
  - assert (length data ≤ i)%nat by (by apply lookup_ge_None).
    rewrite lookup_seqZ_ge by lia. done.
Qed.

Lemma mem_load_write_disjoint (data : list Z) (m : gmap Z Z) (off off' n : Z) :
  off' + n ≤ off ∨ off + Z.of_nat (length data) ≤ off' →
  mem_load (mem_write m off data) off' n = mem_load m off' n.
Proof.
  intros H. unfold mem_load. apply list_fmap_ext.
  intros i x Hx. apply lookup_seqZ in Hx as [-> Hi].
  unfold mem_read. rewrite mem_write_lookup_outside; [done|lia].
Qed.

(** ** The topological sort returns *)













(** ** Running stages *)







(** ** Events *)

Lemma send_spec app id ev size :
  channel_sized app id size → Z.of_nat (length ev) = size →
  ∃ app', tbevy_app_send_event app id ev size = Done app'
    ∧ pending_events app' id = pending_events app id ++ [ev]
    ∧ channel_sized app' id size
    ∧ app_systems app' = app_systems app
    ∧ app_stage_systems app' = app_stage_systems app.
Proof.
  intros Hsized Hlen. unfold tbevy_app_send_event, memcpy.
  rewrite (bool_decide_eq_true_2 (0 ≤ size ∧ _)) by lia.
  rewrite bind_Done. eexists. split; [done|].
  replace (Z.to_nat size) with (length ev) by lia. rewrite firstn_all.
  unfold pending_events, channel_sized in *. simpl.
  rewrite lookup_insert_eq. simpl.
  destruct (d_event_channels (app_data app) !! id) as [chan|] eqn:Hchan; simpl.
  - destruct Hsized as [Hsize Hcount]. rewrite Hsize.
    split; [|split; [split; [done|lia]|done]].
    rewrite seqZ_app by lia. rewrite fmap_app. simpl. f_equal.
    + apply list_fmap_ext. intros i x Hx. apply lookup_seqZ in Hx as [-> Hi].
      apply mem_load_write_disjoint. left. nia.
    + f_equal. replace (0 + write_count chan) with (write_count chan) by lia.
      rewrite <- Hlen. apply mem_load_write_same.
  - split; [|done]. f_equal. rewrite <- Hlen.
    apply (mem_load_write_same ev ∅ (0 * Z.of_nat (length ev))).
Qed.




(** ** Hierarchy *)

Lemma ancestor_walk_chain w k x y :
  parent_chain w k x y → ∀ fuel, (k ≤ fuel)%nat →
  ancestor_walk fuel w y x = Done true.
Proof.
  induction 1 as [x y Hx Hread|k x x' y Hx Hread Hchain IH]; intros fuel Hfuel.
  - destruct fuel as [|fuel]; [lia|]. simpl.
    rewrite bool_decide_eq_false_2 by done.
    unfold read_parent in Hread.
    destruct (tecs_get w x (PARENT_ID w)) as [[p|]| |]; try discriminate Hread.
    simpl in *. destruct (tecs_load w p 8) as [bytes| |]; try discriminate Hread.
    simpl in *. injection Hread as ->. by rewrite bool_decide_eq_true_2.
  - destruct fuel as [|fuel]; [lia|]. simpl.
    rewrite bool_decide_eq_false_2 by done.
    unfold read_parent in Hread.
    destruct (tecs_get w x (PARENT_ID w)) as [[p|]| |]; try discriminate Hread.
    simpl in *. destruct (tecs_load w p 8) as [bytes| |]; try discriminate Hread.
    simpl in *. injection Hread as ->.
    case_bool_decide; [done|]. apply IH. lia.
Qed.


(** ** In-place update of a component *)

(** The result of [tecs_set] when the archetype of the entity already
    has the component as a data column: one column of one chunk is
    rewritten. *)
Lemma tecs_set_existing
    (w : tecs_world_t) (e C : Z) (v : list Z)
    (record : Z) (r : tecs_entity_record_t) (arch : Z) (A : tecs_archetype_t)
    (chunk : tecs_chunk_t) (column : tecs_column_t)
    (info : tecs_component_info_t) :
  let col := tecs_component_map_get (arch_data_component_map A) C in
  let chunk_idx := rec_chunk_index r in
  let row := Z.rem (rec_row r) TECS_CHUNK_SIZE in
  let size := ci_size info in
  tecs_sparse_set_get (w_entities w) e = Some record →
  dense (w_entities w) !! record = Some r →
  rec_archetype r = Some arch →
  w_heap w !! arch = Some A →
  tecs_archetype_has_component A C = true →
  0 ≤ col →
  arch_data_components A !! Z.to_nat col = Some info →
  0 ≤ chunk_idx →
  arch_chunks A !! Z.to_nat chunk_idx = Some chunk →
  chunk_columns chunk !! Z.to_nat col = Some column →
  0 ≤ rec_row r →
  col_alloc column = size * TECS_CHUNK_SIZE →
  Z.of_nat (length v) = size →
  0 ≤ row < TECS_CHUNK_SIZE
  ∧ tecs_set w e C v size =
      Done (put_arch w arch
        (set_arch_chunks A
           (<[Z.to_nat chunk_idx :=
                {| chunk_entities := chunk_entities chunk;
                   chunk_columns :=
                     <[Z.to_nat col :=
                         set_col_ticks
                           (set_col_storage column
                              (mem_write (col_storage column) (row * size) v))
                           (<[row := w_tick w]> (col_changed_ticks column))
                           (col_added_ticks column)]>
                       (chunk_columns chunk);
                   chunk_count := chunk_count chunk |}]>
              (arch_chunks A))
           (arch_entity_count A))).
Proof.
  intros col chunk_idx row size Hget Hrec Harch Hheap Hhas Hcol Hinfo Hci Hchunk
    Hcolumn Hrow Halloc Hlen.
  assert (Hrow' : 0 ≤ row < TECS_CHUNK_SIZE).
  { unfold row, TECS_CHUNK_SIZE. rewrite Z.rem_mod_nonneg by lia.
    apply Z.mod_pos_bound. lia. }
  split; [exact Hrow'|].
  assert (Hsize : 0 ≤ size) by lia.
  unfold tecs_set, get_record. rewrite Hget, Hrec. simpl.
  rewrite Harch. simpl. unfold get_arch. rewrite Hheap. simpl.
  unfold tecs_archetype_has_component in Hhas. rewrite Hhas.
  fold col. rewrite (bool_decide_eq_false_2 (col < 0)) by lia.
  fold chunk_idx row.
  unfold put_column, get_chunk, get_arch. rewrite Hheap. simpl.
  rewrite (bool_decide_eq_false_2 (chunk_idx < 0)) by lia.
  rewrite Hchunk. simpl.
  unfold get_column. rewrite (bool_decide_eq_false_2 (col < 0)) by lia.
  rewrite Hcolumn. simpl.
  unfold tecs_native_set_data, tecs_native_get_ptr, in_block, memcpy.
  rewrite (bool_decide_eq_true_2 (0 ≤ row * size ∧ _)).
  2:{ rewrite Halloc. unfold TECS_CHUNK_SIZE in *. nia. }
  rewrite (bool_decide_eq_true_2 (0 ≤ size ∧ _)) by lia. simpl.
  unfold row_ok. rewrite (bool_decide_eq_true_2 (0 ≤ row < _)) by done. simpl.
  replace (Z.to_nat size) with (length v) by lia. rewrite firstn_all.
  reflexivity.
Qed.

(** * The claims *)

(** C1 (code defect).  The swap-remove of [tecs_archetype_remove_entity]
    moves the last entity of the chunk into the freed row and never
    writes that entity's record, and [tecs_sparse_set_remove] moves the
    last dense record without fixing the sparse slot of its owner.
    After spawning two entities and despawning the first, row 0 of the
    root chunk holds the second entity, whose handle no longer resolves;
    after spawning two entities and setting a component on the first,
    row 0 of the root chunk holds the second entity while its record
    still says row 1.  Invariant I2 fails in both worlds. *)
Theorem swap_remove_leaves_record_stale :
  returns despawn_first_of_two (λ '(w, e0, e1),
    row_entity w (w_root_archetype w) 0 0 = Done e1
    ∧ record_of w e1 = None
    ∧ tecs_entity_exists w e1 = false
    ∧ I2_holds w = false)
  ∧ returns set_first_of_two (λ '(w, e0, e1),
    row_entity w (w_root_archetype w) 0 0 = Done e1
    ∧ record_of w e1
        = Some {| rec_archetype := Some (w_root_archetype w);
                  rec_chunk_index := 0; rec_row := 1 |}
    ∧ I2_holds w = false).
Proof. vm_compute. repeat split. Qed.

(** C2 (code defect).  [tecs_entity_delete] does not change the stored
    generation (it is bumped only when the index is handed out again),
    so a despawned handle keeps matching.  With two entities alive and
    the first one despawned, [tecs_entity_exists] is still true for the
    despawned handle, its generation equals the stored one, and a
    component read through it returns the bytes of the other entity,
    whose own handle stopped resolving. *)
Theorem despawned_handle_still_resolves :
  returns despawn_beside_position (λ '(w, Position, e0, e1),
    tecs_entity_exists w e0 = true
    ∧ TECS_ENTITY_GENERATION e0
        = mem_read (generations (w_entities w)) (TECS_ENTITY_INDEX e0)
    ∧ returns (tecs_get w e0 Position) (λ p,
        match p with
        | Some p => tecs_load w p 8 = Done [1; 2; 3; 4; 5; 6; 7; 8]
        | None => False
        end)
    ∧ tecs_entity_exists w e1 = false).
Proof. vm_compute. repeat split. Qed.

(** C3 (code defect).  [tecs_world_clear] resets the dense and recycled
    counts but keeps the generations.  In a world where index 0 was
    recycled once before the clear, the count and the tick are 0 after
    the clear, but the next [tecs_entity_new] hands out index 0 with
    generation 0 while generation 1 is stored: the lookup of the fresh
    handle gives NULL and [tecs_archetype_add_entity] writes through
    it. *)
Theorem spawn_after_clear_faults :
  returns clear_after_recycling (λ w,
    tecs_world_entity_count w = 0
    ∧ tecs_world_tick w = 0
    ∧ tecs_entity_new w = Fault
    ∧ (let '(es, h) := tecs_sparse_set_create (w_entities w) in
       tecs_sparse_set_get es h = None)).
Proof. vm_compute. repeat split. Qed.

(** C4 (code defect).  [tbevy_visit_system] visits the systems of the
    before list first, so a system X declared with before("y") runs
    after Y; the after list is never read, so a system Y declared with
    after("x") runs before X when its builder was finished first.  In
    both apps the edge is resolved and one update runs Y, then X. *)
Theorem declared_edges_are_not_respected :
  returns before_edge (λ '(app, x, y),
    before_systems <$> (app_systems app !! x) = Some [y]
    ∧ returns (tbevy_app_update app) (λ app',
        systems_run (app_trace app') = [y; x]))
  ∧ returns after_edge (λ '(app, x, y),
    after_systems <$> (app_systems app !! y) = Some [x]
    ∧ returns (tbevy_app_update app) (λ app',
        systems_run (app_trace app') = [y; x])).
Proof. vm_compute. repeat split. Qed.






(** C7 (code defect).  The edge maps of an archetype have 16 slots and
    never grow: with sixteen components already added from the root
    archetype, [tecs_set] of a seventeenth registered component on a
    live entity of the root archetype never returns.  And after two
    spawns and the despawn of the first entity, the second entity, which
    was never despawned, no longer resolves: [tecs_set] on it changes
    nothing and [tecs_get] returns NULL. *)
Theorem set_get_roundtrip_fails :
  returns sixteen_edges (λ '(w, C, e),
    tecs_entity_exists w e = true
    ∧ reg_size <$> (w_component_registry w !! Z.to_nat (C - 1)) = Some 4
    ∧ tecs_set w e C [1; 2; 3; 4] 4 = Hang)
  ∧ returns despawn_first_of_two (λ '(w, e0, e1),
    tecs_set w e1 (PARENT_ID w) (le_bytes 8 7) 8 = Done w
    ∧ tecs_get w e1 (PARENT_ID w) = Done None).
Proof. vm_compute. repeat split. Qed.




(** C9.  Position and Velocity are registered, five entities hold both
    and three hold Position only.  Iterating the built query
    With(Position), With(Velocity) sums the chunk counts to 5, and
    With(Position), Without(Velocity) to 3; this holds when the entities
    are built one after the other, and when all are spawned first. *)
Theorem query_counts_five_and_three :
  returns five_and_three (λ '(w, Position, Velocity),
    count_rows w (query_with_with Position Velocity) = Done 5
    ∧ count_rows w (query_with_without Position Velocity) = Done 3)
  ∧ returns five_and_three_batched (λ '(w, Position, Velocity),
    count_rows w (query_with_with Position Velocity) = Done 5
    ∧ count_rows w (query_with_without Position Velocity) = Done 3).
Proof. vm_compute. repeat split. Qed.



(** * Further properties of the code *)

Import Hierarchy Measure.

(** ** Entity handles *)

Lemma entity_index_make (idx gen : Z) :
  0 ≤ idx < 2 ^ 32 → 0 ≤ gen →
  TECS_ENTITY_INDEX (TECS_ENTITY_MAKE idx gen) = idx.
Proof.
  intros Hi Hg. unfold TECS_ENTITY_INDEX, TECS_ENTITY_MAKE.
  change 0xFFFFFFFF with (Z.ones 32).
  rewrite Z.land_lor_distr_l, !Z.land_ones by lia.
  rewrite Z.shiftl_mul_pow2 by lia.
  rewrite Z.mod_mul by lia. rewrite Z.lor_0_r.
  apply Z.mod_small. lia.
Qed.

Lemma entity_generation_make (idx gen : Z) :
  0 ≤ idx < 2 ^ 32 → 0 ≤ gen < 2 ^ 16 →
  TECS_ENTITY_GENERATION (TECS_ENTITY_MAKE idx gen) = gen.
Proof.
  intros Hi Hg. unfold TECS_ENTITY_GENERATION, TECS_ENTITY_MAKE.
  change 0xFFFF with (Z.ones 16).
  rewrite Z.shiftr_lor, Z.shiftr_shiftl_l by lia.
  rewrite Z.shiftr_div_pow2 by lia.
  rewrite Z.div_small by lia. simpl.
  rewrite Z.land_ones by lia. apply Z.mod_small. lia.
Qed.

(** X1.  A handle packs an index below 2^32 and a generation below
    2^16: [TECS_ENTITY_INDEX] and [TECS_ENTITY_GENERATION] give back what
    [TECS_ENTITY_MAKE] was given, and the handle is below 2^48. *)
Theorem entity_make_roundtrip (idx gen : Z) :
  0 ≤ idx < 2 ^ 32 → 0 ≤ gen < 2 ^ 16 →
  TECS_ENTITY_INDEX (TECS_ENTITY_MAKE idx gen) = idx
  ∧ TECS_ENTITY_GENERATION (TECS_ENTITY_MAKE idx gen) = gen
  ∧ 0 ≤ TECS_ENTITY_MAKE idx gen < 2 ^ 48.
Proof.
  intros Hi Hg. split; [apply entity_index_make; lia|].
  split; [by apply entity_generation_make|].
  unfold TECS_ENTITY_MAKE. rewrite Z.shiftl_mul_pow2 by lia.
  assert (Hland : Z.land idx (gen * 2 ^ 32) = 0).
  { apply Z.bits_inj'. intros n Hn. rewrite Z.land_spec, Z.bits_0.
    destruct (decide (n < 32)).
    - rewrite Z.mul_pow2_bits_low by lia. apply andb_false_r.
    - rewrite (Z.bits_above_log2 idx n); [done|lia|].
      destruct (decide (idx = 0)) as [->|]; [simpl; lia|].
      apply Z.lt_le_trans with 32; [|lia]. apply Z.log2_lt_pow2; lia. }
  rewrite <- Z.lxor_lor, <- Z.add_nocarry_lxor by done. lia.
Qed.

Lemma entity_make_roundtrip_witness :
  TECS_ENTITY_INDEX (TECS_ENTITY_MAKE 5 3) = 5
  ∧ TECS_ENTITY_GENERATION (TECS_ENTITY_MAKE 5 3) = 3
  ∧ 0 ≤ TECS_ENTITY_MAKE 5 3 < 2 ^ 48.
Proof. apply entity_make_roundtrip; lia. Defined.

(** ** Entity sparse set *)

#[local] Arguments grow_capacity : simpl never.

Lemma grow_capacity_gt (fuel : nat) : ∀ cap index,
  0 < cap → index < cap * 2 ^ Z.of_nat fuel →
  index < grow_capacity fuel cap index.
Proof.
  induction fuel as [|fuel IH]; intros cap index Hcap Hlt;
    unfold grow_capacity; fold grow_capacity.
  - simpl in Hlt. lia.
  - case_bool_decide; [|lia]. apply IH; [lia|].
    rewrite Nat2Z.inj_succ, Z.pow_succ_r in Hlt by lia. lia.
Qed.

Lemma grown_capacity_gt (cap index : Z) :
  0 < cap → index < 2 ^ 32 →
  index < (if bool_decide (index >= cap)
           then grow_capacity 64 (cap * 2) index else cap).
Proof.
  intros Hcap Hi. case_bool_decide; [|lia]. apply grow_capacity_gt; [lia|].
  change (Z.of_nat 64) with 64. lia.
Qed.

(** What [tecs_sparse_set_create] returns, on both of its paths. *)
Lemma sparse_set_create_spec (set : tecs_entity_sparse_set_t) :
  0 ≤ dense_count set < 2 ^ 32 - 1 →
  0 < sparse_capacity set →
  match recycled set with
  | [] => mem_read (generations set) (dense_count set) = 0
  | index :: _ => 0 ≤ index < 2 ^ 32
  end →
  ∃ set' h,
    tecs_sparse_set_create set = (set', h)
    ∧ tecs_sparse_set_get set' h = Some (dense_count set)
    ∧ dense set' !! dense_count set
        = Some {| rec_archetype := None; rec_chunk_index := -1; rec_row := -1 |}
    ∧ dense_count set' = dense_count set + 1
    ∧ recycled set' = tail (recycled set).
Proof.
  intros Hcount Hcap Hrec. unfold tecs_sparse_set_create.
  destruct (recycled set) as [|index rest] eqn:Hr.
  - eexists _, _. split; [reflexivity|]. simpl.
    assert (Hw : wrap32 (dense_count set) = dense_count set)
      by (unfold wrap32; apply Z.mod_small; lia).
    rewrite Hw. split; [|by rewrite lookup_insert_eq, Hr].
    unfold tecs_sparse_set_get. simpl.
    rewrite entity_index_make by lia.
    rewrite entity_generation_make by lia.
    pose proof (grown_capacity_gt (sparse_capacity set) (dense_count set)
                  Hcap ltac:(lia)) as Hgt.
    rewrite bool_decide_eq_false_2 by lia.
    rewrite bool_decide_eq_false_2 by (rewrite Hrec; intros H; by apply H).
    unfold mem_read. rewrite !lookup_insert_eq. simpl.
    rewrite bool_decide_eq_false_2; [done|].
    unfold wrap32. rewrite Z.mod_small by lia. lia.
  - eexists _, _. split; [reflexivity|]. simpl.
    split; [|by rewrite lookup_insert_eq].
    assert (Hgen : 0 ≤ wrap16 (mem_read (generations set) index + 1) < 2 ^ 16)
      by (unfold wrap16; apply Z.mod_pos_bound; lia).
    unfold tecs_sparse_set_get. simpl.
    rewrite entity_index_make by lia.
    rewrite entity_generation_make by lia.
    pose proof (grown_capacity_gt (sparse_capacity set) index
                  Hcap ltac:(lia)) as Hgt.
    rewrite bool_decide_eq_false_2 by lia.
    unfold mem_read. rewrite !lookup_insert_eq. simpl.
    rewrite bool_decide_eq_false_2 by (intros H; by apply H).
    rewrite bool_decide_eq_false_2; [done|].
    unfold wrap32. rewrite Z.mod_small by lia. lia.
Qed.

(** X2.  [tecs_sparse_set_create] hands out a handle that resolves.
    With fewer than 2^32 - 1 live entities, and either a recycled index
    below 2^32 on top of the stack or a stored generation of 0 at the
    next fresh index, the handle returned is found by
    [tecs_sparse_set_get] at the last dense position, which holds a
    record with no archetype; the count grows by one and the recycled
    index is popped. *)
Theorem sparse_set_create_resolves (set : tecs_entity_sparse_set_t) :
  0 ≤ dense_count set < 2 ^ 32 - 1 →
  0 < sparse_capacity set →
  match recycled set with
  | [] => mem_read (generations set) (dense_count set) = 0
  | index :: _ => 0 ≤ index < 2 ^ 32
  end →
  ∃ set' h,
    tecs_sparse_set_create set = (set', h)
    ∧ tecs_sparse_set_get set' h = Some (dense_count set)
    ∧ dense set' !! dense_count set
        = Some {| rec_archetype := None; rec_chunk_index := -1; rec_row := -1 |}
    ∧ dense_count set' = dense_count set + 1
    ∧ recycled set' = tail (recycled set).
Proof. apply sparse_set_create_spec. Qed.

Lemma sparse_set_create_resolves_witness :
  ∃ set' h,
    tecs_sparse_set_create tecs_sparse_set_init = (set', h)
    ∧ tecs_sparse_set_get set' h = Some (dense_count tecs_sparse_set_init)
    ∧ dense set' !! dense_count tecs_sparse_set_init
        = Some {| rec_archetype := None; rec_chunk_index := -1; rec_row := -1 |}
    ∧ dense_count set' = dense_count tecs_sparse_set_init + 1
    ∧ recycled set' = tail (recycled tecs_sparse_set_init).
Proof.
  apply (sparse_set_create_resolves tecs_sparse_set_init).
  - simpl. lia.
  - simpl. lia.
  - reflexivity.
Defined.

(** ** Spawning *)

(** X3.  [tecs_entity_new] in a world whose entity index is as X2
    asks and whose root archetype is allocated with chunk counts that
    are not negative: the call returns, the new handle exists, the
    entity count grows by one, the handle sits in a row of a chunk of the
    root archetype, and its record names the root archetype, that chunk
    and, as row, the number of entities the root archetype held before.
    Other archetypes and the tick are as before. *)
Theorem entity_new_spawns (w : tecs_world_t) (root : tecs_archetype_t) :
  0 ≤ dense_count (w_entities w) < 2 ^ 32 - 1 →
  0 < sparse_capacity (w_entities w) →
  match recycled (w_entities w) with
  | [] => mem_read (generations (w_entities w)) (dense_count (w_entities w)) = 0
  | index :: _ => 0 ≤ index < 2 ^ 32
  end →
  w_heap w !! w_root_archetype w = Some root →
  Forall (λ c, 0 ≤ chunk_count c) (arch_chunks root) →
  ∃ w' e chunk_idx row,
    tecs_entity_new w = Done (w', e)
    ∧ tecs_entity_exists w' e = true
    ∧ tecs_world_entity_count w' = tecs_world_entity_count w + 1
    ∧ record_of w' e
        = Some {| rec_archetype := Some (w_root_archetype w);
                  rec_chunk_index := chunk_idx;
                  rec_row := arch_entity_count root |}
    ∧ 0 ≤ row < TECS_CHUNK_SIZE
    ∧ row_entity w' (w_root_archetype w) chunk_idx row = Done e
    ∧ (∀ a, a ≠ w_root_archetype w → w_heap w' !! a = w_heap w !! a)
    ∧ w_tick w' = w_tick w.
Proof.
  intros Hcount Hcap Hrec Hroot Hchunks.
  destruct (sparse_set_create_spec (w_entities w) Hcount Hcap Hrec)
    as (es & e & Hcreate & Hget & Hdense & Hdc & _).
  unfold tecs_entity_new. rewrite Hcreate. simpl.
  rewrite Hget. unfold tecs_archetype_add_entity, get_arch. simpl.
  rewrite Hroot. simpl.
  set (found := list_find (λ c, chunk_count c < TECS_CHUNK_SIZE) (arch_chunks root)).
  assert (Hsel : ∃ chunks chunk_idx chunk,
            (match found with
             | Some (i, _) => (arch_chunks root, Z.of_nat i)
             | None => (arch_chunks root ++ [tecs_chunk_new (arch_data_components root)],
                        Z.of_nat (length (arch_chunks root)))
             end) = (chunks, chunk_idx)
            ∧ 0 ≤ chunk_idx
            ∧ chunks !! Z.to_nat chunk_idx = Some chunk
            ∧ 0 ≤ chunk_count chunk < TECS_CHUNK_SIZE).
  { destruct found as [[i c]|] eqn:Hf.
    - apply list_find_Some in Hf as (Hi & Hlt & _).
      exists (arch_chunks root), (Z.of_nat i), c. rewrite Nat2Z.id.
      split; [done|]. split; [lia|]. split; [done|].
      rewrite Forall_forall in Hchunks. split; [|done].
      apply Hchunks. by eapply list_elem_of_lookup_2.
    - eexists _, _, (tecs_chunk_new (arch_data_components root)).
      split; [done|]. split; [lia|]. rewrite Nat2Z.id.
      split; [|unfold TECS_CHUNK_SIZE; simpl; lia].
      rewrite lookup_app_r by done. by rewrite Nat.sub_diag. }
  destruct Hsel as (chunks & chunk_idx & chunk & -> & Hci & Hchunk & Hrow).
  rewrite Hchunk. simpl. unfold row_ok.
  rewrite bool_decide_eq_true_2 by done. simpl.
  assert (Hlen : (Z.to_nat chunk_idx < length chunks)%nat)
    by (by eapply lookup_lt_Some).
  eexists _, e, chunk_idx, (chunk_count chunk). split; [reflexivity|].
  unfold tecs_entity_exists, tecs_world_entity_count, record_of, row_entity,
    put_record, put_arch, get_chunk, get_arch.
  simpl.
  assert (Hget' : ∀ d, tecs_sparse_set_get
             {| sparse := sparse es; sparse_capacity := sparse_capacity es;
                dense := d; dense_count := dense_count es;
                recycled := recycled es; generations := generations es;
                generation_capacity := generation_capacity es |} e
           = tecs_sparse_set_get es e) by done.
  rewrite !Hget', Hget. simpl. rewrite !lookup_insert_eq. simpl.
  rewrite (bool_decide_eq_false_2 (chunk_idx < 0)) by lia.
  rewrite list_lookup_insert_eq by done. simpl.
  unfold mem_read. rewrite lookup_insert_eq. simpl.
  split; [done|]. split; [done|].
  split; [f_equal; f_equal; lia|]. split; [done|]. split; [done|].
  split; [|done]. intros a Ha. by rewrite lookup_insert_ne.
Qed.

Lemma entity_new_spawns_witness :
  ∃ w e0 e1, set_first_of_two = Done (w, e0, e1)
    ∧ ∃ w' e, tecs_entity_new w = Done (w', e)
              ∧ tecs_entity_exists w' e = true
              ∧ tecs_world_entity_count w' = tecs_world_entity_count w + 1.
Proof.
  eexists _, _, _. split; [vm_compute; reflexivity|].
  match goal with
  | |- ∃ w' e, tecs_entity_new ?W = _ ∧ _ =>
      edestruct (entity_new_spawns W)
        as (w' & e & chunk_idx & row & Hnew & Hex & Hcnt & _)
  end;
    [vm_compute; split; [discriminate|reflexivity] | vm_compute; reflexivity
    | vm_compute; reflexivity | vm_compute; reflexivity
    | repeat constructor; vm_compute; discriminate | ].
  exists w', e. split; [exact Hnew|]. split; [exact Hex|exact Hcnt].
Defined.

(** ** Handles that do not resolve *)

(** X4.  On a handle for which [tecs_entity_exists] is false,
    [tecs_set], [tecs_add_tag], [tecs_unset], [tecs_mark_changed] and
    [tecs_entity_delete] return with the world unchanged, [tecs_get]
    returns NULL and [tecs_has] returns false. *)
Theorem unresolved_handle_is_ignored (w : tecs_world_t) (e C : Z)
    (v : list Z) (size : Z) :
  tecs_entity_exists w e = false →
  tecs_set w e C v size = Done w
  ∧ tecs_add_tag w e C = Done w
  ∧ tecs_unset w e C = Done w
  ∧ tecs_mark_changed w e C = Done w
  ∧ tecs_entity_delete w e = Done w
  ∧ tecs_get w e C = Done None
  ∧ tecs_has w e C = Done false.
Proof.
  unfold tecs_entity_exists. intros H.
  apply bool_decide_eq_false_1 in H.
  assert (Hget : tecs_sparse_set_get (w_entities w) e = None).
  { destruct (tecs_sparse_set_get (w_entities w) e); [|done].
    exfalso. by apply H. }
  unfold tecs_add_tag, tecs_set, tecs_unset, tecs_mark_changed,
    tecs_entity_delete, tecs_get, tecs_has.
  by rewrite Hget.
Qed.

Lemma unresolved_handle_is_ignored_witness :
  ∃ w, tecs_world_new = Done w
    ∧ tecs_set w 7 1 [1; 2; 3; 4; 5; 6; 7; 8] 8 = Done w
    ∧ tecs_add_tag w 7 1 = Done w
    ∧ tecs_unset w 7 1 = Done w
    ∧ tecs_mark_changed w 7 1 = Done w
    ∧ tecs_entity_delete w 7 = Done w
    ∧ tecs_get w 7 1 = Done None
    ∧ tecs_has w 7 1 = Done false.
Proof.
  eexists. split; [vm_compute; reflexivity|].
  apply unresolved_handle_is_ignored. vm_compute. reflexivity.
Defined.

(** ** Byte layout *)






(** ** Native storage *)

Lemma mem_load_length (m : gmap Z Z) (off n : Z) :
  length (mem_load m off n) = Z.to_nat n.
Proof. unfold mem_load. by rewrite length_fmap, length_seqZ. Qed.

Lemma mem_load_write_same_n (data : list Z) (m : gmap Z Z) (off n : Z) :
  Z.of_nat (length data) = n →
  mem_load (mem_write m off data) off n = data.
Proof. intros <-. apply mem_load_write_same. Qed.

(** What [tecs_native_swap_data] does to two distinct rows. *)
Lemma native_swap_data_spec (col : tecs_column_t) (idx_a idx_b size : Z) :
  idx_a ≠ idx_b → 0 ≤ idx_a → 0 ≤ idx_b → 0 ≤ size →
  (idx_a + 1) * size ≤ col_alloc col →
  (idx_b + 1) * size ≤ col_alloc col →
  ∃ col',
    tecs_native_swap_data col idx_a idx_b size = Done col'
    ∧ mem_load (col_storage col') (idx_a * size) size
        = mem_load (col_storage col) (idx_b * size) size
    ∧ mem_load (col_storage col') (idx_b * size) size
        = mem_load (col_storage col) (idx_a * size) size
    ∧ (∀ off, ¬ (idx_a * size ≤ off < idx_a * size + size) →
              ¬ (idx_b * size ≤ off < idx_b * size + size) →
              col_storage col' !! off = col_storage col !! off)
    ∧ col_alloc col' = col_alloc col
    ∧ col_changed_ticks col' = col_changed_ticks col
    ∧ col_added_ticks col' = col_added_ticks col.
Proof.
  intros Hne Ha Hb Hsize Ha' Hb'.
  unfold tecs_native_swap_data, tecs_native_get_ptr, in_block.
  rewrite bool_decide_eq_false_2 by done.
  rewrite (bool_decide_eq_true_2 (0 ≤ idx_a * size ∧ _)) by nia.
  rewrite (bool_decide_eq_true_2 (0 ≤ idx_b * size ∧ _)) by nia.
  simpl. eexists. split; [done|]. simpl.
  assert (Hdisj : idx_a * size + size ≤ idx_b * size
                  ∨ idx_b * size + size ≤ idx_a * size) by nia.
  assert (Hl : ∀ m off, Z.of_nat (length (mem_load m off size)) = size)
    by (intros; rewrite mem_load_length; lia).
  split; [|split; [|split; [|done]]].
  - rewrite mem_load_write_disjoint by (rewrite Hl; lia).
    apply mem_load_write_same_n, Hl.
  - apply mem_load_write_same_n, Hl.
  - intros off Hoa Hob.
    rewrite !mem_write_lookup_outside; [done| |]; rewrite Hl; lia.
Qed.

(** X7.  [tecs_native_swap_data] on two different rows that lie
    inside the block of the column: afterwards each of the two rows
    holds the bytes the other one held, every byte outside the two rows
    is as before, and the size of the block and the ticks are
    untouched. *)
Theorem native_swap_data_swaps (col : tecs_column_t) (idx_a idx_b size : Z) :
  idx_a ≠ idx_b → 0 ≤ idx_a → 0 ≤ idx_b → 0 ≤ size →
  (idx_a + 1) * size ≤ col_alloc col →
  (idx_b + 1) * size ≤ col_alloc col →
  ∃ col',
    tecs_native_swap_data col idx_a idx_b size = Done col'
    ∧ mem_load (col_storage col') (idx_a * size) size
        = mem_load (col_storage col) (idx_b * size) size
    ∧ mem_load (col_storage col') (idx_b * size) size
        = mem_load (col_storage col) (idx_a * size) size
    ∧ (∀ off, ¬ (idx_a * size ≤ off < idx_a * size + size) →
              ¬ (idx_b * size ≤ off < idx_b * size + size) →
              col_storage col' !! off = col_storage col !! off)
    ∧ col_alloc col' = col_alloc col
    ∧ col_changed_ticks col' = col_changed_ticks col
    ∧ col_added_ticks col' = col_added_ticks col.
Proof. apply native_swap_data_spec. Qed.

Lemma native_swap_data_swaps_witness :
  ∃ col',
    tecs_native_swap_data
      {| col_storage := mem_write ∅ 0 [1; 2; 3; 4; 5; 6; 7; 8];
         col_alloc := 16384; col_changed_ticks := ∅; col_added_ticks := ∅ |}
      0 1 4 = Done col'
    ∧ mem_load (col_storage col') 0 4 = [5; 6; 7; 8]
    ∧ mem_load (col_storage col') 4 4 = [1; 2; 3; 4].
Proof.
  destruct (native_swap_data_swaps
      {| col_storage := mem_write ∅ 0 [1; 2; 3; 4; 5; 6; 7; 8];
         col_alloc := 16384; col_changed_ticks := ∅; col_added_ticks := ∅ |}
      0 1 4) as (col' & Hswap & Ha & Hb & _);
    [lia | lia | lia | lia | simpl; lia | simpl; lia |].
  exists col'. split; [exact Hswap|]. split; [exact Ha|exact Hb].
Defined.

(** ** Writing and reading a component in place *)

(** X5.  Set then get, where the archetype of the entity already has
    the component as a data column (the hypotheses are those of C10):
    [tecs_set] returns, [tecs_get] on the resulting world returns a
    pointer, the [size] bytes behind it are the bytes written, and
    [tecs_has] is true. *)
Theorem set_then_get_in_place
    (w : tecs_world_t) (e C : Z) (v : list Z)
    (record : Z) (r : tecs_entity_record_t) (arch : Z) (A : tecs_archetype_t)
    (chunk : tecs_chunk_t) (column : tecs_column_t)
    (info : tecs_component_info_t) :
  let col := tecs_component_map_get (arch_data_component_map A) C in
  let chunk_idx := rec_chunk_index r in
  let size := ci_size info in
  tecs_sparse_set_get (w_entities w) e = Some record →
  dense (w_entities w) !! record = Some r →
  rec_archetype r = Some arch →
  w_heap w !! arch = Some A →
  tecs_archetype_has_component A C = true →
  0 ≤ col →
  arch_data_components A !! Z.to_nat col = Some info →
  0 ≤ chunk_idx →
  arch_chunks A !! Z.to_nat chunk_idx = Some chunk →
  chunk_columns chunk !! Z.to_nat col = Some column →
  0 ≤ rec_row r →
  col_alloc column = size * TECS_CHUNK_SIZE →
  Z.of_nat (length v) = size →
  ∃ w' p,
    tecs_set w e C v size = Done w'
    ∧ tecs_get w' e C = Done (Some p)
    ∧ tecs_load w' p size = Done v
    ∧ tecs_has w' e C = Done true.
Proof.
  intros col chunk_idx size Hget Hrec Harch Hheap Hhas Hcol Hinfo Hci Hchunk
    Hcolumn Hrow Halloc Hlen.
  destruct (tecs_set_existing w e C v record r arch A chunk column info
              Hget Hrec Harch Hheap Hhas Hcol Hinfo Hci Hchunk Hcolumn Hrow
              Halloc Hlen) as [Hrow' Hset].
  fold col chunk_idx size in Hrow', Hset.
  set (row := Z.rem (rec_row r) TECS_CHUNK_SIZE) in *.
  assert (Hci' : (Z.to_nat chunk_idx < length (arch_chunks A))%nat)
    by (by eapply lookup_lt_Some).
  assert (Hcol' : (Z.to_nat col < length (chunk_columns chunk))%nat)
    by (by eapply lookup_lt_Some).
  eexists _, _. split; [exact Hset|].
  unfold tecs_get, tecs_has, get_record, put_arch. simpl.
  rewrite Hget, Hrec. simpl. rewrite Harch. simpl.
  unfold get_arch. simpl. rewrite lookup_insert_eq. simpl.
  fold col. rewrite (bool_decide_eq_false_2 (col < 0)) by lia.
  unfold get_chunk, get_arch. simpl. rewrite lookup_insert_eq. simpl.
  fold chunk_idx. rewrite (bool_decide_eq_false_2 (chunk_idx < 0)) by lia.
  rewrite list_lookup_insert_eq by done. simpl.
  unfold get_column. simpl.
  rewrite (bool_decide_eq_false_2 (col < 0)) by lia.
  rewrite list_lookup_insert_eq by done. simpl.
  rewrite Hinfo. simpl. split; [reflexivity|].
  split.
  - unfold tecs_load, get_chunk, get_arch. simpl.
    rewrite lookup_insert_eq. simpl.
    rewrite (bool_decide_eq_false_2 (chunk_idx < 0)) by lia.
    rewrite list_lookup_insert_eq by done. simpl.
    unfold get_column. simpl.
    rewrite (bool_decide_eq_false_2 (col < 0)) by lia.
    rewrite list_lookup_insert_eq by done. simpl.
    unfold in_block, tecs_native_get_ptr. simpl. fold row size.
    rewrite bool_decide_eq_true_2.
    2:{ rewrite Halloc. unfold TECS_CHUNK_SIZE in *. nia. }
    f_equal. rewrite <- Hlen. apply mem_load_write_same.
  - unfold tecs_archetype_has_component, tecs_archetype_find_component in *.
    simpl. by rewrite Hhas.
Qed.

Lemma set_then_get_in_place_witness :
  ∃ w e0 e1,
    set_first_of_two = Done (w, e0, e1)
    ∧ ∃ w' p, tecs_set w e0 3 [9; 8; 7; 6; 5; 4; 3; 2] 8 = Done w'
              ∧ tecs_get w' e0 3 = Done (Some p)
              ∧ tecs_load w' p 8 = Done [9; 8; 7; 6; 5; 4; 3; 2].
Proof.
  eexists _, _, _. split; [vm_compute; reflexivity|].
  match goal with
  | |- ∃ w' p, tecs_set ?W ?e ?C ?v _ = _ ∧ _ =>
      edestruct (set_then_get_in_place W e C v)
        as (w' & p & Hset & Hget & Hload & _)
  end;
    [vm_compute; reflexivity | vm_compute; reflexivity | vm_compute; reflexivity
    | vm_compute; reflexivity | vm_compute; reflexivity | vm_compute; discriminate
    | vm_compute; reflexivity | vm_compute; discriminate | vm_compute; reflexivity
    | vm_compute; reflexivity | vm_compute; discriminate | vm_compute; reflexivity
    | vm_compute; reflexivity | ].
  exists w', p. split; [exact Hset|]. split; [exact Hget|exact Hload].
Defined.

(** ** Marking a component as changed *)

(** X6.  [tecs_mark_changed] on an entity that resolves to a row of a
    data column: the call returns, the changed tick of that row becomes
    the world tick, the added ticks, the entity index and the tick of
    the world are as before, [tecs_get] returns the pointer it returned
    before, and every read through any pointer gives the bytes it gave
    before. *)
Theorem mark_changed_in_place
    (w : tecs_world_t) (e C : Z)
    (record : Z) (r : tecs_entity_record_t) (arch : Z) (A : tecs_archetype_t)
    (chunk : tecs_chunk_t) (column : tecs_column_t) :
  let col := tecs_component_map_get (arch_data_component_map A) C in
  let chunk_idx := rec_chunk_index r in
  let row := Z.rem (rec_row r) TECS_CHUNK_SIZE in
  tecs_sparse_set_get (w_entities w) e = Some record →
  dense (w_entities w) !! record = Some r →
  rec_archetype r = Some arch →
  w_heap w !! arch = Some A →
  0 ≤ col →
  0 ≤ chunk_idx →
  arch_chunks A !! Z.to_nat chunk_idx = Some chunk →
  chunk_columns chunk !! Z.to_nat col = Some column →
  0 ≤ rec_row r →
  ∃ w' column',
    tecs_mark_changed w e C = Done w'
    ∧ w_entities w' = w_entities w
    ∧ w_tick w' = w_tick w
    ∧ (chunk' ← get_chunk w' arch chunk_idx; get_column chunk' col) = Done column'
    ∧ col_changed_ticks column' = <[row := w_tick w]> (col_changed_ticks column)
    ∧ col_added_ticks column' = col_added_ticks column
    ∧ tecs_get w' e C = tecs_get w e C
    ∧ ∀ p n, tecs_load w' p n = tecs_load w p n.
Proof.
  intros col chunk_idx row Hget Hrec Harch Hheap Hcol Hci Hchunk Hcolumn Hrow.
  assert (Hrow' : 0 ≤ row < TECS_CHUNK_SIZE).
  { unfold row, TECS_CHUNK_SIZE. rewrite Z.rem_mod_nonneg by lia.
    apply Z.mod_pos_bound. lia. }
  assert (Hci' : (Z.to_nat chunk_idx < length (arch_chunks A))%nat)
    by (by eapply lookup_lt_Some).
  assert (Hcol' : (Z.to_nat col < length (chunk_columns chunk))%nat)
    by (by eapply lookup_lt_Some).
  set (column' := set_col_ticks column
                    (<[row := w_tick w]> (col_changed_ticks column))
                    (col_added_ticks column)).
  set (chunk' := {| chunk_entities := chunk_entities chunk;
                    chunk_columns := <[Z.to_nat col := column']> (chunk_columns chunk);
                    chunk_count := chunk_count chunk |}).
  set (A' := set_arch_chunks A (<[Z.to_nat chunk_idx := chunk']> (arch_chunks A))
               (arch_entity_count A)).
  assert (Hmark : tecs_mark_changed w e C = Done (put_arch w arch A')).
  { unfold tecs_mark_changed, get_record. rewrite Hget, Hrec. simpl.
    rewrite Harch. unfold get_arch. rewrite Hheap. simpl. fold col.
    rewrite (bool_decide_eq_false_2 (col < 0)) by lia.
    fold chunk_idx row.
    unfold put_column, get_chunk, get_arch. rewrite Hheap. simpl.
    rewrite (bool_decide_eq_false_2 (chunk_idx < 0)) by lia.
    rewrite Hchunk. simpl.
    unfold get_column. rewrite (bool_decide_eq_false_2 (col < 0)) by lia.
    rewrite Hcolumn. simpl.
    unfold row_ok. rewrite (bool_decide_eq_true_2 (0 ≤ row < _)) by done.
    done. }
  exists (put_arch w arch A'), column'. split; [exact Hmark|].
  split; [done|]. split; [done|].
  assert (Hchunk' : get_chunk (put_arch w arch A') arch chunk_idx = Done chunk').
  { unfold get_chunk, get_arch, put_arch. simpl. rewrite lookup_insert_eq. simpl.
    rewrite (bool_decide_eq_false_2 (chunk_idx < 0)) by lia.
    by rewrite list_lookup_insert_eq by done. }
  assert (Hcolumn' : get_column chunk' col = Done column').
  { unfold get_column. rewrite (bool_decide_eq_false_2 (col < 0)) by lia.
    simpl. by rewrite list_lookup_insert_eq by done. }
  split; [by rewrite Hchunk', bind_Done|].
  split; [done|]. split; [done|]. split.
  - transitivity (match arch_data_components A !! Z.to_nat col with
                  | Some info =>
                      Done (Some {| ptr_arch := arch; ptr_chunk := chunk_idx;
                                    ptr_column := col;
                                    ptr_offset :=
                                      tecs_native_get_ptr row (ci_size info) |})
                  | None => Fault
                  end).
    + unfold tecs_get, get_record, put_arch. simpl.
      rewrite Hget, Hrec. simpl. rewrite Harch.
      unfold get_arch. simpl. rewrite lookup_insert_eq. simpl.
      fold col. rewrite (bool_decide_eq_false_2 (col < 0)) by lia.
      unfold get_chunk, get_arch. simpl. rewrite lookup_insert_eq. simpl.
      fold chunk_idx. rewrite (bool_decide_eq_false_2 (chunk_idx < 0)) by lia.
      rewrite list_lookup_insert_eq by done. simpl.
      unfold get_column. simpl.
      rewrite (bool_decide_eq_false_2 (col < 0)) by lia.
      rewrite list_lookup_insert_eq by done. simpl.
      by destruct (arch_data_components A !! Z.to_nat col).
    + unfold tecs_get, get_record. rewrite Hget, Hrec. simpl. rewrite Harch.
      unfold get_arch. rewrite Hheap. simpl.
      fold col. rewrite (bool_decide_eq_false_2 (col < 0)) by lia.
      unfold get_chunk, get_arch. rewrite Hheap. simpl.
      fold chunk_idx. rewrite (bool_decide_eq_false_2 (chunk_idx < 0)) by lia.
      rewrite Hchunk. simpl.
      unfold get_column. rewrite (bool_decide_eq_false_2 (col < 0)) by lia.
      rewrite Hcolumn. simpl.
      by destruct (arch_data_components A !! Z.to_nat col).
  - intros p n. unfold tecs_load.
    destruct (decide (ptr_arch p = arch)) as [Hpa|Hpa].
    + rewrite Hpa.
      destruct (decide (Z.to_nat (ptr_chunk p) = Z.to_nat chunk_idx)) as [Hpc|Hpc].
      * unfold get_chunk, get_arch, put_arch. simpl.
        rewrite lookup_insert_eq, Hheap. simpl.
        case_bool_decide; [done|]. rewrite Hpc.
        rewrite list_lookup_insert_eq by done. rewrite Hchunk. simpl.
        unfold get_column. case_bool_decide; [done|].
        destruct (decide (Z.to_nat (ptr_column p) = Z.to_nat col)) as [Hpl|Hpl].
        -- simpl. rewrite Hpl, list_lookup_insert_eq by done.
           by rewrite Hcolumn.
        -- simpl. by rewrite list_lookup_insert_ne by done.
      * unfold get_chunk, get_arch, put_arch. simpl.
        rewrite lookup_insert_eq, Hheap. simpl.
        case_bool_decide; [done|].
        by rewrite list_lookup_insert_ne by done.
    + unfold get_chunk, get_arch, put_arch. simpl.
      by rewrite lookup_insert_ne by done.
Qed.

Lemma mark_changed_in_place_witness :
  ∃ w e0 e1,
    set_first_of_two = Done (w, e0, e1)
    ∧ ∃ w', tecs_mark_changed w e0 3 = Done w'
            ∧ w_entities w' = w_entities w.
Proof.
  eexists _, _, _. split; [vm_compute; reflexivity|].
  match goal with
  | |- ∃ w', tecs_mark_changed ?W ?e ?C = _ ∧ _ =>
      edestruct (mark_changed_in_place W e C)
        as (w' & column' & Hmark & Hent & _)
  end;
    [vm_compute; reflexivity | vm_compute; reflexivity | vm_compute; reflexivity
    | vm_compute; reflexivity | vm_compute; discriminate | vm_compute; discriminate
    | vm_compute; reflexivity | vm_compute; reflexivity | vm_compute; discriminate
    | ].
  exists w'. split; [exact Hmark|exact Hent].
Defined.

(** ** Removing a row *)






(** ** Ticks *)

(** X9.  [n] calls of [tecs_world_update] advance a 32-bit tick by
    [n] modulo 2^32 and leave the entity index, the archetypes and the
    structural version alone. *)
Theorem world_update_wraps (n : nat) (w : tecs_world_t) :
  0 ≤ tecs_world_tick w < 2 ^ 32 →
  tecs_world_tick (Nat.iter n tecs_world_update w)
    = wrap32 (tecs_world_tick w + Z.of_nat n)
  ∧ w_entities (Nat.iter n tecs_world_update w) = w_entities w
  ∧ w_heap (Nat.iter n tecs_world_update w) = w_heap w
  ∧ w_structural_change_version (Nat.iter n tecs_world_update w)
      = w_structural_change_version w.
Proof.
  unfold tecs_world_tick, wrap32. intros Ht.
  induction n as [|n (IH1 & IH2 & IH3 & IH4)].
  - simpl. rewrite Z.add_0_r, Z.mod_small; [done|lia].
  - rewrite Nat.iter_succ. unfold tecs_world_update at 1 3 5 7. simpl.
    rewrite IH1. split; [|done]. unfold wrap32.
    rewrite Zplus_mod_idemp_l. f_equal. lia.
Qed.

Lemma world_update_wraps_witness :
  ∃ w, tecs_world_new = Done w
    ∧ tecs_world_tick (Nat.iter 3 tecs_world_update w)
        = wrap32 (tecs_world_tick w + Z.of_nat 3).
Proof.
  eexists. split; [vm_compute; reflexivity|].
  apply world_update_wraps. vm_compute. split; [discriminate|reflexivity].
Defined.

(** ** Clearing the world *)

Lemma clear_slot_fold (root : Z) (l : list Z) :
  ∀ (heap : gmap Z tecs_archetype_t)
    (table : gmap Z tecs_archetype_table_entry_t),
  NoDup l →
  let st := foldl (clear_slot root) (heap, table) l in
  st.1 !! root = heap !! root
  ∧ (∀ a, heap !! a = None → st.1 !! a = None)
  ∧ (∀ i, i ∉ l → st.2 !! i = table !! i)
  ∧ (∀ i arch, i ∈ l →
       te_archetype (table_entry table i) = Some arch → arch ≠ root →
       st.1 !! arch = None ∧ te_archetype (table_entry st.2 i) = None)
  ∧ (∀ a, (∀ i, i ∈ l → te_archetype (table_entry table i) ≠ Some a) →
       st.1 !! a = heap !! a).
Proof.
  induction l as [|x l IH]; intros heap table Hnd; cbn [foldl]; cbv zeta.
  - simpl. split; [done|]. split; [done|]. split; [done|]. split; [|done].
    intros i arch Hi. by apply elem_of_nil in Hi.
  - apply NoDup_cons in Hnd as [Hx Hnd].
    destruct (clear_slot root (heap, table) x) as [heap1 table1] eqn:E.
    destruct (IH heap1 table1 Hnd) as (IHroot & IHnone & IHtab & IHdel & IHkeep).
    set (st := foldl (clear_slot root) (heap1, table1) l) in *.
    unfold clear_slot in E.
    assert (Hheap1 : heap1 !! root = heap !! root
                     ∧ (∀ a, heap !! a = None → heap1 !! a = None)
                     ∧ (∀ i, i ≠ x → table1 !! i = table !! i)
                     ∧ (∀ arch, te_archetype (table_entry table x) = Some arch →
                          arch ≠ root →
                          heap1 !! arch = None
                          ∧ te_archetype (table_entry table1 x) = None)
                     ∧ (∀ a, te_archetype (table_entry table x) ≠ Some a →
                          heap1 !! a = heap !! a)).
    { destruct (te_archetype (table_entry table x)) as [arch|] eqn:Hx'.
      - case_bool_decide as Hne; injection E as <- <-.
        + split; [by rewrite lookup_delete_ne|].
          split; [intros a Ha; destruct (decide (a = arch)) as [->|];
                  [by rewrite lookup_delete_eq|by rewrite lookup_delete_ne]|].
          split; [intros i Hi; by rewrite lookup_insert_ne|].
          split.
          * intros arch' [= <-] _. rewrite lookup_delete_eq.
            unfold table_entry. by rewrite lookup_insert_eq.
          * intros a Ha. rewrite lookup_delete_ne; [done|congruence].
        + subst arch.
          split; [done|]. split; [done|]. split; [done|]. split; [|done].
          intros arch' [= <-] Hr. done.
      - injection E as <- <-.
        split; [done|]. split; [done|]. split; [done|]. split; [|done].
        intros arch' [=]. }
    destruct Hheap1 as (H1root & H1none & H1tab & H1del & H1keep).
    split; [by rewrite IHroot|].
    split; [intros a Ha; by apply IHnone, H1none|].
    split.
    { intros i Hi. apply not_elem_of_cons in Hi as [Hix Hil].
      rewrite IHtab by done. by apply H1tab. }
    split.
    { intros i arch Hi Harch Hne. apply elem_of_cons in Hi as [->|Hi].
      - destruct (H1del arch Harch Hne) as [Hd Ht].
        split; [by apply IHnone|].
        unfold table_entry in *. by rewrite IHtab.
      - assert (i ≠ x) by (intros ->; done).
        apply IHdel; [done| |done].
        unfold table_entry in *. by rewrite H1tab. }
    intros a Ha. rewrite IHkeep.
    + apply H1keep. apply Ha. by left.
    + intros i Hi. assert (i ≠ x) by (intros ->; done).
      unfold table_entry in *. rewrite H1tab by done. apply Ha. by right.
Qed.

(** X10.  [tecs_world_clear] on a world whose root archetype is
    allocated: the call returns; the entity count and the tick are 0,
    the recycle stack is empty and the stored generations are kept; the
    table size is 1; the root archetype is still allocated, with an
    entity count of 0, every chunk count 0 and as many chunks as before;
    every other archetype found in a slot of the table is freed and its
    slot emptied; the component registry is as before. *)
Theorem world_clear_resets (w : tecs_world_t) (root : tecs_archetype_t) :
  w_heap w !! w_root_archetype w = Some root →
  ∃ w' root',
    tecs_world_clear w = Done w'
    ∧ tecs_world_entity_count w' = 0
    ∧ tecs_world_tick w' = 0
    ∧ recycled (w_entities w') = []
    ∧ generations (w_entities w') = generations (w_entities w)
    ∧ w_archetype_table_size w' = 1
    ∧ w_root_archetype w' = w_root_archetype w
    ∧ w_heap w' !! w_root_archetype w = Some root'
    ∧ arch_entity_count root' = 0
    ∧ Forall (λ c, chunk_count c = 0) (arch_chunks root')
    ∧ length (arch_chunks root') = length (arch_chunks root)
    ∧ (∀ i arch, 0 ≤ i < w_archetype_table_capacity w →
         te_archetype (table_entry (w_archetype_table w) i) = Some arch →
         arch ≠ w_root_archetype w →
         w_heap w' !! arch = None
         ∧ te_archetype (table_entry (w_archetype_table w') i) = None)
    ∧ w_component_registry w' = w_component_registry w.
Proof.
  intros Hroot. unfold tecs_world_clear.
  pose proof (clear_slot_fold (w_root_archetype w)
                (seqZ 0 (w_archetype_table_capacity w))
                (w_heap w) (w_archetype_table w) (NoDup_seqZ _ _)) as Hfold.
  destruct (foldl (clear_slot (w_root_archetype w))
              (w_heap w, w_archetype_table w)
              (seqZ 0 (w_archetype_table_capacity w))) as [heap table].
  simpl in Hfold. destruct Hfold as (Hr & _ & _ & Hdel & _).
  unfold get_arch. simpl. rewrite Hr, Hroot. simpl.
  eexists _, _. split; [reflexivity|]. unfold put_arch. simpl.
  unfold tecs_world_entity_count, tecs_world_tick. simpl.
  rewrite lookup_insert_eq.
  repeat (split; [done|]).
  split; [apply Forall_fmap, Forall_true; done|].
  split; [simpl; by rewrite length_fmap|].
  split; [|done].
  intros i arch Hi Harch Hne.
  destruct (Hdel i arch) as [Hd Ht]; [by apply elem_of_seqZ; lia|done|done|].
  split; [|done]. by rewrite lookup_insert_ne.
Qed.

Lemma world_clear_resets_witness :
  ∃ w e0 e1, set_first_of_two = Done (w, e0, e1)
    ∧ ∃ w', tecs_world_clear w = Done w'
            ∧ tecs_world_entity_count w' = 0
            ∧ tecs_world_tick w' = 0.
Proof.
  eexists _, _, _. split; [vm_compute; reflexivity|].
  match goal with
  | |- ∃ w', tecs_world_clear ?W = _ ∧ _ =>
      edestruct (world_clear_resets W) as (w' & root' & Hclear & Hc & Ht & _)
  end; [vm_compute; reflexivity|].
  exists w'. split; [exact Hclear|]. split; [exact Hc|exact Ht].
Defined.

(** ** The hash of a component set *)

Lemma insert_sorted_perm key l : insert_sorted key l ≡ₚ key :: l.
Proof.
  induction l as [|x l IH]; simpl; [done|].
  case_bool_decide; [done|]. rewrite IH. apply perm_swap.
Qed.

Lemma insert_sorted_sorted key l :
  StronglySorted Z.le l → StronglySorted Z.le (insert_sorted key l).
Proof.
  induction l as [|x l IH]; intros Hs; simpl.
  - by repeat constructor.
  - apply StronglySorted_inv in Hs as [Hs Hx]. case_bool_decide as Hgt.
    + constructor; [by constructor|]. constructor; [lia|].
      eapply Forall_impl; [exact Hx|]. intros y Hy. simpl in Hy. lia.
    + constructor; [by apply IH|].
      rewrite insert_sorted_perm. constructor; [lia|done].
Qed.

Lemma insertion_sort_spec l :
  StronglySorted Z.le (insertion_sort l) ∧ insertion_sort l ≡ₚ l.
Proof.
  unfold insertion_sort.
  assert (H : ∀ acc, StronglySorted Z.le acc →
            StronglySorted Z.le (foldl (λ sorted key, insert_sorted key sorted) acc l)
            ∧ foldl (λ sorted key, insert_sorted key sorted) acc l ≡ₚ acc ++ l).
  { induction l as [|x l IH]; intros acc Hacc; simpl.
    - by rewrite app_nil_r.
    - destruct (IH (insert_sorted x acc)) as [Hs Hp];
        [by apply insert_sorted_sorted|].
      split; [done|]. rewrite Hp, insert_sorted_perm. simpl.
      apply Permutation_middle. }
  destruct (H []) as [Hs Hp]; [constructor|]. done.
Qed.

(** X11.  [tecs_hash_component_set] sorts the ids before hashing
    them: two lists of ids that are permutations of each other get the
    same hash. *)
Theorem hash_component_set_order (ids ids' : list Z) :
  ids ≡ₚ ids' →
  tecs_hash_component_set ids = tecs_hash_component_set ids'.
Proof.
  intros Hp. unfold tecs_hash_component_set. f_equal.
  destruct (insertion_sort_spec ids) as [Hs Hp1].
  destruct (insertion_sort_spec ids') as [Hs' Hp2].
  apply (StronglySorted_unique Z.le); [done|done|].
  by rewrite Hp1, Hp2.
Qed.

Lemma hash_component_set_order_witness :
  tecs_hash_component_set [3; 1; 2] = tecs_hash_component_set [1; 3; 2].
Proof.
  apply hash_component_set_order. apply perm_swap.
Defined.

(** ** A new archetype *)

Lemma insert_info_perm c l : insert_info c l ≡ₚ c :: l.
Proof.
  induction l as [|x l IH]; simpl; [done|].
  case_bool_decide; [done|]. rewrite IH. apply perm_swap.
Qed.

Lemma insert_info_sorted c l :
  StronglySorted (λ a b, ci_id a ≤ ci_id b) l →
  StronglySorted (λ a b, ci_id a ≤ ci_id b) (insert_info c l).
Proof.
  induction l as [|x l IH]; intros Hs; simpl.
  - by repeat constructor.
  - apply StronglySorted_inv in Hs as [Hs Hx]. case_bool_decide as Hgt.
    + constructor; [by constructor|]. constructor; [lia|].
      eapply Forall_impl; [exact Hx|]. intros y Hy. simpl in Hy. lia.
    + constructor; [by apply IH|].
      rewrite insert_info_perm. constructor; [lia|done].
Qed.

Lemma sort_component_infos_spec l :
  StronglySorted (λ a b, ci_id a ≤ ci_id b) (sort_component_infos l)
  ∧ sort_component_infos l ≡ₚ l.
Proof.
  unfold sort_component_infos.
  assert (H : ∀ acc, StronglySorted (λ a b, ci_id a ≤ ci_id b) acc →
            StronglySorted (λ a b, ci_id a ≤ ci_id b)
              (foldl (λ sorted c, insert_info c sorted) acc l)
            ∧ foldl (λ sorted c, insert_info c sorted) acc l ≡ₚ acc ++ l).
  { induction l as [|x l IH]; intros acc Hacc; simpl.
    - by rewrite app_nil_r.
    - destruct (IH (insert_info x acc)) as [Hs Hp];
        [by apply insert_info_sorted|].
      split; [done|]. rewrite Hp, insert_info_perm. simpl.
      apply Permutation_middle. }
  destruct (H []) as [Hs Hp]; [constructor|]. done.
Qed.

Lemma indexed_lookup {A} (xs : list A) (k : nat) :
  indexed xs !! k = (λ x, (Z.of_nat k, x)) <$> xs !! k.
Proof.
  unfold indexed. rewrite lookup_zip_with.
  destruct (xs !! k) as [x|] eqn:Hx.
  - assert (k < length xs)%nat by (by eapply lookup_lt_Some).
    rewrite lookup_seqZ_lt by lia. simpl.
    by replace (0 + Z.of_nat k) with (Z.of_nat k) by lia.
  - destruct (seqZ 0 (Z.of_nat (length xs)) !! k); done.
Qed.

Lemma elem_of_indexed {A} (xs : list A) (i : Z) (x : A) :
  (i, x) ∈ indexed xs ↔ 0 ≤ i ∧ xs !! Z.to_nat i = Some x.
Proof.
  rewrite list_elem_of_lookup. split.
  - intros [k Hk]. rewrite indexed_lookup in Hk.
    destruct (xs !! k) as [y|] eqn:Hy; [|done]. injection Hk as <- <-.
    rewrite Nat2Z.id. split; [lia|done].
  - intros [Hi Hx]. exists (Z.to_nat i). rewrite indexed_lookup, Hx. simpl.
    by rewrite Z2Nat.id by lia.
Qed.

Lemma indexed_length {A} (xs : list A) : length (indexed xs) = length xs.
Proof.
  unfold indexed. rewrite length_zip_with, length_seqZ. lia.
Qed.

(** Filling a component map with the ids of a list of components. *)
Lemma fill_map (l : list (Z * tecs_component_info_t)) :
  ∀ m : tecs_component_map_t,
  0 < cm_capacity m →
  Z.of_nat (size (cm_entries m)) + Z.of_nat (length l) ≤ cm_capacity m →
  ∃ m',
    for_each l (λ m '(i, c), tecs_component_map_set m (ci_id c) i) m = Done m'
    ∧ cm_capacity m' = cm_capacity m
    ∧ (∀ k v, cm_entries m' !! k = Some v →
         cm_entries m !! k = Some v ∨ ∃ c, (v, c) ∈ l ∧ ci_id c = k)
    ∧ (∀ k, is_Some (cm_entries m !! k) → is_Some (cm_entries m' !! k))
    ∧ (∀ i c, (i, c) ∈ l → is_Some (cm_entries m' !! ci_id c))
    ∧ (NoDup (ci_id <$> l.*2) →
       ∀ i c, (i, c) ∈ l → cm_entries m' !! ci_id c = Some i).
Proof.
  induction l as [|[i c] l IH]; intros m Hcap Hsize.
  - exists m. split; [done|]. split; [done|]. split; [by left|].
    split; [done|].
    split; intros; exfalso; eapply not_elem_of_nil; eauto.
  - change (length ((i, c) :: l)) with (S (length l)) in Hsize.
    change (for_each ((i, c) :: l)
              (λ m '(i, c), tecs_component_map_set m (ci_id c) i) m)
      with (tecs_component_map_set m (ci_id c) i
            ≫= for_each l (λ m '(i, c), tecs_component_map_set m (ci_id c) i)).
    set (m1 := {| cm_entries := <[ci_id c := i]> (cm_entries m);
                  cm_capacity := cm_capacity m |}).
    assert (Hset : tecs_component_map_set m (ci_id c) i = Done m1).
    { unfold tecs_component_map_set.
      rewrite bool_decide_eq_false_2 by lia.
      by rewrite bool_decide_eq_true_2 by (right; lia). }
    rewrite Hset, bind_Done.
    destruct (IH m1) as (m' & Hrun & Hcap' & Hfrom & Hkeep & Hin & Hexact).
    { done. }
    { simpl. pose proof (map_size_insert (ci_id c) i (cm_entries m)) as Hs.
      destruct (cm_entries m !! ci_id c); simpl in Hs; lia. }
    exists m'. split; [done|]. split; [done|]. split; [|split; [|split]].
    + intros k v Hk. destruct (Hfrom k v Hk) as [H1|(c' & Hc' & Hid)].
      * simpl in H1. destruct (decide (k = ci_id c)) as [->|Hne].
        -- rewrite lookup_insert_eq in H1. injection H1 as <-.
           right. exists c. split; [by left|done].
        -- rewrite lookup_insert_ne in H1 by done. by left.
      * right. exists c'. split; [by right|done].
    + intros k Hk. apply Hkeep. simpl.
      destruct (decide (k = ci_id c)) as [->|Hne];
        [by rewrite lookup_insert_eq|by rewrite lookup_insert_ne].
    + intros i' c' [[= -> ->]|Hl]%elem_of_cons.
      * apply Hkeep. simpl. by rewrite lookup_insert_eq.
      * by eapply Hin.
    + intros Hnd i' c' Hic. simpl in Hnd. apply NoDup_cons in Hnd as [Hc Hnd].
      apply elem_of_cons in Hic as [[= -> ->]|Hl].
      * destruct (Hkeep (ci_id c)) as [v Hv];
          [simpl; by rewrite lookup_insert_eq|].
        destruct (Hfrom _ _ Hv) as [H1|(c' & Hc' & Hid)].
        -- simpl in H1. rewrite lookup_insert_eq in H1. congruence.
        -- exfalso. apply Hc. rewrite <- Hid.
           apply list_elem_of_fmap. exists c'. split; [done|].
           apply list_elem_of_fmap. by exists (v, c').
      * by apply Hexact.
Qed.

Lemma data_components_lookup (sorted : list tecs_component_info_t) (k : nat) :
  ((λ '(i, c), with_column_index c i)
     <$> indexed (filter (λ c, ci_size c > 0) sorted)) !! k
  = (λ c, with_column_index c (Z.of_nat k))
      <$> filter (λ c, ci_size c > 0) sorted !! k.
Proof.
  rewrite list_lookup_fmap, indexed_lookup.
  by destruct (filter _ sorted !! k).
Qed.

(** What [tecs_archetype_new] builds. *)
Lemma archetype_new_spec (components : list tecs_component_info_t) :
  ∃ A,
    tecs_archetype_new components = Done A
    ∧ arch_components A ≡ₚ components
    ∧ StronglySorted (λ a b, ci_id a ≤ ci_id b) (arch_components A)
    ∧ (∀ c, tecs_archetype_has_component A c = true
            ↔ c ∈ ci_id <$> components)
    ∧ (∀ c, 0 ≤ tecs_component_map_get (arch_data_component_map A) c
            ↔ ∃ info, info ∈ components ∧ ci_id info = c ∧ ci_size info > 0)
    ∧ (NoDup (ci_id <$> components) →
       ∀ c, 0 ≤ tecs_component_map_get (arch_data_component_map A) c →
         ∃ info,
           arch_data_components A
             !! Z.to_nat (tecs_component_map_get (arch_data_component_map A) c)
             = Some info
           ∧ ci_id info = c
           ∧ ci_size info > 0
           ∧ ci_column_index info
               = tecs_component_map_get (arch_data_component_map A) c)
    ∧ arch_id A = tecs_hash_component_set (ci_id <$> components)
    ∧ arch_chunks A = []
    ∧ arch_entity_count A = 0.
Proof.
  unfold tecs_archetype_new.
  destruct (sort_component_infos_spec components) as [Hsorted Hperm].
  set (sorted := sort_component_infos components) in *.
  set (fsorted := filter (λ c, ci_size c > 0) sorted).
  set (data := (λ '(i, c), with_column_index c i) <$> indexed fsorted).
  assert (Hdata : ∀ k, data !! k
            = (λ c, with_column_index c (Z.of_nat k)) <$> fsorted !! k)
    by apply data_components_lookup.
  assert (Hlen : length sorted = length components)
    by (by rewrite Hperm).
  set (cap := if bool_decide (Z.of_nat (length components) * 2 < 8) then 8
              else Z.of_nat (length components) * 2).
  set (dcap := if bool_decide (Z.of_nat (length data) * 2 < 8) then 8
               else Z.of_nat (length data) * 2).
  destruct (fill_map (indexed sorted) (tecs_component_map_init cap))
    as (cmap & -> & Hccap & Hcfrom & _ & Hcin & _).
  { simpl. unfold cap. case_bool_decide; lia. }
  { simpl. rewrite map_size_empty, indexed_length, Hlen. unfold cap.
    case_bool_decide; lia. }
  rewrite bind_Done.
  destruct (fill_map (indexed data) (tecs_component_map_init dcap))
    as (dmap & -> & Hdcap & Hdfrom & _ & Hdin & Hdexact).
  { simpl. unfold dcap. case_bool_decide; lia. }
  { simpl. rewrite map_size_empty, indexed_length. unfold dcap.
    case_bool_decide; lia. }
  rewrite bind_Done. eexists. split; [reflexivity|]. simpl.
  assert (Hcap0 : cm_capacity cmap ≠ 0)
    by (rewrite Hccap; simpl; unfold cap; case_bool_decide; lia).
  assert (Hdcap0 : cm_capacity dmap ≠ 0)
    by (rewrite Hdcap; simpl; unfold dcap; case_bool_decide; lia).
  (* entries of the data map *)
  assert (Hdget : ∀ c v, cm_entries dmap !! c = Some v →
            0 ≤ v ∧ ∃ c0, fsorted !! Z.to_nat v = Some c0 ∧ ci_id c0 = c).
  { intros c v Hv. destruct (Hdfrom c v Hv) as [H|(c' & Hc' & Hid)]; [done|].
    apply elem_of_indexed in Hc' as [Hv0 Hc'].
    rewrite Hdata in Hc'.
    destruct (fsorted !! Z.to_nat v) as [c0|] eqn:Hc0; [|done].
    injection Hc' as <-. split; [done|]. by exists c0. }
  split; [done|]. split; [done|].
  split; [|split; [|split; [|done]]].
  - intros c. unfold tecs_archetype_has_component,
      tecs_archetype_find_component, tecs_component_map_get. simpl.
    rewrite (bool_decide_eq_false_2 (cm_capacity cmap = 0)) by done.
    rewrite <- Hperm. split.
    + intros H. apply bool_decide_eq_true_1 in H.
      destruct (cm_entries cmap !! c) as [v|] eqn:Hv; [|simpl in H; lia].
      destruct (Hcfrom c v Hv) as [H'|(c' & Hc' & <-)]; [done|].
      apply elem_of_indexed in Hc' as [_ Hc'].
      apply list_elem_of_fmap. exists c'. split; [done|].
      by eapply list_elem_of_lookup_2.
    + intros (info & -> & Hinfo)%list_elem_of_fmap.
      apply list_elem_of_lookup in Hinfo as [k Hk].
      destruct (Hcin (Z.of_nat k) info) as [v Hv].
      { apply elem_of_indexed. rewrite Nat2Z.id. split; [lia|done]. }
      rewrite Hv. simpl. apply bool_decide_eq_true_2.
      destruct (Hcfrom _ _ Hv) as [H'|(c' & Hc' & _)]; [done|].
      apply elem_of_indexed in Hc' as [? _]. lia.
  - intros c. unfold tecs_component_map_get.
    rewrite (bool_decide_eq_false_2 (cm_capacity dmap = 0)) by done. split.
    + intros H.
      destruct (cm_entries dmap !! c) as [v|] eqn:Hv; [|simpl in H; lia].
      destruct (Hdget c v Hv) as (_ & c0 & Hc0 & Hid).
      apply list_elem_of_lookup_2 in Hc0.
      apply list_elem_of_filter in Hc0 as [Hsize Hc0].
      exists c0. by rewrite <- Hperm.
    + intros (info & Hinfo & <- & Hsize). rewrite <- Hperm in Hinfo.
      assert (Hf : info ∈ fsorted) by (by apply list_elem_of_filter).
      apply list_elem_of_lookup in Hf as [k Hk].
      destruct (Hdin (Z.of_nat k) (with_column_index info (Z.of_nat k)))
        as [v Hv].
      { apply elem_of_indexed. rewrite Nat2Z.id. split; [lia|].
        by rewrite Hdata, Hk. }
      simpl in Hv. rewrite Hv. simpl. by destruct (Hdget _ _ Hv).
  - intros Hnd c. unfold tecs_component_map_get.
    rewrite (bool_decide_eq_false_2 (cm_capacity dmap = 0)) by done. intros H.
    destruct (cm_entries dmap !! c) as [v|] eqn:Hv; [|simpl in H; lia].
    simpl. destruct (Hdget c v Hv) as (Hv0 & c0 & Hc0 & Hid).
    assert (Hnd' : NoDup (ci_id <$> (indexed data).*2)).
    { unfold indexed. rewrite snd_zip by (rewrite length_seqZ; lia).
      assert (ci_id <$> data = ci_id <$> fsorted) as ->.
      { apply list_eq. intros k. rewrite !list_lookup_fmap, Hdata.
        by destruct (fsorted !! k). }
      eapply sublist_NoDup; [|apply fmap_sublist, sublist_filter].
      by rewrite Hperm. }
    exists (with_column_index c0 v).
    rewrite Hdata, Hc0. simpl. rewrite Z2Nat.id by lia.
    split; [done|]. split; [done|]. split; [|done].
    apply list_elem_of_lookup_2 in Hc0.
    by apply list_elem_of_filter in Hc0 as [? _].
Qed.

(** X12.  [tecs_archetype_new] returns for every list of
    components.  The components of the new archetype are the given
    ones, sorted by id; [tecs_archetype_has_component] is true exactly
    for the given ids; the data component map answers with a column
    index exactly for the ids given with a positive size, and when the
    given ids are distinct that index names the data component with
    that id, whose [column_index] it is; the archetype id is the hash of
    the ids; there are no chunks and no entities. *)
Theorem archetype_new_components (components : list tecs_component_info_t) :
  ∃ A,
    tecs_archetype_new components = Done A
    ∧ arch_components A ≡ₚ components
    ∧ StronglySorted (λ a b, ci_id a ≤ ci_id b) (arch_components A)
    ∧ (∀ c, tecs_archetype_has_component A c = true
            ↔ c ∈ ci_id <$> components)
    ∧ (∀ c, 0 ≤ tecs_component_map_get (arch_data_component_map A) c
            ↔ ∃ info, info ∈ components ∧ ci_id info = c ∧ ci_size info > 0)
    ∧ (NoDup (ci_id <$> components) →
       ∀ c, 0 ≤ tecs_component_map_get (arch_data_component_map A) c →
         ∃ info,
           arch_data_components A
             !! Z.to_nat (tecs_component_map_get (arch_data_component_map A) c)
             = Some info
           ∧ ci_id info = c
           ∧ ci_size info > 0
           ∧ ci_column_index info
               = tecs_component_map_get (arch_data_component_map A) c)
    ∧ arch_id A = tecs_hash_component_set (ci_id <$> components)
    ∧ arch_chunks A = []
    ∧ arch_entity_count A = 0.
Proof. apply archetype_new_spec. Qed.

(** ** Building a query *)

Lemma build_loop_spec (w : tecs_world_t) (query : tecs_query_t) (l : list Z) :
  ∀ matched matched',
  for_each l
    (λ matched i,
       match te_archetype (table_entry (w_archetype_table w) i) with
       | Some arch =>
           A ← get_arch w arch;
           Done (if tecs_archetype_matches_query A query
                 then matched ++ [arch] else matched)
       | None => Done matched
       end) matched = Done matched' →
  matched'
    = matched
      ++ omap (λ i, match te_archetype (table_entry (w_archetype_table w) i) with
                    | Some arch =>
                        match w_heap w !! arch with
                        | Some A => if tecs_archetype_matches_query A query
                                    then Some arch else None
                        | None => None
                        end
                    | None => None
                    end) l.
Proof.
  induction l as [|i l IH]; intros matched matched' H.
  - simpl in *. injection H as <-. by rewrite app_nil_r.
  - simpl in H.
    destruct (te_archetype (table_entry (w_archetype_table w) i)) as [arch|] eqn:Hi.
    + unfold get_arch in H.
      destruct (w_heap w !! arch) as [A|] eqn:HA; [|done]. simpl in H.
      apply IH in H. rewrite H. simpl. rewrite Hi, HA.
      destruct (tecs_archetype_matches_query A query); simpl; [|done].
      by rewrite <- app_assoc.
    + simpl in H. apply IH in H. rewrite H. simpl. by rewrite Hi.
Qed.

(** X18.  When [tecs_query_build] returns, the query is marked as
    built at the structural version of the world, with its terms
    unchanged, and the archetypes it matched are exactly the allocated
    archetypes found in a slot of the archetype table that
    [tecs_archetype_matches_query] accepts; [tecs_query_iter_init] on the
    built query does not build it again. *)
Theorem query_build_matches (w : tecs_world_t) (query query' : tecs_query_t) :
  tecs_query_build w query = Done query' →
  q_built query' = true
  ∧ q_terms query' = q_terms query
  ∧ q_last_structural_version query' = w_structural_change_version w
  ∧ (∀ arch,
       arch ∈ q_matched_archetypes query'
       ↔ ∃ i A, 0 ≤ i < w_archetype_table_capacity w
           ∧ te_archetype (table_entry (w_archetype_table w) i) = Some arch
           ∧ w_heap w !! arch = Some A
           ∧ tecs_archetype_matches_query A query = true)
  ∧ tecs_query_iter_init w query'
      = Done (query', {| it_archetype_index := 0; it_chunk_index := -1;
                         it_current_chunk := None;
                         it_current_archetype := None |}).
Proof.
  unfold tecs_query_build. intros H.
  destruct (for_each _ _ _) as [matched| |] eqn:Hloop; try discriminate H.
  simpl in H. injection H as <-.
  apply build_loop_spec in Hloop. simpl in Hloop. subst matched.
  split; [done|]. split; [done|]. split; [done|]. split.
  - intros arch. simpl. rewrite list_elem_of_omap. split.
    + intros (i & Hi & Hm). apply elem_of_seqZ in Hi.
      destruct (te_archetype (table_entry (w_archetype_table w) i))
        as [arch'|] eqn:Hslot; [|done].
      destruct (w_heap w !! arch') as [A|] eqn:HA; [|done].
      destruct (tecs_archetype_matches_query A query) eqn:Hmatch; [|done].
      injection Hm as ->. exists i, A. split; [lia|done].
    + intros (i & A & Hi & Hslot & HA & Hmatch). exists i.
      split; [apply elem_of_seqZ; lia|]. by rewrite Hslot, HA, Hmatch.
  - unfold tecs_query_iter_init. simpl.
    rewrite bool_decide_eq_false_2 by (intros H; by apply H). done.
Qed.

Lemma query_build_matches_witness :
  ∃ w e0 e1, set_first_of_two = Done (w, e0, e1)
    ∧ ∃ q, tecs_query_build w (tecs_query_with tecs_query_new 3) = Done q
           ∧ q_built q = true.
Proof.
  eexists _, _, _. split; [vm_compute; reflexivity|].
  match goal with
  | |- ∃ q, tecs_query_build ?W ?Q = _ ∧ _ =>
      assert (∃ q, tecs_query_build W Q = Done q) as [q H]
        by (eexists; vm_compute; reflexivity);
      exists q; split; [exact H|];
      exact (proj1 (query_build_matches W Q q H))
  end.
Defined.

(** ** Matching a new archetype *)

(** X13.  An archetype made by [tecs_archetype_new] matches a query
    exactly when every With, Changed or Added term names one of its
    component ids and no Without term does; Optional terms do not
    count. *)
Theorem new_archetype_matches (components : list tecs_component_info_t)
    (A : tecs_archetype_t) (query : tecs_query_t) :
  tecs_archetype_new components = Done A →
  tecs_archetype_matches_query A query = true
  ↔ Forall (λ term,
              match term_type term with
              | TECS_TERM_WITH | TECS_TERM_CHANGED | TECS_TERM_ADDED =>
                  term_component_id term ∈ ci_id <$> components
              | TECS_TERM_WITHOUT =>
                  term_component_id term ∉ ci_id <$> components
              | TECS_TERM_OPTIONAL => True
              end) (q_terms query).
Proof.
  intros Hnew.
  destruct (archetype_new_spec components) as (A' & HA' & _ & _ & Hhas & _).
  rewrite Hnew in HA'. injection HA' as <-.
  unfold tecs_archetype_matches_query. rewrite forallb_forall, Forall_forall.
  split; intros H term Hterm.
  - apply list_elem_of_In in Hterm. specialize (H term Hterm). simpl in H.
    destruct (term_type term); try (by apply Hhas); [|done].
    intros Hin. apply Hhas in Hin. by rewrite Hin in H.
  - apply list_elem_of_In in Hterm. specialize (H term Hterm). simpl.
    destruct (term_type term); try (by apply Hhas); [|done].
    destruct (tecs_archetype_has_component A (term_component_id term)) eqn:E;
      [|done].
    exfalso. apply H. by apply Hhas.
Qed.

Lemma new_archetype_matches_witness :
  ∃ A, tecs_archetype_new
         [{| ci_id := 3; ci_size := 8; ci_column_index := -1 |}] = Done A
    ∧ tecs_archetype_matches_query A (query_with_without 3 4) = true.
Proof.
  eexists. split; [vm_compute; reflexivity|].
  eapply (new_archetype_matches
            [{| ci_id := 3; ci_size := 8; ci_column_index := -1 |}]);
    [vm_compute; reflexivity|].
  repeat constructor; simpl; set_solver.
Defined.

(** ** The component hash map, slot by slot *)

Section slots.
Import Slots.
Context (map : tecs_component_map_t) (component_id : Z).
Hypothesis Hshaped : shaped map.

Lemma slot_range j : 0 ≤ slot map component_id j < capacity map.
Proof. destruct Hshaped. unfold slot. apply Z.mod_pos_bound. lia. Qed.

Lemma slot_step j :
  (slot map component_id j + 1) `mod` capacity map = slot map component_id (S j).
Proof.
  unfold slot. rewrite Zplus_mod_idemp_l. f_equal. lia.
Qed.

Lemma slot_wrap :
  slot map component_id (Z.to_nat (capacity map)) = slot map component_id 0.
Proof.
  destruct Hshaped. unfold slot. rewrite Z2Nat.id by lia.
  rewrite Z.add_0_r, Z.mod_mod by lia.
  rewrite <- Zplus_mod_idemp_r, Z.mod_same, Z.add_0_r, Z.mod_mod by lia. done.
Qed.

Lemma slot_inj (i j : nat) :
  Z.of_nat i < capacity map → Z.of_nat j < capacity map →
  slot map component_id i = slot map component_id j → i = j.
Proof.
  destruct Hshaped as [Hcap _]. unfold slot. intros Hi Hj H.
  set (h := component_id `mod` capacity map) in *.
  pose proof (Z.div_mod (h + Z.of_nat i) (capacity map) ltac:(lia)) as Ei.
  pose proof (Z.div_mod (h + Z.of_nat j) (capacity map) ltac:(lia)) as Ej.
  rewrite H in Ei.
  assert ((h + Z.of_nat i) `div` capacity map = (h + Z.of_nat j) `div` capacity map)
    by nia.
  nia.
Qed.

Lemma slot_surj (s : Z) :
  0 ≤ s < capacity map →
  ∃ d : nat, Z.of_nat d < capacity map ∧ slot map component_id d = s.
Proof.
  destruct Hshaped as [Hcap _]. intros Hs.
  set (h := component_id `mod` capacity map).
  exists (Z.to_nat ((s - h) `mod` capacity map)).
  pose proof (Z.mod_pos_bound (s - h) (capacity map) Hcap).
  split; [rewrite Z2Nat.id by lia; lia|].
  unfold slot. fold h. rewrite Z2Nat.id by lia. rewrite Zplus_mod_idemp_r.
  replace (h + (s - h)) with s by lia. apply Z.mod_small. lia.
Qed.

Lemma slot_entry j : is_Some (entries map !! Z.to_nat (slot map component_id j)).
Proof.
  destruct Hshaped as [Hcap Hlen]. apply lookup_lt_is_Some.
  pose proof (slot_range j). lia.
Qed.

Lemma blocked_dec s :
  0 ≤ s < capacity map →
  blocked map component_id s
  ∨ ∃ e, entries map !! Z.to_nat s = Some e
         ∧ (occupied e && bool_decide (key e ≠ component_id)) = false.
Proof.
  destruct Hshaped as [Hcap Hlen]. intros Hs.
  destruct (entries map !! Z.to_nat s) as [e|] eqn:He.
  - destruct (occupied e && bool_decide (key e ≠ component_id)) eqn:Hb.
    + left. apply andb_true_iff in Hb as [Ho Hk].
      apply bool_decide_eq_true_1 in Hk. by exists e.
    + right. by exists e.
  - apply lookup_ge_None in He. lia.
Qed.

(** The probe of the setter stops at the first slot that is not
    blocked, or it runs out of fuel over blocked slots. *)
Lemma set_probe_spec (fuel : nat) : ∀ j : nat,
  (∃ k e, (k < fuel)%nat
      ∧ (∀ i, (i < k)%nat → blocked map component_id (slot map component_id (j + i)))
      ∧ entries map !! Z.to_nat (slot map component_id (j + k)) = Some e
      ∧ (occupied e && bool_decide (key e ≠ component_id)) = false
      ∧ set_probe fuel map component_id (slot map component_id j)
          = Done (slot map component_id (j + k)))
  ∨ ((∀ i, (i < fuel)%nat → blocked map component_id (slot map component_id (j + i)))
     ∧ set_probe fuel map component_id (slot map component_id j) = Hang).
Proof.
  induction fuel as [|fuel IH]; intros j.
  - right. split; [intros i Hi; lia|done].
  - destruct (blocked_dec (slot map component_id j) (slot_range j))
      as [Hb|(e & He & Hb)].
    + destruct Hb as (e & He & Ho & Hk). simpl. rewrite He. simpl.
      rewrite Ho, bool_decide_eq_true_2 by done. simpl. rewrite slot_step.
      destruct (IH (S j)) as [(k & e' & Hk' & Hbl & He' & Hnb & Hrun)|[Hbl Hrun]].
      * left. exists (S k), e'. split; [lia|].
        replace (j + S k)%nat with (S j + k)%nat by lia.
        split; [|done]. intros [|i] Hi.
        -- rewrite Nat.add_0_r. by exists e.
        -- replace (j + S i)%nat with (S j + i)%nat by lia. apply Hbl. lia.
      * right. split; [|done]. intros [|i] Hi.
        -- rewrite Nat.add_0_r. by exists e.
        -- replace (j + S i)%nat with (S j + i)%nat by lia. apply Hbl. lia.
    + left. exists 0%nat, e. rewrite Nat.add_0_r. split; [lia|].
      split; [intros i Hi; lia|]. split; [done|]. split; [done|].
      simpl. rewrite He. simpl. by rewrite Hb.
Qed.

(** Over blocked slots the probe makes as many turns as it is given:
    the loop of the C function has no exit. *)
Lemma set_probe_blocked (fuel : nat) : ∀ index,
  0 ≤ index < capacity map →
  (∀ s, 0 ≤ s < capacity map → blocked map component_id s) →
  set_probe fuel map component_id index = Hang.
Proof.
  induction fuel as [|fuel IH]; intros index Hi Hall; [done|].
  destruct (Hall index Hi) as (e & He & Ho & Hk). simpl. rewrite He. simpl.
  rewrite Ho, bool_decide_eq_true_2 by done. simpl.
  apply IH; [|done]. apply Z.mod_pos_bound. lia.
Qed.

(** The loop of the getter, started [j] steps from the home slot with
    the turns that are left of [capacity]. *)
Lemma get_loop_spec (fuel : nat) : ∀ j : nat,
  (0 < fuel)%nat → Z.of_nat j + Z.of_nat fuel = capacity map →
  (∃ k e, (k < fuel)%nat
      ∧ (∀ i, (i < k)%nat → blocked map component_id (slot map component_id (j + i)))
      ∧ entries map !! Z.to_nat (slot map component_id (j + k)) = Some e
      ∧ (occupied e && bool_decide (key e ≠ component_id)) = false
      ∧ get_loop fuel map component_id (slot map component_id j)
          (slot map component_id 0)
          = Done (if occupied e then value e else -1))
  ∨ ((∀ i, (i < fuel)%nat → blocked map component_id (slot map component_id (j + i)))
     ∧ get_loop fuel map component_id (slot map component_id j)
         (slot map component_id 0) = Done (-1)).
Proof.
  induction fuel as [|fuel IH]; intros j Hfuel Hsum; [lia|].
  destruct (blocked_dec (slot map component_id j) (slot_range j))
    as [Hb|(e & He & Hb)].
  - destruct Hb as (e & He & Ho & Hk). simpl. rewrite He. simpl.
    rewrite Ho. simpl. rewrite bool_decide_eq_false_2 by done.
    rewrite slot_step.
    destruct fuel as [|fuel'].
    + right. assert (S j = Z.to_nat (capacity map)) as -> by lia.
      rewrite slot_wrap, bool_decide_eq_false_2 by (intros H; by apply H).
      split; [|done]. intros [|i] Hi; [|lia].
      rewrite Nat.add_0_r. by exists e.
    + rewrite bool_decide_eq_true_2.
      2:{ intros H. apply slot_inj in H; lia. }
      destruct (IH (S j)) as [(k & e' & Hk' & Hbl & He' & Hnb & Hrun)|[Hbl Hrun]];
        [lia|lia| |].
      * left. exists (S k), e'. split; [lia|].
        replace (j + S k)%nat with (S j + k)%nat by lia.
        split; [|done]. intros [|i] Hi.
        -- rewrite Nat.add_0_r. by exists e.
        -- replace (j + S i)%nat with (S j + i)%nat by lia. apply Hbl. lia.
      * right. split; [|done]. intros [|i] Hi.
        -- rewrite Nat.add_0_r. by exists e.
        -- replace (j + S i)%nat with (S j + i)%nat by lia. apply Hbl. lia.
  - left. exists 0%nat, e. rewrite Nat.add_0_r. split; [lia|].
    split; [intros i Hi; lia|]. split; [done|]. split; [done|].
    simpl. rewrite He. simpl.
    destruct (occupied e); simpl in *; [|done].
    apply bool_decide_eq_false_1 in Hb. apply dec_stable in Hb.
    by rewrite bool_decide_eq_true_2.
Qed.

End slots.

Section slots_set.
Import Slots.

Lemma home_slot map component_id :
  shaped map → component_id `mod` capacity map = slot map component_id 0.
Proof.
  intros [Hcap _]. unfold slot. simpl. by rewrite Z.add_0_r, Z.mod_mod by lia.
Qed.

Lemma shaped_insert map s e :
  shaped map →
  shaped {| entries := <[s := e]> (entries map); capacity := capacity map |}.
Proof. intros [Hc Hl]. split; simpl; [done|]. by rewrite length_insert. Qed.

(** The two results of a probe of the setter. *)
Lemma set_outcome map component_id v :
  shaped map →
  (∃ (k : nat) e,
      Z.of_nat k < capacity map
      ∧ (∀ i, (i < k)%nat → blocked map component_id (slot map component_id i))
      ∧ entries map !! Z.to_nat (slot map component_id k) = Some e
      ∧ (occupied e && bool_decide (key e ≠ component_id)) = false
      ∧ tecs_component_map_set map component_id v
          = Done {| entries :=
                      <[Z.to_nat (slot map component_id k) :=
                          {| key := component_id; value := v; occupied := true |}]>
                        (entries map);
                    capacity := capacity map |})
  ∨ ((∀ s, 0 ≤ s < capacity map → blocked map component_id s)
     ∧ tecs_component_map_set map component_id v = Hang).
Proof.
  intros Hs. pose proof Hs as [Hcap Hlen].
  unfold tecs_component_map_set.
  rewrite bool_decide_eq_false_2 by lia.
  rewrite (home_slot map component_id Hs).
  destruct (set_probe_spec map component_id Hs (Z.to_nat (capacity map)) 0)
    as [(k & e & Hk & Hbl & He & Hnb & ->)|[Hbl ->]].
  - left. exists k, e. cbn [Nat.add] in *. split; [lia|]. done.
  - right. split; [|done]. intros s Hs'.
    destruct (slot_surj map component_id Hs s Hs') as (d & Hd & <-).
    apply (Hbl d). lia.
Qed.

Lemma blocked_insert_ne map component_id s s' e :
  s' ≠ Z.to_nat s →
  blocked {| entries := <[s' := e]> (entries map); capacity := capacity map |}
    component_id s
  ↔ blocked map component_id s.
Proof.
  intros Hne. unfold blocked. simpl. by rewrite list_lookup_insert_ne.
Qed.

Lemma not_blocked map component_id s e :
  entries map !! Z.to_nat s = Some e →
  (occupied e && bool_decide (key e ≠ component_id)) = false →
  ¬ blocked map component_id s.
Proof.
  intros He Hnb (e' & He' & Ho & Hk). rewrite He in He'. injection He' as <-.
  rewrite Ho, bool_decide_eq_true_2 in Hnb by done. done.
Qed.

(** Reading a key back after writing it needs no assumption on how the
    table was filled. *)
Lemma get_after_set map component_id v map' :
  shaped map →
  tecs_component_map_set map component_id v = Done map' →
  tecs_component_map_get map' component_id = Done v.
Proof.
  intros Hs Hset. pose proof Hs as [Hcap Hlen].
  destruct (set_outcome map component_id v Hs)
    as [(k & e & Hk & Hbl & He & Hnb & Hdone)|[_ Hhang]]; [|congruence].
  rewrite Hdone in Hset. injection Hset as <-.
  set (s0 := slot map component_id k) in *.
  set (new := {| key := component_id; value := v; occupied := true |}).
  set (map' := {| entries := <[Z.to_nat s0 := new]> (entries map);
                  capacity := capacity map |}).
  assert (Hs' : shaped map') by by apply shaped_insert.
  assert (Hslot : ∀ j, slot map' component_id j = slot map component_id j) by done.
  assert (Hnew : (occupied new && bool_decide (key new ≠ component_id)) = false).
  { simpl. rewrite bool_decide_eq_false_2; [done|]. intros H. by apply H. }
  assert (Hs0 : entries map' !! Z.to_nat s0 = Some new).
  { simpl. apply list_lookup_insert_eq.
    pose proof (slot_range map component_id Hs k). unfold s0. lia. }
  assert (Hbl' : ∀ i, (i < k)%nat → blocked map' component_id (slot map component_id i)).
  { intros i Hi. apply blocked_insert_ne; [|by apply Hbl].
    intros Heq.
    pose proof (slot_range map component_id Hs k).
    pose proof (slot_range map component_id Hs i).
    assert (slot map component_id k = slot map component_id i) as Heq'
      by (unfold s0 in Heq; lia).
    apply slot_inj in Heq'; [lia|done|lia|lia]. }
  unfold tecs_component_map_get.
  rewrite bool_decide_eq_false_2 by (simpl; lia).
  change (capacity map') with (capacity map).
  rewrite (home_slot map component_id Hs).
  change (slot map component_id 0) with (slot map' component_id 0).
  destruct (get_loop_spec map' component_id Hs' (Z.to_nat (capacity map)) 0)
    as [(k1 & e1 & Hk1 & Hbl1 & He1 & Hnb1 & ->)|[Hbl1 _]];
    [lia|simpl; lia| |].
  - cbn [Nat.add] in He1, Hbl1. rewrite Hslot in He1.
    destruct (Nat.lt_trichotomy k1 k) as [Hlt|[->|Hgt]].
    + exfalso. by eapply (not_blocked map' component_id), Hbl'.
    + fold s0 in He1. rewrite Hs0 in He1. by injection He1 as <-.
    + exfalso. apply (not_blocked map' component_id s0 new Hs0 Hnew).
      apply (Hbl1 k Hgt).
  - exfalso. apply (not_blocked map' component_id s0 new Hs0 Hnew).
    apply (Hbl1 k). lia.
Qed.

(** Two occupied slots of a chained table hold different keys. *)
Lemma chained_unique map s1 s2 e1 e2 :
  chained map →
  entries map !! s1 = Some e1 → entries map !! s2 = Some e2 →
  occupied e1 = true → occupied e2 = true → key e1 = key e2 → s1 = s2.
Proof.
  intros [Hs Hch] H1 H2 Ho1 Ho2 Hk.
  destruct (Hch s1 e1 H1 Ho1) as (d1 & Hd1 & Hs1 & Hp1).
  destruct (Hch s2 e2 H2 Ho2) as (d2 & Hd2 & Hs2 & Hp2).
  rewrite Hk in *.
  destruct (Nat.lt_trichotomy d1 d2) as [Hlt|[->|Hgt]].
  - exfalso. apply (not_blocked map (key e2) (Z.of_nat s1) e1).
    + by rewrite Nat2Z.id.
    + by rewrite Ho1, bool_decide_eq_false_2 by (intros H; by apply H).
    + rewrite Hs1. by apply Hp2.
  - lia.
  - exfalso. apply (not_blocked map (key e2) (Z.of_nat s2) e2).
    + by rewrite Nat2Z.id.
    + by rewrite Ho2, bool_decide_eq_false_2 by (intros H; by apply H).
    + rewrite Hs2. by apply Hp1.
Qed.

(** Where the probe for a key stops in a chained table, the key is
    stored if it is stored at all. *)
Lemma chained_stop map component_id (k : nat) e s2 e2 :
  chained map →
  (∀ i, (i < k)%nat → blocked map component_id (slot map component_id i)) →
  entries map !! Z.to_nat (slot map component_id k) = Some e →
  (occupied e && bool_decide (key e ≠ component_id)) = false →
  entries map !! s2 = Some e2 → occupied e2 = true → key e2 = component_id →
  s2 = Z.to_nat (slot map component_id k).
Proof.
  intros [Hs Hch] Hbl He Hnb H2 Ho2 Hk2.
  destruct (Hch s2 e2 H2 Ho2) as (d2 & Hd2 & Hs2 & Hp2). rewrite Hk2 in *.
  destruct (Nat.lt_trichotomy d2 k) as [Hlt|[->|Hgt]].
  - exfalso. apply (not_blocked map component_id (Z.of_nat s2) e2).
    + by rewrite Nat2Z.id.
    + by rewrite Ho2, bool_decide_eq_false_2 by (intros H; by apply H).
    + rewrite Hs2. by apply Hbl.
  - lia.
  - exfalso. by eapply (not_blocked map component_id), Hp2.
Qed.

Lemma chained_init capacity :
  0 < capacity → chained (tecs_component_map_init capacity).
Proof.
  intros Hcap. split.
  - split; simpl; [done|]. rewrite length_replicate. lia.
  - intros s e He Ho. simpl in He.
    apply lookup_replicate in He as [-> _]. done.
Qed.

(** What a returning [tecs_component_map_set] does to a chained table. *)
Lemma set_chained map component_id v map' :
  chained map →
  tecs_component_map_set map component_id v = Done map' →
  chained map'
  ∧ capacity map' = capacity map
  ∧ ∀ k' v', stored map' k' v'
      ↔ (k' = component_id ∧ v' = v) ∨ (k' ≠ component_id ∧ stored map k' v').
Proof.
  intros Hch Hset. pose proof Hch as [Hs Hpath]. pose proof Hs as [Hcap Hlen].
  destruct (set_outcome map component_id v Hs)
    as [(k & e & Hk & Hbl & He & Hnb & Hdone)|[_ Hhang]]; [|congruence].
  rewrite Hdone in Hset. injection Hset as <-.
  set (s0 := slot map component_id k) in *.
  set (new := {| key := component_id; value := v; occupied := true |}).
  set (map' := {| entries := <[Z.to_nat s0 := new]> (entries map);
                  capacity := capacity map |}).
  pose proof (slot_range map component_id Hs k) as Hr0. fold s0 in Hr0.
  assert (Hs0 : entries map' !! Z.to_nat s0 = Some new).
  { simpl. apply list_lookup_insert_eq. lia. }
  assert (Hother : ∀ s e', s ≠ Z.to_nat s0 →
            entries map' !! s = Some e' ↔ entries map !! s = Some e').
  { intros s e' Hne. simpl. by rewrite list_lookup_insert_ne. }
  (* a key other than [component_id] that was blocked at a slot still is *)
  assert (Hkeep : ∀ k' s, k' ≠ component_id →
            blocked map k' s → blocked map' k' s).
  { intros k' s Hk' (e' & He' & Ho' & Hke').
    destruct (decide (Z.to_nat s = Z.to_nat s0)) as [Heq|Hne].
    - exists new. rewrite Heq. split; [done|]. split; [done|]. simpl. congruence.
    - exists e'. split; [|done]. by apply Hother. }
  split; [|split; [done|]].
  - split; [by apply shaped_insert|]. intros s e' He' Ho'.
    destruct (decide (s = Z.to_nat s0)) as [->|Hne].
    + rewrite Hs0 in He'. injection He' as <-. simpl.
      change (slot map') with (slot map).
      exists k. split; [done|]. split; [rewrite Z2Nat.id by lia; reflexivity|].
      intros i Hi. apply blocked_insert_ne; [|by apply Hbl].
      intros Heq. pose proof (slot_range map component_id Hs i).
      assert (slot map component_id k = slot map component_id i) as Heq'
        by (unfold s0 in Heq; lia).
      apply slot_inj in Heq'; [lia|done|lia|lia].
    + apply Hother in He'; [|done].
      destruct (Hpath s e' He' Ho') as (d & Hd & Hsd & Hp).
      change (slot map') with (slot map).
      exists d. split; [done|]. split; [done|].
      intros i Hi. apply Hkeep; [|by apply Hp].
      intros Hke. apply Hne.
      by eapply (chained_stop map component_id k e s e').
  - intros k' v'. split.
    + intros (s & e' & He' & Ho' & Hke' & Hve').
      destruct (decide (s = Z.to_nat s0)) as [->|Hne].
      * rewrite Hs0 in He'. injection He' as <-. simpl in *. left. done.
      * apply Hother in He'; [|done]. right. split; [|by exists s, e'].
        intros ->. apply Hne.
        by eapply (chained_stop map component_id k e s e').
    + intros [[-> ->]|[Hne (s & e' & He' & Ho' & Hke' & Hve')]].
      * by exists (Z.to_nat s0), new.
      * exists s, e'. split; [|done]. apply Hother; [|done].
        intros ->. rewrite He in He'. injection He' as <-.
        rewrite Ho', bool_decide_eq_true_2 in Hnb by congruence. done.
Qed.

(** What [tecs_component_map_get] returns on a chained table. *)
Lemma get_chained map component_id :
  chained map →
  ∃ r, tecs_component_map_get map component_id = Done r
    ∧ (∀ v, stored map component_id v → r = v)
    ∧ ((∀ v, ¬ stored map component_id v) → r = -1).
Proof.
  intros Hch. pose proof Hch as [Hs Hpath]. pose proof Hs as [Hcap Hlen].
  unfold tecs_component_map_get.
  rewrite bool_decide_eq_false_2 by lia.
  rewrite (home_slot map component_id Hs).
  destruct (get_loop_spec map component_id Hs (Z.to_nat (capacity map)) 0)
    as [(k & e & Hk & Hbl & He & Hnb & ->)|[Hbl ->]]; [lia|simpl; lia| |].
  - cbn [Nat.add] in He, Hbl. eexists. split; [done|]. split.
    + intros v (s2 & e2 & He2 & Ho2 & Hk2 & Hv2).
      pose proof (chained_stop map component_id k e s2 e2 Hch Hbl He Hnb
                    He2 Ho2 Hk2) as ->.
      rewrite He in He2. injection He2 as <-. by rewrite Ho2.
    + intros Hnone. destruct (occupied e) eqn:Ho; [|done].
      exfalso. apply (Hnone (value e)).
      exists (Z.to_nat (slot map component_id k)), e.
      split; [done|]. split; [done|]. split; [|done].
      simpl in Hnb. apply bool_decide_eq_false_1 in Hnb. by apply dec_stable in Hnb.
  - eexists. split; [done|]. split; [|done].
    intros v (s2 & e2 & He2 & Ho2 & Hk2 & Hv2). exfalso.
    assert (Hr : 0 ≤ Z.of_nat s2 < capacity map).
    { apply lookup_lt_Some in He2. lia. }
    destruct (slot_surj map component_id Hs _ Hr) as (d & Hd & Hsd).
    apply (not_blocked map component_id (Z.of_nat s2) e2).
    + by rewrite Nat2Z.id.
    + by rewrite Ho2, bool_decide_eq_false_2 by (intros H; by apply H).
    + rewrite <- Hsd. apply (Hbl d). lia.
Qed.

End slots_set.

Section slots_content.
Import Slots.

Lemma keys_unique_tail e l : keys_unique (e :: l) → keys_unique l.
Proof.
  intros H i j ei ej Hi Hj Hoi Hoj Hk.
  assert (S i = S j) by (by eapply (H (S i) (S j))). lia.
Qed.

Lemma content_lookup l k v :
  keys_unique l →
  content_of l !! k = Some v
  ↔ ∃ s e, l !! s = Some e ∧ occupied e = true ∧ key e = k ∧ value e = v.
Proof.
  induction l as [|e l IH]; intros Hu.
  - simpl. unfold content_of. simpl. rewrite lookup_empty. split; [done|]. by intros (s & e & He & _).
  - specialize (IH (keys_unique_tail _ _ Hu)). simpl.
    destruct (occupied e) eqn:Ho.
    + destruct (decide (k = key e)) as [->|Hne].
      * rewrite lookup_insert_eq. split.
        -- intros [= <-]. by exists 0%nat, e.
        -- intros (s & e' & He' & Ho' & Hk' & Hv').
           assert (s = 0%nat) as -> by (by eapply (Hu s 0%nat e' e)).
           simpl in He'. injection He' as <-. by rewrite Hv'.
      * rewrite lookup_insert_ne by done. rewrite IH. split.
        -- intros (s & e' & He' & H'). by exists (S s), e'.
        -- intros ([|s] & e' & He' & Ho' & Hk' & Hv').
           ++ simpl in He'. injection He' as <-. done.
           ++ by exists s, e'.
    + rewrite IH. split.
      * intros (s & e' & He' & H'). by exists (S s), e'.
      * intros ([|s] & e' & He' & Ho' & Hk' & Hv').
        -- simpl in He'. injection He' as <-. congruence.
        -- by exists s, e'.
Qed.

Lemma content_size_le l : (size (content_of l) ≤ length l)%nat.
Proof.
  induction l as [|e l IH]; simpl; [by rewrite map_size_empty|].
  destruct (occupied e); [|lia].
  destruct (content_of l !! key e) eqn:E.
  - rewrite map_size_insert_Some by done. lia.
  - rewrite map_size_insert_None by done. lia.
Qed.

Lemma content_size_free l s e :
  l !! s = Some e → occupied e = false → (size (content_of l) < length l)%nat.
Proof.
  revert s. induction l as [|e' l IH]; intros s He Ho; [done|].
  destruct s as [|s]; simpl in *.
  - injection He as ->. rewrite Ho. pose proof (content_size_le l). lia.
  - specialize (IH s He Ho). destruct (occupied e'); [|lia].
    destruct (content_of l !! key e') eqn:E.
    + rewrite map_size_insert_Some by done. lia.
    + rewrite map_size_insert_None by done. lia.
Qed.

Lemma content_size_full l :
  keys_unique l → (∀ s e, l !! s = Some e → occupied e = true) →
  size (content_of l) = length l.
Proof.
  induction l as [|e l IH]; intros Hu Hall; simpl; [by rewrite map_size_empty|].
  rewrite (Hall 0%nat e) by done.
  rewrite map_size_insert_None.
  - f_equal. apply IH; [by eapply keys_unique_tail|].
    intros s e' He'. by apply (Hall (S s)).
  - destruct (content_of l !! key e) as [v|] eqn:E; [|done]. exfalso.
    apply content_lookup in E as (s & e' & He' & Ho' & Hk' & _);
      [|by eapply keys_unique_tail].
    assert (S s = 0%nat); [|lia].
    eapply (Hu (S s) 0%nat e' e); [done|done|done| |done].
    by apply (Hall 0%nat).
Qed.

Lemma chained_keys_unique map : chained map → keys_unique (entries map).
Proof.
  intros Hch i j ei ej Hi Hj Hoi Hoj Hk.
  by eapply (chained_unique map i j ei ej).
Qed.

Lemma content_stored map k v :
  chained map → content map !! k = Some v ↔ stored map k v.
Proof. intros Hch. unfold content. by rewrite content_lookup by by apply chained_keys_unique. Qed.

(** The table stands for the finite map of [Module Tecs]: both getters
    agree, and the setters agree on the result and on whether there is
    one. *)
Lemma abstraction_get map component_id :
  chained map →
  tecs_component_map_get map component_id
    = Done (Tecs.tecs_component_map_get (abstraction map) component_id).
Proof.
  intros Hch. destruct (get_chained map component_id Hch) as (r & -> & Hst & Hno).
  f_equal. unfold Tecs.tecs_component_map_get. simpl.
  destruct Hch as [[Hcap Hlen] Hp].
  rewrite bool_decide_eq_false_2 by lia.
  destruct (content map !! component_id) as [v|] eqn:E; simpl.
  - apply Hst. apply content_stored; [|done]. by split.
  - apply Hno. intros v Hv. apply content_stored in Hv; [congruence|by split].
Qed.

Lemma abstraction_set map component_id v :
  chained map →
  refines (λ map' a, chained map' ∧ a = abstraction map')
    (tecs_component_map_set map component_id v)
    (Tecs.tecs_component_map_set (abstraction map) component_id v).
Proof.
  intros Hch. pose proof Hch as [Hs Hp]. pose proof Hs as [Hcap Hlen].
  unfold Tecs.tecs_component_map_set. simpl.
  rewrite bool_decide_eq_false_2 by lia.
  destruct (set_outcome map component_id v Hs)
    as [(k & e & Hk & Hbl & He & Hnb & Hdone)|[Hall Hhang]].
  - destruct (set_chained map component_id v _ Hch Hdone) as (Hch' & Hcap' & Hst).
    rewrite Hdone. rewrite bool_decide_eq_true_2.
    + simpl. split; [done|]. unfold abstraction. simpl. f_equal.
      apply map_eq. intros k'. apply option_eq. intros v'.
      change (content_of _) with (content {| entries :=
          <[Z.to_nat (slot map component_id k) :=
              {| key := component_id; value := v; occupied := true |}]>
            (entries map); capacity := capacity map |}).
      rewrite content_stored by done. rewrite Hst.
      destruct (decide (k' = component_id)) as [->|Hne].
      * rewrite lookup_insert_eq. split; [|intros [[_ ->]|[? _]]; done].
        intros [= ->]. by left.
      * rewrite lookup_insert_ne by done. rewrite content_stored by done.
        split; [|intros [[? _]|[_ ?]]; done]. intros ?. by right.
    + destruct (occupied e) eqn:Ho.
      * left. exists (value e). apply content_stored; [done|].
        exists (Z.to_nat (slot map component_id k)), e.
        split; [done|]. split; [done|]. split; [|done].
        simpl in Hnb. apply bool_decide_eq_false_1 in Hnb.
        by apply dec_stable in Hnb.
      * right. pose proof (content_size_free _ _ _ He Ho). unfold content. lia.
  - rewrite Hhang. rewrite bool_decide_eq_false_2; [done|].
    intros [[v' Hv']|Hlt].
    + apply content_stored in Hv' as (s & e & He & Ho & Hk & _); [|done].
      assert (Hr : 0 ≤ Z.of_nat s < capacity map)
        by (apply lookup_lt_Some in He; lia).
      apply (not_blocked map component_id (Z.of_nat s) e).
      * by rewrite Nat2Z.id.
      * by rewrite Ho, bool_decide_eq_false_2 by (intros H; by apply H).
      * by apply Hall.
    + unfold content in Hlt. rewrite content_size_full in Hlt; [lia| |].
      * by apply chained_keys_unique.
      * intros s e He.
        assert (Hr : 0 ≤ Z.of_nat s < capacity map)
          by (apply lookup_lt_Some in He; lia).
        destruct (Hall _ Hr) as (e' & He' & Ho' & _).
        rewrite Nat2Z.id, He in He'. by injection He' as <-.
Qed.

Lemma abstraction_init capacity :
  abstraction (tecs_component_map_init capacity)
    = Tecs.tecs_component_map_init capacity.
Proof.
  unfold abstraction, Tecs.tecs_component_map_init, content. simpl. f_equal.
  induction (Z.to_nat capacity) as [|n IH]; simpl; done.
Qed.

End slots_content.

(** X14.  A key written to a component map is read back, whatever
    the table held: when [tecs_component_map_set] returns on a table with
    [capacity] entries, [tecs_component_map_get] of the same key on the
    resulting table returns the value written. *)
Theorem component_map_get_after_set
    (map map' : Slots.tecs_component_map_t) (component_id v : Z) :
  Slots.shaped map →
  Slots.tecs_component_map_set map component_id v = Done map' →
  Slots.tecs_component_map_get map' component_id = Done v.
Proof. intros Hs Hset. by eapply get_after_set. Qed.

Lemma component_map_get_after_set_witness :
  ∃ map',
    Slots.tecs_component_map_set (Slots.tecs_component_map_init 8) 11 5
      = Done map'
    ∧ Slots.tecs_component_map_get map' 11 = Done 5.
Proof.
  eexists. split; [vm_compute; reflexivity|].
  apply (component_map_get_after_set (Slots.tecs_component_map_init 8) _ 11 5).
  - split; vm_compute; reflexivity.
  - vm_compute. reflexivity.
Defined.

(** X15.  [tecs_component_map_set] on a table with [capacity]
    entries makes no out-of-bounds access.  It fails to return exactly
    when every slot is occupied by another key, and then no number of
    turns of its probe loop, from whatever slot, reaches an exit. *)
Theorem component_map_set_never_stops
    (map : Slots.tecs_component_map_t) (component_id v : Z) :
  Slots.shaped map →
  Slots.tecs_component_map_set map component_id v ≠ Fault
  ∧ (Slots.tecs_component_map_set map component_id v = Hang
     ↔ ∀ s, 0 ≤ s < Slots.capacity map → Slots.blocked map component_id s)
  ∧ (Slots.tecs_component_map_set map component_id v = Hang →
     ∀ fuel index, 0 ≤ index < Slots.capacity map →
       Slots.set_probe fuel map component_id index = Hang).
Proof.
  intros Hs.
  destruct (set_outcome map component_id v Hs)
    as [(k & e & Hk & Hbl & He & Hnb & Hdone)|[Hall Hhang]].
  - rewrite Hdone. split; [done|]. split; [|done]. split; [done|].
    intros Hall. exfalso.
    apply (not_blocked map component_id _ e He Hnb), Hall.
    by apply slot_range.
  - rewrite Hhang. split; [done|]. split; [done|].
    intros _ fuel index Hi. by apply set_probe_blocked.
Qed.

Lemma component_map_set_never_stops_witness :
  Slots.tecs_component_map_set
    {| Slots.entries :=
         [ {| Slots.key := 2; Slots.value := 0; Slots.occupied := true |};
           {| Slots.key := 1; Slots.value := 1; Slots.occupied := true |} ];
       Slots.capacity := 2 |} 3 2 = Hang
  ∧ Slots.set_probe 1000
      {| Slots.entries :=
           [ {| Slots.key := 2; Slots.value := 0; Slots.occupied := true |};
             {| Slots.key := 1; Slots.value := 1; Slots.occupied := true |} ];
         Slots.capacity := 2 |} 3 1 = Hang.
Proof.
  split; [vm_compute; reflexivity|].
  apply (component_map_set_never_stops _ 3 2).
  - split; vm_compute; reflexivity.
  - vm_compute. reflexivity.
  - simpl. lia.
Defined.

Lemma refines_mono {A B} (R R' : A → B → Prop) c a :
  (∀ x y, R x y → R' x y) → Slots.refines R c a → Slots.refines R' c a.
Proof. intros H. destruct c, a; simpl; auto. Qed.

Lemma for_each_refines {A B X} (R : A → B → Prop)
    (f : A → X → outcome A) (g : B → X → outcome B) (xs : list X) :
  (∀ a b x, R a b → Slots.refines R (f a x) (g b x)) →
  ∀ a b, R a b → Slots.refines R (for_each xs f a) (for_each xs g b).
Proof.
  intros Hstep. induction xs as [|x xs IH]; intros a b Hab; simpl; [done|].
  specialize (Hstep a b x Hab).
  destruct (f a x) as [a'| |], (g b x) as [b'| |]; simpl in *; try done.
  by apply IH.
Qed.

(** X16.  The finite-map reading of the component map is what the
    table implements.  Any sequence of writes to a fresh table of
    positive capacity either returns in both readings, leaving a table
    that stands for the finite map and answers every lookup as the
    finite map does, or does not return in either. *)
Theorem component_map_refines (capacity : Z) (writes : list (Z * Z)) :
  0 < capacity →
  Slots.refines
    (λ map a,
       Slots.chained map ∧ a = Slots.abstraction map
       ∧ ∀ component_id,
           Slots.tecs_component_map_get map component_id
             = Done (Tecs.tecs_component_map_get a component_id))
    (for_each writes
       (λ map kv, Slots.tecs_component_map_set map kv.1 kv.2)
       (Slots.tecs_component_map_init capacity))
    (for_each writes
       (λ map kv, Tecs.tecs_component_map_set map kv.1 kv.2)
       (Tecs.tecs_component_map_init capacity)).
Proof.
  intros Hcap.
  apply (refines_mono (λ map a, Slots.chained map ∧ a = Slots.abstraction map)).
  { intros map a [Hch ->]. split; [done|]. split; [done|].
    intros k. by apply abstraction_get. }
  apply for_each_refines.
  - intros map a [k v] [Hch ->]. simpl. by apply abstraction_set.
  - split; [by apply chained_init|]. symmetry. apply abstraction_init.
Qed.

Lemma component_map_refines_witness :
  Slots.refines
    (λ map a,
       Slots.chained map ∧ a = Slots.abstraction map
       ∧ ∀ component_id,
           Slots.tecs_component_map_get map component_id
             = Done (Tecs.tecs_component_map_get a component_id))
    (for_each [(3, 0); (11, 1); (3, 2)]
       (λ map kv, Slots.tecs_component_map_set map kv.1 kv.2)
       (Slots.tecs_component_map_init 8))
    (for_each [(3, 0); (11, 1); (3, 2)]
       (λ map kv, Tecs.tecs_component_map_set map kv.1 kv.2)
       (Tecs.tecs_component_map_init 8)).
Proof. apply component_map_refines. lia. Defined.

(** ** Query terms *)

Lemma add_terms_spec (terms : list (tecs_term_type_t * Z)) : ∀ q,
  (length (q_terms q) ≤ 16)%nat →
  q_terms (foldl (λ q t, tecs_query_add_term q t.1 t.2) q terms)
    = q_terms q
      ++ ((λ t, {| term_type := t.1; term_component_id := t.2;
                   term_data_index := -1 |})
            <$> take (16 - length (q_terms q)) terms).
Proof.
  induction terms as [|t terms IH]; intros q Hq.
  - simpl. by rewrite take_nil, app_nil_r.
  - simpl. unfold tecs_query_add_term at 2. unfold TECS_MAX_QUERY_TERMS.
    case_bool_decide as Hfull.
    + rewrite IH by done.
      replace (16 - length (q_terms q))%nat with 0%nat by lia. done.
    + rewrite IH by (simpl; rewrite length_app; simpl; lia).
      simpl. rewrite length_app. simpl.
      replace (16 - length (q_terms q))%nat
        with (S (16 - (length (q_terms q) + 1)))%nat by lia.
      simpl. by rewrite <- app_assoc.
Qed.

(** X17.  A query takes [TECS_MAX_QUERY_TERMS] terms: whatever
    sequence of terms is added to a new query, it holds the first sixteen
    of them, in order, and the others are dropped. *)
Theorem query_keeps_sixteen_terms (terms : list (tecs_term_type_t * Z)) :
  q_terms (foldl (λ q t, tecs_query_add_term q t.1 t.2) tecs_query_new terms)
    = (λ t, {| term_type := t.1; term_component_id := t.2;
               term_data_index := -1 |})
        <$> take 16 terms.
Proof. rewrite add_terms_spec by (simpl; lia). done. Qed.

(** ** Query iteration *)

Lemma iter_next_loop_yields (fuel : nat) : ∀ w q it it',
  iter_next_loop fuel w q it = Done (it', true) →
  ∃ arch chunk_idx A chunk,
    it_current_chunk it' = Some (arch, chunk_idx)
    ∧ q_matched_archetypes q !! Z.to_nat (it_archetype_index it') = Some arch
    ∧ w_heap w !! arch = Some A
    ∧ 0 ≤ chunk_idx
    ∧ arch_chunks A !! Z.to_nat chunk_idx = Some chunk
    ∧ chunk_count chunk > 0.
Proof.
  induction fuel as [|fuel IH]; intros w q it it' H; [done|].
  simpl in H. case_bool_decide as Hai; [|done].
  destruct (q_matched_archetypes q !! Z.to_nat (it_archetype_index it))
    as [arch|] eqn:Harch; [|done].
  simpl in H. unfold get_arch in H.
  destruct (w_heap w !! arch) as [A|] eqn:HA; [|done]. simpl in H.
  case_bool_decide as Hci.
  - unfold get_chunk, get_arch in H. rewrite HA in H. simpl in H.
    case_bool_decide as Hneg; [done|].
    destruct (arch_chunks A !! Z.to_nat (it_chunk_index it)) as [chunk|] eqn:Hchunk;
      [|done].
    simpl in H. case_bool_decide as Hcount.
    + injection H as <-. simpl. exists arch, (it_chunk_index it), A, chunk.
      repeat split; try done. lia.
    + by apply IH in H.
  - by apply IH in H.
Qed.

(** X19.  The iterator never yields an empty chunk: when
    [tecs_iter_next] returns true, the current archetype is one of the
    matched archetypes and [tecs_iter_count] is positive. *)
Theorem iter_next_yields_rows (w : tecs_world_t) (query : tecs_query_t)
    (iter iter' : tecs_query_iter_t) :
  tecs_iter_next w query iter = Done (iter', true) →
  ∃ arch n,
    it_current_archetype iter' = Some arch
    ∧ arch ∈ q_matched_archetypes query
    ∧ tecs_iter_count w iter' = Done n
    ∧ 0 < n.
Proof.
  unfold tecs_iter_next. intros H.
  assert (Hcur : ∀ fuel w q it it',
            iter_next_loop fuel w q it = Done (it', true) →
            it_current_archetype it' = fst <$> it_current_chunk it').
  { clear. induction fuel as [|fuel IH]; intros w q it it' H; [done|].
    simpl in H. case_bool_decide; [|done].
    destruct (q_matched_archetypes q !! Z.to_nat (it_archetype_index it));
      [|done].
    simpl in H. destruct (get_arch w z) as [A| |]; try done. simpl in H.
    case_bool_decide.
    - destruct (get_chunk w z (it_chunk_index it)) as [chunk| |]; try done.
      simpl in H. case_bool_decide.
      + by injection H as <-.
      + by apply IH in H.
    - by apply IH in H. }
  pose proof (Hcur _ _ _ _ _ H) as Hc.
  apply iter_next_loop_yields in H
    as (arch & chunk_idx & A & chunk & Hchunk & Harch & HA & Hci & Hch & Hn).
  exists arch, (chunk_count chunk). rewrite Hc, Hchunk. split; [done|].
  split; [by eapply list_elem_of_lookup_2|].
  unfold tecs_iter_count. rewrite Hchunk.
  unfold get_chunk, get_arch. rewrite HA. simpl.
  rewrite bool_decide_eq_false_2 by lia. rewrite Hch. simpl.
  split; [done|lia].
Qed.

Lemma iter_next_yields_rows_witness :
  ∃ w e0 e1, set_first_of_two = Done (w, e0, e1)
    ∧ ∃ qi,
        tecs_query_iter_init w (tecs_query_with tecs_query_new 3) = Done qi
        ∧ ∃ it', tecs_iter_next w qi.1 qi.2 = Done (it', true)
            ∧ ∃ arch n, it_current_archetype it' = Some arch
                        ∧ arch ∈ q_matched_archetypes qi.1
                        ∧ tecs_iter_count w it' = Done n ∧ 0 < n.
Proof.
  eexists _, _, _. split; [vm_compute; reflexivity|].
  eexists. split; [vm_compute; reflexivity|].
  match goal with
  | |- ∃ it', tecs_iter_next ?W ?Q ?I = _ ∧ _ =>
      assert (∃ it', tecs_iter_next W Q I = Done (it', true)) as [it' H]
        by (eexists; vm_compute; reflexivity);
      exists it'; split; [exact H|];
      exact (iter_next_yields_rows W Q I it' H)
  end.
Defined.

(** ** The iterator returns *)

Lemma iter_fuel_turns w q :
  iter_fuel w q = S (turns_left w (q_matched_archetypes q)).
Proof.
  unfold iter_fuel, turns_left. f_equal.
  induction (q_matched_archetypes q) as [|arch l IH]; simpl; [done|].
  rewrite <- IH. unfold chunks_of. destruct (w_heap w !! arch); lia.
Qed.

Lemma turns_left_drop w l (i : nat) arch :
  l !! i = Some arch →
  turns_left w (drop i l) = S (chunks_of w arch + turns_left w (drop (S i) l)).
Proof.
  intros H. by rewrite (drop_S _ _ _ H).
Qed.

Lemma turns_left_drop_le w l (i : nat) :
  (turns_left w (drop i l) ≤ turns_left w l)%nat.
Proof.
  revert i. induction l as [|x l IH]; intros [|i]; simpl; try lia.
  specialize (IH i). lia.
Qed.

Lemma iter_next_loop_returns (w : tecs_world_t) (q : tecs_query_t) (fuel : nat) :
  Forall (λ arch, is_Some (w_heap w !! arch)) (q_matched_archetypes q) →
  ∀ it,
  0 ≤ it_archetype_index it → 0 ≤ it_chunk_index it →
  (turns_left w (drop (Z.to_nat (it_archetype_index it)) (q_matched_archetypes q))
   < fuel + Z.to_nat (it_chunk_index it)
       `min` match q_matched_archetypes q !! Z.to_nat (it_archetype_index it) with
             | Some arch => chunks_of w arch
             | None => O
             end)%nat →
  ∃ r, iter_next_loop fuel w q it = Done r.
Proof.
  intros Hlive. induction fuel as [|fuel IH]; intros it Hai Hci Hfuel.
  - exfalso.
    destruct (q_matched_archetypes q !! Z.to_nat (it_archetype_index it))
      as [arch|] eqn:Harch; [|lia].
    rewrite (turns_left_drop _ _ _ _ Harch) in Hfuel. lia.
  - simpl. case_bool_decide as Hlt; [|by eexists].
    destruct (q_matched_archetypes q !! Z.to_nat (it_archetype_index it))
      as [arch|] eqn:Harch.
    2:{ apply lookup_ge_None in Harch. lia. }
    rewrite (turns_left_drop _ _ _ _ Harch) in Hfuel. simpl.
    rewrite Forall_forall in Hlive.
    destruct (Hlive arch) as [A HA]; [by eapply list_elem_of_lookup_2|].
    unfold get_arch. rewrite HA. simpl.
    unfold chunks_of in Hfuel. rewrite HA in Hfuel.
    case_bool_decide as Hc.
    + unfold get_chunk, get_arch. rewrite HA. simpl.
      rewrite bool_decide_eq_false_2 by lia.
      destruct (arch_chunks A !! Z.to_nat (it_chunk_index it)) as [chunk|] eqn:Hch.
      2:{ apply lookup_ge_None in Hch. lia. }
      simpl. case_bool_decide; [by eexists|].
      apply IH; simpl; [done|lia|].
      rewrite Harch, (turns_left_drop _ _ _ _ Harch).
      unfold chunks_of. rewrite HA. lia.
    + apply IH; simpl; [lia|lia|].
      replace (Z.to_nat (it_archetype_index it + 1))
        with (S (Z.to_nat (it_archetype_index it))) by lia.
      lia.
Qed.

(** X20.  [tecs_iter_next] returns: for a query whose matched
    archetypes are all allocated and an iterator whose archetype index
    is not negative and whose chunk index is at least -1 (as
    [tecs_query_iter_init] and [tecs_iter_next] leave them), the loop
    ends, with no fault. *)
Theorem iter_next_returns (w : tecs_world_t) (query : tecs_query_t)
    (iter : tecs_query_iter_t) :
  Forall (λ arch, is_Some (w_heap w !! arch)) (q_matched_archetypes query) →
  0 ≤ it_archetype_index iter → -1 ≤ it_chunk_index iter →
  ∃ iter' more, tecs_iter_next w query iter = Done (iter', more).
Proof.
  intros Hlive Hai Hci. unfold tecs_iter_next.
  destruct (iter_next_loop_returns w query (iter_fuel w query) Hlive
    {| it_archetype_index := it_archetype_index iter;
       it_chunk_index := it_chunk_index iter + 1;
       it_current_chunk := it_current_chunk iter;
       it_current_archetype := it_current_archetype iter |})
    as ([iter' more] & ->); [done|simpl; lia| |by eexists _, _].
  rewrite iter_fuel_turns. cbn [it_archetype_index it_chunk_index].
  pose proof (turns_left_drop_le w (q_matched_archetypes query)
                (Z.to_nat (it_archetype_index iter))). lia.
Qed.

Lemma iter_next_returns_witness :
  ∃ w e0 e1, set_first_of_two = Done (w, e0, e1)
    ∧ ∃ qi,
        tecs_query_iter_init w (tecs_query_with tecs_query_new 3) = Done qi
        ∧ ∃ iter' more, tecs_iter_next w qi.1 qi.2 = Done (iter', more).
Proof.
  eexists _, _, _. split; [vm_compute; reflexivity|].
  eexists. split; [vm_compute; reflexivity|].
  apply iter_next_returns.
  - repeat constructor. vm_compute. by eexists.
  - vm_compute. discriminate.
  - vm_compute. discriminate.
Defined.

(** ** Ancestors *)

Lemma max_depth_256 : Z.of_nat max_depth = 256.
Proof. reflexivity. Qed.

#[local] Opaque max_depth.

Lemma ancestor_walk_sound w a (fuel : nat) : ∀ current,
  ancestor_walk fuel w a current = Done true →
  ∃ k, (k ≤ fuel)%nat ∧ parent_chain w k current a.
Proof.
  induction fuel as [|fuel IH]; intros current H; [done|].
  simpl in H. case_bool_decide as Hz; [done|].
  destruct (tecs_get w current (PARENT_ID w)) as [[p|]| |] eqn:Hget;
    try discriminate H.
  simpl in H. destruct (tecs_load w p 8) as [bytes| |] eqn:Hload;
    try discriminate H.
  simpl in H.
  assert (Hread : read_parent w current = Done (Some (le_value bytes))).
  { unfold read_parent. rewrite Hget. simpl. by rewrite Hload. }
  case_bool_decide as Heq.
  - exists 1%nat. split; [lia|]. rewrite Heq in Hread. by constructor.
  - destruct (IH _ H) as (k & Hk & Hchain). exists (S k). split; [lia|].
    by eapply parent_chain_step.
Qed.

(** X22.  What the ancestor test decides: for two existing entities,
    [tecs_is_ancestor_of] answers true exactly when the ancestor is
    reached from the descendant by at most 256 Parent links, none of
    them read from the zero handle. *)
Theorem is_ancestor_of_iff_chain (w : tecs_world_t)
    (ancestor descendant : tecs_entity_t) :
  tecs_entity_exists w ancestor = true →
  tecs_entity_exists w descendant = true →
  tecs_is_ancestor_of w ancestor descendant = Done true
  ↔ ∃ k, (k ≤ max_depth)%nat ∧ parent_chain w k descendant ancestor.
Proof.
  intros Ha Hd. unfold tecs_is_ancestor_of. rewrite Ha, Hd. cbn [negb orb]. split.
  - apply ancestor_walk_sound.
  - intros (k & Hk & Hchain). by eapply ancestor_walk_chain.
Qed.

Lemma is_ancestor_of_iff_chain_witness :
  ∃ w top bottom,
    chain 2 = Done (w, top, bottom)
    ∧ (tecs_is_ancestor_of w top bottom = Done true
       ↔ ∃ k, (k ≤ max_depth)%nat ∧ parent_chain w k bottom top).
Proof.
  eexists _, _, _. split; [vm_compute; reflexivity|].
  apply is_ancestor_of_iff_chain; vm_compute; reflexivity.
Defined.

(** ** Depth *)

Lemma depth_walk_bounds w (fuel : nat) : ∀ current depth d,
  depth_walk fuel w current depth = Done d →
  depth ≤ d ≤ depth + Z.of_nat fuel.
Proof.
  induction fuel as [|fuel IH]; intros current depth d H.
  - simpl in H. injection H as <-. lia.
  - simpl in H. case_bool_decide; [injection H as <-; lia|].
    unfold tecs_get_const in H.
    destruct (tecs_get w current (PARENT_ID w)) as [[p|]| |];
      try discriminate H; simpl in H; [|injection H as <-; lia].
    destruct (tecs_load w p 8) as [bytes| |]; try discriminate H. simpl in H.
    apply IH in H. lia.
Qed.

(** The entity reached after [d] links when the depth is [d]. *)
Lemma depth_walk_root w (fuel : nat) : ∀ current depth d,
  depth_walk fuel w current depth = Done d →
  d < depth + Z.of_nat fuel →
  ∃ r, nth_parent (Z.to_nat (d - depth)) w current = Done (Some r)
     ∧ (r = 0 ∨ read_parent w r = Done None).
Proof.
  induction fuel as [|fuel IH]; intros current depth d H Hlt.
  - simpl in H. injection H as <-. lia.
  - simpl in H. case_bool_decide as Hz.
    { injection H as <-. rewrite Z.sub_diag. exists current. split; [done|].
      by left. }
    unfold tecs_get_const in H.
    destruct (tecs_get w current (PARENT_ID w)) as [[p|]| |] eqn:Hget;
      try discriminate H; simpl in H.
    + destruct (tecs_load w p 8) as [bytes| |] eqn:Hload; try discriminate H.
      simpl in H. pose proof (depth_walk_bounds _ _ _ _ _ H) as Hb.
      destruct (IH _ _ _ H) as (r & Hr & Hroot); [lia|].
      exists r. split; [|done].
      replace (Z.to_nat (d - depth)) with (S (Z.to_nat (d - (depth + 1)))) by lia.
      simpl. unfold read_parent. rewrite Hget. simpl. rewrite Hload. simpl.
      exact Hr.
    + injection H as <-. rewrite Z.sub_diag. exists current. split; [done|].
      right. unfold read_parent. by rewrite Hget.
Qed.

(** X23.  [tecs_get_hierarchy_depth] returns a depth between 0 and
    256, 0 for a handle that does not exist; a depth [d] below 256 of an
    existing entity is the number of Parent links to a root: following
    Parent [d] times leads to an entity that has no Parent component or
    is the zero handle. *)
Theorem hierarchy_depth_counts_links (w : tecs_world_t) (entity : tecs_entity_t)
    (d : Z) :
  tecs_get_hierarchy_depth w entity = Done d →
  0 ≤ d ≤ 256
  ∧ (tecs_entity_exists w entity = false → d = 0)
  ∧ (tecs_entity_exists w entity = true → d < 256 →
     ∃ r, nth_parent (Z.to_nat d) w entity = Done (Some r)
        ∧ (r = 0 ∨ read_parent w r = Done None)).
Proof.
  unfold tecs_get_hierarchy_depth. intros H.
  destruct (tecs_entity_exists w entity) eqn:He; cbn [negb] in H.
  - pose proof (depth_walk_bounds _ _ _ _ _ H) as Hb.
    rewrite max_depth_256 in Hb.
    split; [lia|]. split; [done|]. intros _ Hlt.
    destruct (depth_walk_root _ _ _ _ _ H) as (r & Hr & Hroot).
    + rewrite max_depth_256. lia.
    + rewrite Z.sub_0_r in Hr. by exists r.
  - injection H as <-. split; [lia|]. split; [done|]. done.
Qed.

Lemma hierarchy_depth_counts_links_witness :
  ∃ w top bottom,
    chain 2 = Done (w, top, bottom)
    ∧ ∃ r, nth_parent (Z.to_nat 1) w bottom = Done (Some r)
         ∧ (r = 0 ∨ read_parent w r = Done None).
Proof.
  eexists _, _, _. split; [vm_compute; reflexivity|].
  match goal with
  | |- ∃ r, nth_parent _ ?W ?e = _ ∧ _ =>
      destruct (hierarchy_depth_counts_links W e 1) as (_ & _ & H)
  end; [vm_compute; reflexivity|].
  apply H; [vm_compute; reflexivity|lia].
Defined.

(** ** Traversal of the ancestors *)

Lemma ancestors_walk_agree w a (fuel : nat) : ∀ current visited l,
  a ≠ 0 →
  ancestors_walk fuel w current visited = Done l →
  ∃ l', l = visited ++ l'
      ∧ ancestor_walk fuel w a current = Done (bool_decide (a ∈ l')).
Proof.
  induction fuel as [|fuel IH]; intros current visited l Ha H.
  - simpl in *. injection H as <-. exists []. rewrite app_nil_r.
    split; [done|]. rewrite bool_decide_eq_false_2; [done|]. apply not_elem_of_nil.
  - simpl in *. case_bool_decide as Hz.
    { injection H as <-. exists []. rewrite app_nil_r. split; [done|].
      rewrite bool_decide_eq_false_2; [done|]. apply not_elem_of_nil. }
    unfold tecs_get_const in H.
    destruct (tecs_get w current (PARENT_ID w)) as [[p|]| |];
      try discriminate H; simpl in *.
    + destruct (tecs_load w p 8) as [bytes| |]; try discriminate H. simpl in *.
      case_bool_decide as Hnz; destruct (IH _ _ _ Ha H) as (l' & -> & Hwalk).
      * exists (le_value bytes :: l'). rewrite <- app_assoc. split; [done|].
        destruct (decide (le_value bytes = a)) as [Heq|Heq].
        -- rewrite (bool_decide_eq_true_2 (le_value bytes = a)) by done.
           rewrite bool_decide_eq_true_2; [done|]. rewrite Heq. by left.
        -- rewrite (bool_decide_eq_false_2 (le_value bytes = a)) by done.
           rewrite Hwalk. f_equal. apply bool_decide_ext. split.
           ++ intros ?. by right.
           ++ intros [?|?]%elem_of_cons; [congruence|done].
      * exists l'. split; [done|].
        rewrite bool_decide_eq_false_2 by congruence. done.
    + injection H as <-. exists []. rewrite app_nil_r. split; [done|].
      rewrite bool_decide_eq_false_2; [done|]. apply not_elem_of_nil.
Qed.

Lemma ancestors_walk_nonzero w (fuel : nat) : ∀ current visited l,
  ancestors_walk fuel w current visited = Done l → 0 ∉ visited → 0 ∉ l.
Proof.
  induction fuel as [|fuel IH]; intros current visited l H Hv.
  - simpl in H. by injection H as <-.
  - simpl in H. case_bool_decide; [by injection H as <-|].
    unfold tecs_get_const in H.
    destruct (tecs_get w current (PARENT_ID w)) as [[p|]| |];
      try discriminate H; simpl in H; [|by injection H as <-].
    destruct (tecs_load w p 8) as [bytes| |]; try discriminate H. simpl in H.
    apply IH in H; [done|]. case_bool_decide; [|done].
    intros [?|[?|?%elem_of_nil]%elem_of_cons]%elem_of_app; done.
Qed.

Lemma ancestors_walk_length w (fuel : nat) : ∀ current visited l,
  ancestors_walk fuel w current visited = Done l →
  (length l ≤ length visited + fuel)%nat.
Proof.
  induction fuel as [|fuel IH]; intros current visited l H.
  - simpl in H. injection H as <-. lia.
  - simpl in H. case_bool_decide; [injection H as <-; lia|].
    unfold tecs_get_const in H.
    destruct (tecs_get w current (PARENT_ID w)) as [[p|]| |];
      try discriminate H; simpl in H; [|injection H as <-; lia].
    destruct (tecs_load w p 8) as [bytes| |]; try discriminate H. simpl in H.
    apply IH in H. case_bool_decide; [rewrite length_app in H; simpl in H|]; lia.
Qed.

(** X24.  [tecs_traverse_ancestors] and [tecs_is_ancestor_of] agree:
    for an existing, non-zero entity, the ancestor test on a child is
    true exactly when the traversal from that child calls the visitor
    with the entity.  The visitor is called at most 256 times and never
    with the zero handle. *)
Theorem traverse_ancestors_agrees (w : tecs_world_t)
    (ancestor child : tecs_entity_t) (visited : list tecs_entity_t) :
  ancestor ≠ 0 →
  tecs_entity_exists w ancestor = true →
  tecs_traverse_ancestors w child = Done visited →
  tecs_is_ancestor_of w ancestor child = Done (bool_decide (ancestor ∈ visited))
  ∧ (length visited ≤ max_depth)%nat
  ∧ 0 ∉ visited.
Proof.
  intros Hnz Ha. unfold tecs_traverse_ancestors, tecs_is_ancestor_of.
  rewrite Ha. cbn [negb orb].
  destruct (tecs_entity_exists w child); cbn [negb].
  - intros H. destruct (ancestors_walk_agree w ancestor _ _ _ _ Hnz H)
      as (l' & -> & ->). rewrite app_nil_l. split; [done|].
    split; [by apply ancestors_walk_length in H|].
    by eapply (ancestors_walk_nonzero w max_depth _ []); [|apply not_elem_of_nil].
  - intros [= <-]. rewrite bool_decide_eq_false_2 by apply not_elem_of_nil.
    split; [done|]. split; [simpl; lia|apply not_elem_of_nil].
Qed.

Lemma traverse_ancestors_agrees_witness :
  ∃ w top bottom,
    chain 2 = Done (w, top, bottom)
    ∧ ∃ visited, tecs_traverse_ancestors w bottom = Done visited
        ∧ tecs_is_ancestor_of w top bottom
            = Done (bool_decide (top ∈ visited)).
Proof.
  eexists _, _, _. split; [vm_compute; reflexivity|].
  eexists. split; [vm_compute; reflexivity|].
  match goal with
  | |- tecs_is_ancestor_of ?W ?a ?c = Done (bool_decide (_ ∈ ?l)) =>
      destruct (traverse_ancestors_agrees W a c l) as [H _]
  end;
    [vm_compute; discriminate | vm_compute; reflexivity | vm_compute; reflexivity
    | exact H].
Defined.

(** ** The table of children lists *)

Lemma find_children_elem (w : tecs_world_t) (e : tecs_entity_t)
    (c : tecs_children_t) :
  NoDup (w_entity_children w).*1 →
  tecs_find_children w e = Some c ↔ (e, c) ∈ w_entity_children w.
Proof.
  intros Hnd. unfold tecs_find_children.
  destruct (list_find (λ kv, kv.1 = e) (w_entity_children w))
    as [[i [e' c']]|] eqn:Hf.
  - apply list_find_Some in Hf as (Hi & He & _). simpl in He. subst e'.
    split.
    + intros [= <-]. by eapply list_elem_of_lookup_2.
    + intros Hin. apply list_elem_of_lookup in Hin as [j Hj].
      assert (i = j) as ->.
      { apply (NoDup_lookup _ i j e Hnd).
        - rewrite list_lookup_fmap.
          transitivity (fst <$> Some (e, c')); [f_equal; exact Hi|done].
        - rewrite list_lookup_fmap.
          transitivity (fst <$> Some (e, c)); [f_equal; exact Hj|done]. }
      congruence.
  - apply list_find_None in Hf. split; [done|]. intros Hin.
    rewrite Forall_forall in Hf. by apply Hf in Hin.
Qed.

Lemma swap_remove_perm_middle {A} (l1 l2 : list A) (x : A) :
  let l := l1 ++ x :: l2 in
  let i := length l1 in
  take (length l - 1)
    (if bool_decide (i ≠ (length l - 1)%nat)
     then match l !! (length l - 1)%nat with
          | Some y => <[i := y]> l
          | None => l
          end
     else l)
  ≡ₚ l1 ++ l2.
Proof.
  intros l i. unfold l, i. clear l i.
  destruct l2 as [|z l2 _] using rev_ind.
  - rewrite length_app. simpl.
    replace (length l1 + 1 - 1)%nat with (length l1) by lia.
    rewrite bool_decide_eq_false_2 by (intros H; by apply H).
    rewrite take_app_length. by rewrite app_nil_r.
  - rewrite !length_app. simpl. rewrite length_app. simpl.
    replace (length l1 + S (length l2 + 1) - 1)%nat
      with (length l1 + S (length l2))%nat by lia.
    rewrite bool_decide_eq_true_2 by lia.
    assert ((l1 ++ x :: l2 ++ [z]) !! (length l1 + S (length l2))%nat = Some z)
      as ->.
    { rewrite lookup_app_r by lia.
      replace (length l1 + S (length l2) - length l1)%nat
        with (S (length l2)) by lia.
      simpl. rewrite lookup_app_r by lia. by rewrite Nat.sub_diag. }
    rewrite insert_app_r_alt by lia. rewrite Nat.sub_diag. simpl.
    rewrite take_app_ge by lia.
    replace (length l1 + S (length l2) - length l1)%nat
      with (S (length l2)) by lia.
    simpl. rewrite take_app_length.
    apply Permutation_app_head. rewrite Permutation_app_comm. done.
Qed.

Lemma swap_remove_perm {A} (l : list A) (i : nat) (x : A) :
  l !! i = Some x →
  take (length l - 1)
    (if bool_decide (i ≠ (length l - 1)%nat)
     then match l !! (length l - 1)%nat with
          | Some y => <[i := y]> l
          | None => l
          end
     else l)
  ≡ₚ delete i l.
Proof.
  intros Hi. assert (Hlt : (i < length l)%nat) by (by eapply lookup_lt_Some).
  rewrite delete_take_drop.
  pose proof (swap_remove_perm_middle (take i l) (drop (S i) l) x) as H.
  cbv zeta in H. rewrite (take_drop_middle l i x Hi) in H.
  rewrite length_take, Nat.min_l in H by lia. exact H.
Qed.

(** X25.  The table of children lists, when no entity has two
    entries.  After [tecs_ensure_children] the entity has a list, an
    empty one if it had none; after [tecs_remove_children_entry] (which
    moves the last entry into the freed place) it has none.  Both leave
    the list of every other entity as it was, and no entity gets two
    entries. *)
Theorem children_entry_lifecycle (w : tecs_world_t) (entity : tecs_entity_t) :
  NoDup (w_entity_children w).*1 →
  (let '(w1, c) := tecs_ensure_children w entity in
   NoDup (w_entity_children w1).*1
   ∧ tecs_find_children w1 entity = Some c
   ∧ (tecs_find_children w entity = None → ch_count c = 0)
   ∧ ∀ other, other ≠ entity →
       tecs_find_children w1 other = tecs_find_children w other)
  ∧ (let w2 := tecs_remove_children_entry w entity in
     NoDup (w_entity_children w2).*1
     ∧ tecs_find_children w2 entity = None
     ∧ ∀ other, other ≠ entity →
         tecs_find_children w2 other = tecs_find_children w other).
Proof.
  intros Hnd. split.
  - unfold tecs_ensure_children.
    destruct (tecs_find_children w entity) as [c|] eqn:Hfind.
    + split; [done|]. split; [done|]. split; [done|]. done.
    + set (c := {| ch_addr := w_next_addr w + 1; ch_entities := ∅;
                   ch_count := 0; ch_capacity := 4 |}).
      assert (Hnot : entity ∉ (w_entity_children w).*1).
      { intros Hin. apply list_elem_of_fmap in Hin as ([e' c'] & -> & Hin).
        apply find_children_elem in Hin; [|done]. simpl in *. congruence. }
      assert (Hnd' : NoDup (w_entity_children w ++ [(entity, c)]).*1).
      { rewrite fmap_app. apply NoDup_app. split; [done|].
        split; [|apply NoDup_singleton].
        intros x Hx [->|?%elem_of_nil]%elem_of_cons; done. }
      split; [done|]. split.
      * apply find_children_elem; [done|]. simpl.
        apply elem_of_app. right. by left.
      * split; [done|]. intros other Hne.
        apply option_eq. intros c'.
        rewrite !find_children_elem by done. simpl.
        rewrite elem_of_app, list_elem_of_singleton. split; [|by left].
        intros [?|[= ? ?]]; done.
  - destruct (list_find (λ kv, kv.1 = entity) (w_entity_children w))
      as [[i [e' c']]|] eqn:Hf.
    + pose proof Hf as Hf0.
      apply list_find_Some in Hf as (Hi & He & _). simpl in He. subst e'.
      assert (Hlt : (i < length (w_entity_children w))%nat)
        by (by eapply lookup_lt_Some).
      pose proof (swap_remove_perm_middle (take i (w_entity_children w))
                    (drop (S i) (w_entity_children w)) (entity, c')) as Hperm.
      cbv zeta in Hperm.
      rewrite (take_drop_middle (w_entity_children w) i _ Hi) in Hperm.
      rewrite length_take, Nat.min_l in Hperm by lia.
      set (l1 := take i (w_entity_children w)) in *.
      set (l2 := drop (S i) (w_entity_children w)) in *.
      assert (Hsplit : w_entity_children w = l1 ++ (entity, c') :: l2)
        by (symmetry; by apply take_drop_middle).
      match type of Hperm with ?t ≡ₚ _ => set (kvs' := t) in * end.
      assert (Hrm : tecs_remove_children_entry w entity
                = set_w_entity_children w kvs').
      { unfold tecs_remove_children_entry. by rewrite Hf0. }
      rewrite Hrm. cbv zeta.
      rewrite Hsplit, fmap_app, fmap_cons in Hnd. simpl in Hnd.
      apply NoDup_app in Hnd as (Hnd1 & Hdisj & Hnd2).
      apply NoDup_cons in Hnd2 as [Hnot2 Hnd2].
      assert (Hnot1 : entity ∉ l1.*1).
      { intros Hin. apply (Hdisj _ Hin). by left. }
      assert (Hnd' : NoDup (w_entity_children (set_w_entity_children w kvs')).*1).
      { simpl. rewrite Hperm, fmap_app. apply NoDup_app. split; [done|].
        split; [|done]. intros x Hx Hx2. apply (Hdisj _ Hx). by right. }
      assert (Hin' : ∀ e c, (e, c) ∈ kvs'
                ↔ (e, c) ∈ w_entity_children w ∧ e ≠ entity).
      { intros e c. rewrite Hperm, Hsplit, !elem_of_app, elem_of_cons. split.
        - intros [H|H].
          + split; [by left|]. intros ->. apply Hnot1.
            apply list_elem_of_fmap. by exists (entity, c).
          + split; [by right; right|]. intros ->. apply Hnot2.
            apply list_elem_of_fmap. by exists (entity, c).
        - intros [[H|[[= ? ?]|H]] Hne]; [by left|done|by right]. }
      split; [done|]. split.
      * destruct (tecs_find_children _ entity) as [c|] eqn:Hfind; [|done].
        apply find_children_elem in Hfind; [|done]. simpl in Hfind.
        by apply Hin' in Hfind as [_ ?].
      * intros other Hne. apply option_eq. intros c.
        rewrite !find_children_elem; [|by rewrite Hsplit, fmap_app, fmap_cons;
          apply NoDup_app; split; [done|]; split; [done|];
          apply NoDup_cons|done].
        simpl. rewrite Hin'. split; [by intros [? _]|done].
    + assert (Hrm : tecs_remove_children_entry w entity = w).
      { unfold tecs_remove_children_entry. by rewrite Hf. }
      rewrite Hrm. cbv zeta.
      apply list_find_None in Hf. split; [done|]. split; [|done].
      unfold tecs_find_children.
      destruct (list_find _ _) as [[? [? ?]]|] eqn:Hf'; [|done].
      apply list_find_Some in Hf' as (Hi & He & _).
      rewrite Forall_forall in Hf. exfalso. eapply Hf; [|exact He].
      by eapply list_elem_of_lookup_2.
Qed.

Lemma children_entry_lifecycle_witness :
  ∃ w top bottom,
    chain 2 = Done (w, top, bottom)
    ∧ tecs_find_children (tecs_remove_children_entry w top) top = None.
Proof.
  eexists _, _, _. split; [vm_compute; reflexivity|].
  match goal with
  | |- tecs_find_children (tecs_remove_children_entry ?W ?e) _ = None =>
      destruct (children_entry_lifecycle W e) as [_ (_ & H & _)]
  end; [|exact H].
  vm_compute. repeat constructor. set_solver.
Defined.

(** ** Startup *)

(** X26.  [tbevy_app_run_startup] sets [startup_run], so that a
    second call returns the app as it is; a call on an app whose startup
    has run changes nothing. *)
Theorem startup_runs_once (app app' : tbevy_app_t) :
  tbevy_app_run_startup app = Done app' →
  app_startup_run app' = true
  ∧ tbevy_app_run_startup app' = Done app'
  ∧ (app_startup_run app = true → app' = app).
Proof.
  unfold tbevy_app_run_startup at 1. intros H.
  destruct (app_startup_run app) eqn:Hrun.
  - injection H as <-. unfold tbevy_app_run_startup. by rewrite Hrun.
  - destruct (match list_find _ _ with Some _ => _ | None => _ end)
      as [app1| |]; try discriminate H.
    simpl in H. injection H as <-. unfold tbevy_app_run_startup. simpl. done.
Qed.

Lemma startup_runs_once_witness :
  ∃ app,
    one_system_app = Done app
    ∧ ∃ app', tbevy_app_run_startup app = Done app'
              ∧ tbevy_app_run_startup app' = Done app'.
Proof.
  eexists. split; [vm_compute; reflexivity|].
  match goal with
  | |- ∃ app', tbevy_app_run_startup ?A = _ ∧ _ =>
      assert (∃ app', tbevy_app_run_startup A = Done app') as [app' H]
        by (eexists; vm_compute; reflexivity);
      exists app'; split; [exact H|];
      exact (proj1 (proj2 (startup_runs_once A app' H)))
  end.
Defined.

(** ** Events *)

(** X30.  [tbevy_app_clear_events] swaps the buffers of every
    channel: what was waiting in the write buffer is what
    [tbevy_app_read_events] delivers afterwards, nothing is left
    waiting, and the set of channels, the world and the systems are as
    before. *)
Theorem clear_events_swaps (app : tbevy_app_t) (event_type_id : Z) :
  tbevy_app_read_events (tbevy_app_clear_events app) event_type_id
    = pending_events app event_type_id
  ∧ pending_events (tbevy_app_clear_events app) event_type_id = []
  ∧ dom (d_event_channels (app_data (tbevy_app_clear_events app)))
      = dom (d_event_channels (app_data app))
  ∧ d_world (app_data (tbevy_app_clear_events app)) = d_world (app_data app)
  ∧ app_systems (tbevy_app_clear_events app) = app_systems app.
Proof.
  unfold tbevy_app_read_events, pending_events, tbevy_app_clear_events. simpl.
  rewrite lookup_fmap.
  destruct (d_event_channels (app_data app) !! event_type_id) as [chan|]; simpl.
  - split; [done|]. split; [done|]. split; [apply dom_fmap_L|done].
  - split; [done|]. split; [done|]. split; [apply dom_fmap_L|done].
Qed.

(** X29.  [tbevy_app_send_event] with an event of the size of the
    channel returns; the event is appended to those waiting in the write
    buffer; what [tbevy_app_read_events] delivers is not changed by the
    send, and neither are the other channels or the world. *)
Theorem send_event_is_pending (app : tbevy_app_t) (event_type_id : Z)
    (event_data : list Z) (event_size : Z) :
  channel_sized app event_type_id event_size →
  Z.of_nat (length event_data) = event_size →
  ∃ app',
    tbevy_app_send_event app event_type_id event_data event_size = Done app'
    ∧ pending_events app' event_type_id
        = pending_events app event_type_id ++ [event_data]
    ∧ tbevy_app_read_events app' event_type_id
        = tbevy_app_read_events app event_type_id
    ∧ (∀ other, other ≠ event_type_id →
         d_event_channels (app_data app') !! other
           = d_event_channels (app_data app) !! other)
    ∧ d_world (app_data app') = d_world (app_data app).
Proof.
  intros Hsized Hlen.
  destruct (send_spec app event_type_id event_data event_size Hsized Hlen)
    as (app' & Hsend & Hpend & _).
  exists app'. split; [done|]. split; [done|].
  unfold tbevy_app_send_event, memcpy in Hsend.
  rewrite (bool_decide_eq_true_2 (0 ≤ event_size ∧ _)) in Hsend by lia.
  rewrite bind_Done in Hsend. injection Hsend as <-.
  unfold tbevy_app_read_events. simpl. rewrite lookup_insert_eq.
  split; [|split; [intros other Hne; by rewrite lookup_insert_ne|done]].
  destruct (d_event_channels (app_data app) !! event_type_id); done.
Qed.

Lemma send_event_is_pending_witness :
  ∃ app, one_system_app = Done app
    ∧ ∃ app',
        tbevy_app_send_event app 1 [1; 2; 3; 4] 4 = Done app'
        ∧ pending_events app' 1 = pending_events app 1 ++ [[1; 2; 3; 4]].
Proof.
  eexists. split; [vm_compute; reflexivity|].
  match goal with
  | |- ∃ app', tbevy_app_send_event ?A ?i ?ev ?sz = _ ∧ _ =>
      destruct (send_event_is_pending A i ev sz) as (app' & Hs & Hp & _)
  end; [vm_compute; exact I | reflexivity |].
  exists app'. split; [exact Hs|exact Hp].
Defined.

(** ** Sorting without constraints *)






(** ** Running a stage without constraints *)




